(** * go-astiencoder: the node graph and the workflow coordinator

    A shallow embedding of [workflow.go] (the [Workflow] coordinator and the
    [BaseNode] lifecycle that follows it in the same source file).

    Modelling choices, all of them local to this file:

    - Go pointers to nodes are addresses into a [heap]; two maps that hold
      the same node hold the same address, so aliasing is kept.
    - A [context.Context] is the chain of cancellation tokens from the
      context down to the background context; it reports an error as soon
      as one token of the chain has been cancelled.  [context.WithCancel]
      pushes a fresh token.
    - A [sync.Once] is its [done] flag.  [Once.Do] is linearisable: calls on
      one [Once] are serialised by the library, so every method below is one
      atomic step and concurrent callers are sequences of such steps.
    - [go func() {...}()] adds a record to the pool of [goroutines]; what
      the goroutine runs is the function [BaseNode.completion].
    - Calls that leave the component (task supervisor, event emitter,
      closer, callbacks, exec functions) and the calls a goroutine makes on
      nodes are appended to [trace] in program order.
    - Pointers and interfaces handed to the code are not nil, [Workflow.t]
      apart, which is nil until the workflow is started. *)

From stdpp Require Import base gmap strings list sorting.

Abbreviation addr := nat (only parsing).
Abbreviation token := nat (only parsing).
Abbreviation task := nat (only parsing).
Abbreviation Ctx := (list nat) (only parsing).
Abbreviation error := string (only parsing).

(** ** Data model *)

(** [NodeMetadata] *)
Record NodeMetadata := {
  Description : string;
  Label : string;
  Name : string
}.

#[global] Instance NodeMetadata_eq_dec : EqDecision NodeMetadata.
Proof. solve_decision. Defined.

(** [WorkflowStartGroup]: a callback is [nil] or an opaque function, named
    by a number. *)
Record WorkflowStartGroup := {
  Callback : option nat;
  Nodes : list addr
}.

#[global] Instance WorkflowStartGroup_eq_dec : EqDecision WorkflowStartGroup.
Proof. solve_decision. Defined.

(** [WorkflowStartOptions].  The declaration under [workflow.go] has the
    field [Groups]; [BaseNode.ChildIsDone] and [BaseNode.ParentIsDone] read
    a boolean field [StopWhenNodesAreDone] of the same struct.

    Modelled from the spec: [StopWhenNodesAreDone], the field whose
    declaration is missing, is the request to "stop when dependents are
    done". *)
Record WorkflowStartOptions := {
  Groups : list WorkflowStartGroup;
  StopWhenNodesAreDone : bool
}.

#[global] Instance WorkflowStartOptions_eq_dec : EqDecision WorkflowStartOptions.
Proof. solve_decision. Defined.

(** Modelled from the spec: the three values of the status that
    [BaseNode.Status] returns ([StatusPaused], [StatusRunning],
    [StatusStopped]); their declaration is missing. *)
Inductive Status := StatusPaused | StatusRunning | StatusStopped.

#[global] Instance Status_eq_dec : EqDecision Status.
Proof. solve_decision. Defined.

(** [sync.Once]: has the function given to [Do] been run? *)
Record Once := { done : bool }.

#[global] Instance Once_eq_dec : EqDecision Once.
Proof. solve_decision. Defined.

(** [BaseNode].  The mutex [m] is not a field here: a method that holds it
    is one step.

    Modelled from the spec: [status], the field that [Workflow.Pause] and
    [Workflow.Continue] write and [BaseNode.Status] reads; the struct
    declaration after [Workflow] in the source file does not have it. *)
Record BaseNode := {
  cancel : option token;
  children : gmap string addr;
  childrenDone : gmap string bool;
  ctx : option Ctx;
  md : NodeMetadata;
  o : WorkflowStartOptions;
  oStart : Once;
  oStop : Once;
  parents : gmap string addr;
  parentsDone : gmap string bool;
  status : Status
}.

(** [CreateTaskFunc]: the factory the workflow was built with ([w.tf]) or
    the method value [t.NewSubTask] of a task. *)
Inductive CreateTaskFunc :=
| TaskFactory
| NewSubTask (t : task).

#[global] Instance CreateTaskFunc_eq_dec : EqDecision CreateTaskFunc.
Proof. solve_decision. Defined.

(** [BaseNodeExecFunc]: the exec function of a concrete node, opaque and
    named by a number, or the closure that [Workflow.start] builds over the
    nodes and the options it was called with. *)
Inductive BaseNodeExecFunc :=
| ExecNode (f : nat)
| ExecWorkflow (ns : list addr) (o : WorkflowStartOptions).

#[global] Instance BaseNodeExecFunc_eq_dec : EqDecision BaseNodeExecFunc.
Proof. solve_decision. Defined.

(** An [astiworker.Task]: the task it was spawned from, and whether [Done]
    was called on it. *)
Record Task := {
  task_parent : option task;
  task_done : bool
}.

(** How an exec function ends: it returns, or it panics (the deferred
    calls of the goroutine still run). *)
Inductive Outcome := Returned | Panicked.

(** The goroutine that [BaseNode.Start] launches. *)
Record Goroutine := {
  g_node : addr;
  g_task : task;
  g_exec : BaseNodeExecFunc
}.

(** Modelled from the spec: event names ("workflow-started,
    workflow-paused, workflow-stopped, and a generic error event"); the
    constants [EventName...] are declared outside [workflow.go]. *)
Inductive EventName :=
| EventNameError
| EventNameWorkflowPaused
| EventNameWorkflowStarted
| EventNameWorkflowStopped.

Inductive Payload :=
| PayloadString (s : string)
| PayloadError (err : error).

(** [Event{Name, Payload}] *)
Record Event := {
  EvName : EventName;
  EvPayload : Payload
}.

#[global] Instance EventName_eq_dec : EqDecision EventName.
Proof. solve_decision. Defined.
#[global] Instance Payload_eq_dec : EqDecision Payload.
Proof. solve_decision. Defined.
#[global] Instance Event_eq_dec : EqDecision Event.
Proof. solve_decision. Defined.

(** The calls recorded in the trace. *)
Inductive Call :=
| CallCreateTask (tc : CreateTaskFunc) (t : task)   (* [tc()] returned [t] *)
| CallDone (t : task)                               (* [t.Done()] *)
| CallWait (t : task)                               (* [t.Wait()] *)
| CallExec (f : BaseNodeExecFunc) (t : task)        (* [execFunc(t)] *)
| CallParentIsDone (c : addr) (m : NodeMetadata)    (* [c.ParentIsDone(m)] *)
| CallChildIsDone (p : addr) (m : NodeMetadata)     (* [p.ChildIsDone(m)] *)
| CallStop (n : addr)                               (* [n.Stop()] *)
| CallStart (n : addr) (c : Ctx) (tc : CreateTaskFunc)  (* [n.Start(c, tc)] *)
| CallPause (n : addr)                              (* [n.Pause()] *)
| CallContinue (n : addr)                           (* [n.Continue()] *)
| CallEmit (e : Event)                              (* [w.e.Emit(e)] *)
| CallClose                                         (* [w.c.Close()] *)
| CallCallback (f : nat) (t : option task).         (* [g.fn(g.t)] *)

#[global] Instance Call_eq_dec : EqDecision Call.
Proof. solve_decision. Defined.

(** The state of the program. *)
Record World := {
  heap : gmap addr BaseNode;      (* the nodes *)
  cancelled : gset token;         (* the tokens whose [cancel] was called *)
  tokens : nat;                   (* number of tokens handed out *)
  tasks : list Task;              (* the tasks created, by handle *)
  goroutines : list Goroutine;    (* the goroutines launched *)
  trace : list Call
}.

(** ** Field updates *)

Definition set_cancel (v : option token) (n : BaseNode) : BaseNode :=
  {| cancel := v; children := children n; childrenDone := childrenDone n;
     ctx := ctx n; md := md n; o := o n; oStart := oStart n; oStop := oStop n;
     parents := parents n; parentsDone := parentsDone n; status := status n |}.

Definition set_children (v : gmap string addr) (n : BaseNode) : BaseNode :=
  {| cancel := cancel n; children := v; childrenDone := childrenDone n;
     ctx := ctx n; md := md n; o := o n; oStart := oStart n; oStop := oStop n;
     parents := parents n; parentsDone := parentsDone n; status := status n |}.

Definition set_childrenDone (v : gmap string bool) (n : BaseNode) : BaseNode :=
  {| cancel := cancel n; children := children n; childrenDone := v;
     ctx := ctx n; md := md n; o := o n; oStart := oStart n; oStop := oStop n;
     parents := parents n; parentsDone := parentsDone n; status := status n |}.

Definition set_ctx (v : option Ctx) (n : BaseNode) : BaseNode :=
  {| cancel := cancel n; children := children n; childrenDone := childrenDone n;
     ctx := v; md := md n; o := o n; oStart := oStart n; oStop := oStop n;
     parents := parents n; parentsDone := parentsDone n; status := status n |}.

Definition set_o (v : WorkflowStartOptions) (n : BaseNode) : BaseNode :=
  {| cancel := cancel n; children := children n; childrenDone := childrenDone n;
     ctx := ctx n; md := md n; o := v; oStart := oStart n; oStop := oStop n;
     parents := parents n; parentsDone := parentsDone n; status := status n |}.

Definition set_oStart (v : Once) (n : BaseNode) : BaseNode :=
  {| cancel := cancel n; children := children n; childrenDone := childrenDone n;
     ctx := ctx n; md := md n; o := o n; oStart := v; oStop := oStop n;
     parents := parents n; parentsDone := parentsDone n; status := status n |}.

Definition set_oStop (v : Once) (n : BaseNode) : BaseNode :=
  {| cancel := cancel n; children := children n; childrenDone := childrenDone n;
     ctx := ctx n; md := md n; o := o n; oStart := oStart n; oStop := v;
     parents := parents n; parentsDone := parentsDone n; status := status n |}.

Definition set_parents (v : gmap string addr) (n : BaseNode) : BaseNode :=
  {| cancel := cancel n; children := children n; childrenDone := childrenDone n;
     ctx := ctx n; md := md n; o := o n; oStart := oStart n; oStop := oStop n;
     parents := v; parentsDone := parentsDone n; status := status n |}.

Definition set_parentsDone (v : gmap string bool) (n : BaseNode) : BaseNode :=
  {| cancel := cancel n; children := children n; childrenDone := childrenDone n;
     ctx := ctx n; md := md n; o := o n; oStart := oStart n; oStop := oStop n;
     parents := parents n; parentsDone := v; status := status n |}.

Definition set_status (v : Status) (n : BaseNode) : BaseNode :=
  {| cancel := cancel n; children := children n; childrenDone := childrenDone n;
     ctx := ctx n; md := md n; o := o n; oStart := oStart n; oStop := oStop n;
     parents := parents n; parentsDone := parentsDone n; status := v |}.

Definition set_heap (v : gmap addr BaseNode) (σ : World) : World :=
  {| heap := v; cancelled := cancelled σ; tokens := tokens σ; tasks := tasks σ;
     goroutines := goroutines σ; trace := trace σ |}.

Definition set_cancelled (v : gset token) (σ : World) : World :=
  {| heap := heap σ; cancelled := v; tokens := tokens σ; tasks := tasks σ;
     goroutines := goroutines σ; trace := trace σ |}.

Definition set_tokens (v : nat) (σ : World) : World :=
  {| heap := heap σ; cancelled := cancelled σ; tokens := v; tasks := tasks σ;
     goroutines := goroutines σ; trace := trace σ |}.

Definition set_tasks (v : list Task) (σ : World) : World :=
  {| heap := heap σ; cancelled := cancelled σ; tokens := tokens σ; tasks := v;
     goroutines := goroutines σ; trace := trace σ |}.

Definition set_goroutines (v : list Goroutine) (σ : World) : World :=
  {| heap := heap σ; cancelled := cancelled σ; tokens := tokens σ; tasks := tasks σ;
     goroutines := v; trace := trace σ |}.

Definition set_trace (v : list Call) (σ : World) : World :=
  {| heap := heap σ; cancelled := cancelled σ; tokens := tokens σ; tasks := tasks σ;
     goroutines := goroutines σ; trace := v |}.

(** ** The runtime: heap, contexts, tasks, goroutines, trace *)

(** [NewBaseNode(m)] *)
Definition NewBaseNode (m : NodeMetadata) : BaseNode :=
  {| cancel := None; children := ∅; childrenDone := ∅; ctx := None; md := m;
     o := {| Groups := []; StopWhenNodesAreDone := false |};
     oStart := {| done := false |}; oStop := {| done := false |};
     parents := ∅; parentsDone := ∅; status := StatusStopped |}.

#[global] Instance BaseNode_inhabited : Inhabited BaseNode :=
  populate (NewBaseNode {| Description := ""; Label := ""; Name := "" |}).

(** The node at an address.  Every address the code holds is allocated;
    the total lookup gives the others a zero node. *)
Definition node (σ : World) (a : addr) : BaseNode := heap σ !!! a.

(** Writing the node at an address back. *)
Definition store (a : addr) (n : BaseNode) (σ : World) : World :=
  set_heap (<[a := n]> (heap σ)) σ.

Definition log (c : Call) (σ : World) : World :=
  set_trace (trace σ ++ [c]) σ.

(** [ctx.Err() != nil] *)
Definition Err (c : Ctx) (σ : World) : bool :=
  existsb (λ k, bool_decide (k ∈ cancelled σ)) c.

(** [context.WithCancel(c)]: the derived context and its token. *)
Definition WithCancel (c : Ctx) (σ : World) : Ctx * token * World :=
  let k := tokens σ in
  (k :: c, k, set_tokens (S k) σ).

(** Calling the [CancelFunc] of token [k]. *)
Definition call_cancel (k : token) (σ : World) : World :=
  set_cancelled ({[k]} ∪ cancelled σ) σ.

(** [tc()]: the supervisor hands out the next task. *)
Definition create_task (tc : CreateTaskFunc) (σ : World) : task * World :=
  let t := length (tasks σ) in
  let parent := match tc with TaskFactory => None | NewSubTask p => Some p end in
  (t, log (CallCreateTask tc t)
        (set_tasks (tasks σ ++ [{| task_parent := parent; task_done := false |}]) σ)).

(** [t.Done()] *)
Definition task_Done (t : task) (σ : World) : World :=
  log (CallDone t)
    (set_tasks (alter (λ x, {| task_parent := task_parent x; task_done := true |}) t (tasks σ)) σ).

(** [go func() {...}()] *)
Definition spawn (g : Goroutine) (σ : World) : World :=
  set_goroutines (goroutines σ ++ [g]) σ.

(** [sync.Once.Do]: [get] and [set] name the field of node [a] that holds
    the [Once]; the flag is raised when [f] returns. *)
Definition Once_Do (get : BaseNode → Once) (set : Once → BaseNode → BaseNode)
    (a : addr) (f : World → World) (σ : World) : World :=
  if done (get (node σ a)) then σ
  else let σ' := f σ in store a (set {| done := true |} (node σ' a)) σ'.

(** The keys of a Go map after [sort.Strings]. *)
Definition sorted_keys (m : gmap string addr) : list string :=
  merge_sort String.le (map fst (map_to_list m)).

(** ** BaseNode *)

Module BaseNode.

(** [func (n *BaseNode) Context() context.Context] *)
Definition Context (a : addr) (σ : World) : option Ctx := ctx (node σ a).

(** [func (n *BaseNode) Metadata() NodeMetadata] *)
Definition Metadata (a : addr) (σ : World) : NodeMetadata := md (node σ a).

(** Modelled from the spec: [Status()] "reflects the root node's tracked
    status field, read under lock"; the method is called by
    [Workflow.Pause], [Workflow.Continue] and [Workflow.Status] and its
    body is missing. *)
Definition Status (a : addr) (σ : World) : Status := status (node σ a).

(** [func (n *BaseNode) IsStopped() bool] *)
Definition IsStopped (a : addr) (σ : World) : bool :=
  match Context a σ with
  | None => true
  | Some c => Err c σ
  end.

(** [func (n *BaseNode) Stop()] *)
Definition Stop (a : addr) (σ : World) : World :=
  Once_Do oStop set_oStop a (λ σ,
    (* Cancel context *)
    let σ := match cancel (node σ a) with
             | Some k => call_cancel k σ
             | None => σ
             end in
    (* Reset once *)
    store a (set_oStart {| done := false |} (node σ a)) σ) σ.

(** [func (n *BaseNode) Start(ctx, o, tc, execFunc)] *)
Definition Start (a : addr) (c : Ctx) (opts : WorkflowStartOptions)
    (tc : CreateTaskFunc) (execFunc : BaseNodeExecFunc) (σ : World) : World :=
  Once_Do oStart set_oStart a (λ σ,
    (* Store options *)
    let σ := store a (set_o opts (node σ a)) σ in
    (* Check context *)
    if Err c σ then σ
    else
      (* Create task *)
      let '(t, σ) := create_task tc σ in
      (* Reset context *)
      let '(c', k, σ) := WithCancel c σ in
      let σ := store a (set_cancel (Some k) (set_ctx (Some c') (node σ a))) σ in
      (* Reset once *)
      let σ := store a (set_oStop {| done := false |} (node σ a)) σ in
      (* Execute the rest in a goroutine *)
      spawn {| g_node := a; g_task := t; g_exec := execFunc |} σ) σ.

(** [func (n *BaseNode) AddChild(i Node)] *)
Definition AddChild (a : addr) (i : addr) (σ : World) : World :=
  let n := node σ a in
  let k := Name (Metadata i σ) in
  match children n !! k with
  | Some _ => σ
  | None => store a (set_children (<[k := i]> (children n)) n) σ
  end.

(** [func (n *BaseNode) AddParent(i Node)] *)
Definition AddParent (a : addr) (i : addr) (σ : World) : World :=
  let n := node σ a in
  let k := Name (Metadata i σ) in
  match parents n !! k with
  | Some _ => σ
  | None => store a (set_parents (<[k := i]> (parents n)) n) σ
  end.

(** Modelled from the spec: [DelChild], the edge operation of the root
    that [Workflow.DelChild] delegates to and that removes a child; its
    body is missing. *)
Definition DelChild (a : addr) (i : addr) (σ : World) : World :=
  let n := node σ a in
  store a (set_children (delete (Name (Metadata i σ)) (children n)) n) σ.

(** [func (n *BaseNode) ChildIsDone(m NodeMetadata)] *)
Definition ChildIsDone (a : addr) (m : NodeMetadata) (σ : World) : World :=
  let n := node σ a in
  match children n !! Name m with
  | None => σ
  | Some _ =>
      let n := set_childrenDone (<[Name m := true]> (childrenDone n)) n in
      let σ := store a n σ in
      if StopWhenNodesAreDone (o n)
         && bool_decide (size (childrenDone n) = size (children n))
      then Stop a σ
      else σ
  end.

(** [func (n *BaseNode) ParentIsDone(m NodeMetadata)] *)
Definition ParentIsDone (a : addr) (m : NodeMetadata) (σ : World) : World :=
  let n := node σ a in
  match parents n !! Name m with
  | None => σ
  | Some _ =>
      let n := set_parentsDone (<[Name m := true]> (parentsDone n)) n in
      let σ := store a n σ in
      if StopWhenNodesAreDone (o n)
         && bool_decide (size (parentsDone n) = size (parents n))
      then Stop a σ
      else σ
  end.

(** [func (n *BaseNode) Children() (ns []Node)] *)
Definition Children (a : addr) (σ : World) : list addr :=
  let m := children (node σ a) in
  omap (λ k, m !! k) (sorted_keys m).

(** [func (n *BaseNode) Parents() (ns []Node)] *)
Definition Parents (a : addr) (σ : World) : list addr :=
  let m := parents (node σ a) in
  omap (λ k, m !! k) (sorted_keys m).

(** The two loops that the goroutine of [Start] runs when [execFunc(t)]
    has returned. *)
Definition notify (a : addr) (σ : World) : World :=
  (* Loop through children *)
  let σ := foldl (λ σ c, ParentIsDone c (md (node σ a))
                           (log (CallParentIsDone c (md (node σ a))) σ))
                 σ (Children a σ) in
  (* Loop through parents *)
  foldl (λ σ p, ChildIsDone p (md (node σ a))
                  (log (CallChildIsDone p (md (node σ a))) σ))
        σ (Parents a σ).

(** What the goroutine of [Start] does once [execFunc(t)] has ended with
    outcome [out]: the two loops when it returned, and then the deferred
    calls, last deferred first. *)
Definition completion (a : addr) (t : task) (out : Outcome) (σ : World) : World :=
  let σ := match out with Returned => notify a σ | Panicked => σ end in
  (* defer n.Stop() *)
  let σ := Stop a (log (CallStop a) σ) in
  (* defer t.Done() *)
  task_Done t σ.

(** The goroutine of [Start], for an exec function that changes the world
    by [exec] and ends with [out]. *)
Definition goroutine (exec : World → Outcome * World) (g : Goroutine) (σ : World) : World :=
  let '(out, σ) := exec (log (CallExec (g_exec g) (g_task g)) σ) in
  completion (g_node g) (g_task g) out σ.

End BaseNode.

(** [func ConnectNodes(parent, child Node)] *)
Definition ConnectNodes (parent child : addr) (σ : World) : World :=
  BaseNode.AddParent child parent (BaseNode.AddChild parent child σ).

(** ** Workflow *)

(** Modelled from the spec: the resource closer, "[Close() → error]"; the
    type [Closer] is declared outside [workflow.go].  A closer is the
    result its [Close] gives. *)
Record Closer := { Close_err : option error }.

(** [errors.Wrapf(err, format, args...)]: the message, a colon, the cause. *)
Definition Wrapf (err : error) (msg : string) : error := msg +:+ ": " +:+ err.

(** Modelled from the spec: [EventError(err)] is "a generic error event
    carrying a wrapped error"; the function is declared outside
    [workflow.go]. *)
Definition EventError (err : error) : Event :=
  {| EvName := EventNameError; EvPayload := PayloadError err |}.

(** [ErrNodeNotFound] *)
Definition ErrNodeNotFound : error := "astiencoder: node.not.found".

(** [workflowStartGroup] *)
Record workflowStartGroup := {
  sg_fn : option nat;
  sg_ns : list addr;
  sg_t : option task
}.

(** The order in which [range] goes through a map is not specified by Go:
    it is a parameter of the functions that range over the registry. *)
Record RangeOrder := {
  range :> gmap string addr → list addr;
  range_values : ∀ m, range m ≡ₚ (map_to_list m).*2
}.

Definition map_to_list_order : RangeOrder :=
  {| range := λ m, (map_to_list m).*2; range_values := λ m, reflexivity _ |}.

Module Workflow.

(** [Workflow].  The emitter [e] and the mutex [m] have no state of their
    own here: [Emit] is a call in the trace, a method that holds [m] is one
    step. *)
Record Workflow := {
  bn : addr;
  c : Closer;
  ctx : Ctx;
  name : string;
  ns : gmap string addr;
  t : option task;
  tf : CreateTaskFunc
}.

Definition set_ns (v : gmap string addr) (w : Workflow) : Workflow :=
  {| bn := bn w; c := c w; ctx := ctx w; name := name w; ns := v; t := t w; tf := tf w |}.

Definition set_t (v : option task) (w : Workflow) : Workflow :=
  {| bn := bn w; c := c w; ctx := ctx w; name := name w; ns := ns w; t := v; tf := tf w |}.

(** [NewWorkflow(ctx, name, e, tf, c)]: the root node goes to a fresh
    address. *)
Definition NewWorkflow (cx : Ctx) (nm : string) (f : CreateTaskFunc) (cl : Closer)
    (σ : World) : Workflow * World :=
  let a := fresh (dom (heap σ)) in
  ({| bn := a; c := cl; ctx := cx; name := nm; ns := ∅; t := None; tf := f |},
   store a (NewBaseNode {| Description := "root"; Label := "root"; Name := "root" |}) σ).

(** [func (w *Workflow) Closer() *Closer] *)
Definition Closer (w : Workflow) : Closer := c w.

(** [func (w *Workflow) indexNodesFunc(ns []Node)].  [fuel] bounds the depth
    of the recursion: [None] is a walk that needs a deeper stack. *)
Fixpoint indexNodesFunc (fuel : nat) (σ : World) (l : list addr) (w : Workflow)
    : option Workflow :=
  match fuel with
  | 0 => None
  | S fuel =>
      (* Loop through nodes *)
      foldl (λ acc n,
               w ← acc;
               (* Add node *)
               let w := set_ns (<[Name (BaseNode.Metadata n σ) := n]> (ns w)) w in
               (* Index children nodes *)
               indexNodesFunc fuel σ (BaseNode.Children n σ) w)
            (Some w) l
  end.

(** [func (w *Workflow) IndexNodes()] *)
Definition IndexNodes (fuel : nat) (w : Workflow) (σ : World) : option Workflow :=
  indexNodesFunc fuel σ (BaseNode.Children (bn w) σ) w.

(** Modelled from the spec: the [Start] of a concrete node.  "Concrete node
    types embed/compose [BaseNode] and supply only their exec function": the
    call goes to [BaseNode.Start] with the node's own exec function.  The
    call sites below give a context and a task factory and no options: the
    node keeps the options it has. *)
Definition Node_Start (n : addr) (cx : Ctx) (tc : CreateTaskFunc) (σ : World) : World :=
  BaseNode.Start n cx (o (node σ n)) tc (ExecNode n) (log (CallStart n cx tc) σ).

(** [func (w *Workflow) StartNodes(ns ...Node)].  [None]: [w.t] or the
    context of the root is nil. *)
Definition StartNodes (w : Workflow) (l : list addr) (σ : World) : option World :=
  foldl (λ acc n,
           σ ← acc;
           cx ← BaseNode.Context (bn w) σ;
           t0 ← t w;
           Some (Node_Start n cx (NewSubTask t0) σ))
        (Some σ) l.

(** [func (w *Workflow) StartNodesInSubTask(ns ...Node) (t *astiworker.Task)] *)
Definition StartNodesInSubTask (w : Workflow) (l : list addr) (σ : World)
    : option (task * World) :=
  t0 ← t w;
  let '(t1, σ) := create_task (NewSubTask t0) σ in
  σ ← foldl (λ acc n,
               σ ← acc;
               cx ← BaseNode.Context (bn w) σ;
               Some (Node_Start n cx (NewSubTask t1) σ))
            (Some σ) l;
  Some (t1, σ).

(** [w.e.Emit(e)] *)
Definition Emit (e : Event) (σ : World) : World := log (CallEmit e) σ.

(** [w.c.Close()] *)
Definition Close (w : Workflow) (σ : World) : option error * World :=
  (Close_err (c w), log CallClose σ).

(** The first loop of the closure in [start]: "Index groups".  A pointer to
    a group is its position in [gs]. *)
Definition index_groups (opts : WorkflowStartOptions)
    : list workflowStartGroup * gmap addr nat :=
  foldl (λ '(gs, ngs) og,
           let g := length gs in
           let ngs := foldl (λ ngs n, <[n := g]> ngs) ngs (Nodes og) in
           (gs ++ [{| sg_fn := Callback og; sg_ns := []; sg_t := None |}], ngs))
        ([], ∅) (Groups opts).

(** The second loop: "Loop through nodes". *)
Definition loop_nodes (w : Workflow) (ngs : gmap addr nat) (l : list addr)
    (gs : list workflowStartGroup) (σ : World)
    : option (list workflowStartGroup * World) :=
  foldl (λ acc n,
           '(gs, σ) ← acc;
           match ngs !! n with
           | Some g =>
               Some (alter (λ x, {| sg_fn := sg_fn x; sg_ns := sg_ns x ++ [n];
                                    sg_t := sg_t x |}) g gs, σ)
           | None => σ ← StartNodes w [n] σ; Some (gs, σ)
           end)
        (Some (gs, σ)) l.

(** The third loop: "Loop through groups". *)
Fixpoint loop_groups (w : Workflow) (gs : list workflowStartGroup) (σ : World)
    : option (list workflowStartGroup * World) :=
  match gs with
  | [] => Some ([], σ)
  | g :: gs =>
      '(t1, σ) ← StartNodesInSubTask w (sg_ns g) σ;
      '(gs, σ) ← loop_groups w gs σ;
      Some ({| sg_fn := sg_fn g; sg_ns := sg_ns g; sg_t := Some t1 |} :: gs, σ)
  end.

(** The fourth loop: "Execute groups callbacks". *)
Definition loop_callbacks (gs : list workflowStartGroup) (σ : World) : World :=
  foldl (λ σ g,
           match sg_fn g with
           | Some f => log (CallCallback f (sg_t g)) σ
           | None => σ
           end)
        σ gs.

(** The closure that [start] hands to the root node as its exec function,
    run with task [t0]. *)
Definition start_exec (w : Workflow) (l : list addr) (opts : WorkflowStartOptions)
    (t0 : task) (σ : World) : option (Workflow * World) :=
  (* Store task *)
  let w := set_t (Some t0) w in
  (* Index groups *)
  let '(gs, ngs) := index_groups opts in
  (* Loop through nodes *)
  '(gs, σ) ← loop_nodes w ngs l gs σ;
  (* Loop through groups *)
  '(gs, σ) ← loop_groups w gs σ;
  (* Send event *)
  let σ := Emit {| EvName := EventNameWorkflowStarted;
                   EvPayload := PayloadString (name w) |} σ in
  (* Execute groups callbacks *)
  let σ := loop_callbacks gs σ in
  (* Wait for task to be done *)
  let σ := log (CallWait t0) σ in
  (* Close *)
  let '(err, σ) := Close w σ in
  let σ := match err with
           | Some err =>
               Emit (EventError (Wrapf err ("astiencoder: closing workflow "
                                             +:+ name w +:+ " failed"))) σ
           | None => σ
           end in
  (* Send event *)
  Some (w, Emit {| EvName := EventNameWorkflowStopped;
                   EvPayload := PayloadString (name w) |} σ).

(** [func (w *Workflow) start(ns []Node, o WorkflowStartOptions)].  The
    call gives the root a context, a task factory and the closure, and no
    options: the root keeps the options it has. *)
Definition start (w : Workflow) (l : list addr) (opts : WorkflowStartOptions)
    (σ : World) : World :=
  BaseNode.Start (bn w) (ctx w) (o (node σ (bn w))) (tf w) (ExecWorkflow l opts) σ.

(** The goroutine of the root node: the closure of [start], then what every
    goroutine of [BaseNode.Start] does. *)
Definition goroutine (w : Workflow) (g : Goroutine) (σ : World)
    : option (Workflow * World) :=
  match g_exec g with
  | ExecWorkflow l opts =>
      '(w, σ) ← start_exec w l opts (g_task g) (log (CallExec (g_exec g) (g_task g)) σ);
      Some (w, BaseNode.completion (g_node g) (g_task g) Returned σ)
  | ExecNode _ => None
  end.

(** [func (w *Workflow) Stop()] *)
Definition Stop (w : Workflow) (σ : World) : World := BaseNode.Stop (bn w) σ.

(** [func (w *Workflow) AddChild(n Node)] *)
Definition AddChild (w : Workflow) (n : addr) (σ : World) : World :=
  BaseNode.AddChild (bn w) n σ.

(** [func (w *Workflow) DelChild(n Node)] *)
Definition DelChild (w : Workflow) (n : addr) (σ : World) : World :=
  BaseNode.DelChild (bn w) n σ.

(** [func (w *Workflow) Children() []Node] *)
Definition Children (w : Workflow) (σ : World) : list addr :=
  BaseNode.Children (bn w) σ.

(** [func (w *Workflow) Status() string] *)
Definition Status (w : Workflow) (σ : World) : Status := BaseNode.Status (bn w) σ.

(** [func (w *Workflow) Node(name string) (n Node, err error)] *)
Definition Node (w : Workflow) (nm : string) : option addr * option error :=
  match ns w !! nm with
  | Some n => (Some n, None)
  | None => (None, Some ErrNodeNotFound)
  end.

Section range.
Variable order : RangeOrder.

(** [func (w *Workflow) nodes() (ns []Node)] *)
Definition nodes (w : Workflow) : list addr := order (ns w).

(** [func (w *Workflow) Start()] *)
Definition Start (w : Workflow) (σ : World) : World :=
  start w (nodes w) {| Groups := []; StopWhenNodesAreDone := false |} σ.

(** [func (w *Workflow) StartWithOptions(o WorkflowStartOptions)] *)
Definition StartWithOptions (w : Workflow) (opts : WorkflowStartOptions) (σ : World)
    : World :=
  start w (nodes w) opts σ.

(** [func (w *Workflow) Pause()].  The [Pause] of a concrete node is
    opaque: it is a call in the trace. *)
Definition Pause (w : Workflow) (σ : World) : World :=
  (* Workflow is not running *)
  if decide (BaseNode.Status (bn w) σ ≠ StatusRunning) then σ
  else
    (* Pause *)
    let σ := foldl (λ σ n, log (CallPause n) σ) σ (nodes w) in
    (* Update status *)
    let σ := store (bn w) (set_status StatusPaused (node σ (bn w))) σ in
    (* Send event *)
    Emit {| EvName := EventNameWorkflowPaused; EvPayload := PayloadString (name w) |} σ.

(** [func (w *Workflow) Continue()].  The [Continue] of a concrete node is
    opaque: it is a call in the trace. *)
Definition Continue (w : Workflow) (σ : World) : World :=
  (* Workflow is not paused *)
  if decide (BaseNode.Status (bn w) σ ≠ StatusPaused) then σ
  else
    (* Continue *)
    let σ := foldl (λ σ n, log (CallContinue n) σ) σ (nodes w) in
    (* Update status *)
    let σ := store (bn w) (set_status StatusRunning (node σ (bn w))) σ in
    (* Send event *)
    Emit {| EvName := EventNameWorkflowStarted; EvPayload := PayloadString (name w) |} σ.

End range.

End Workflow.

(** ** Vocabulary of the statements *)

(** The arguments of one call of [BaseNode.Start]. *)
Definition StartArgs : Type :=
  Ctx * WorkflowStartOptions * CreateTaskFunc * BaseNodeExecFunc.

(** [Start] called on one node again and again, with any arguments. *)
Definition Start_calls (a : addr) (calls : list StartArgs) (σ : World) : World :=
  foldl (λ σ '(c, opts, tc, f), BaseNode.Start a c opts tc f σ) σ calls.

(** The task that [tc()] adds to the supervisor. *)
Definition new_task (tc : CreateTaskFunc) : Task :=
  {| task_parent := match tc with TaskFactory => None | NewSubTask p => Some p end;
     task_done := false |}.

(** The node that a [Start] which goes through leaves at its address:
    options stored, scope derived with token [k], stop guard reset, start
    guard fired. *)
Definition started_node (k : token) (c : Ctx) (opts : WorkflowStartOptions)
    (n : BaseNode) : BaseNode :=
  set_oStart {| done := true |}
    (set_oStop {| done := false |}
       (set_cancel (Some k) (set_ctx (Some (k :: c)) (set_o opts n)))).

(** The events the emitter has received. *)
Definition emitted (σ : World) : list Event :=
  omap (λ c, match c with CallEmit e => Some e | _ => None end) (trace σ).

Definition paused_event (w : Workflow.Workflow) : Event :=
  {| EvName := EventNameWorkflowPaused; EvPayload := PayloadString (Workflow.name w) |}.

Definition started_event (w : Workflow.Workflow) : Event :=
  {| EvName := EventNameWorkflowStarted; EvPayload := PayloadString (Workflow.name w) |}.

Definition stopped_event (w : Workflow.Workflow) : Event :=
  {| EvName := EventNameWorkflowStopped; EvPayload := PayloadString (Workflow.name w) |}.

(** *** Worlds to run the code on *)

Definition meta (s : string) : NodeMetadata :=
  {| Description := s; Label := s; Name := s |}.

Definition no_options : WorkflowStartOptions :=
  {| Groups := []; StopWhenNodesAreDone := false |}.

Definition auto_stop : WorkflowStartOptions :=
  {| Groups := []; StopWhenNodesAreDone := true |}.

(** One node ["n"] at address 0, never started.  Token 0 belongs to a
    context of the caller that has been cancelled; the background context
    is [[]]. *)
Definition one_node : World :=
  {| heap := {[ 0 := NewBaseNode (meta "n") ]}; cancelled := {[ 0 ]}; tokens := 1;
     tasks := []; goroutines := []; trace := [] |}.

(** The node of [one_node] after a first cycle: started, then stopped. *)
Definition one_node_restartable : World :=
  BaseNode.Stop 0 (BaseNode.Start 0 [] no_options TaskFactory (ExecNode 0) one_node).

(** Done notifications for the children named by [ms], one after the
    other, on node [a]. *)
Definition ChildIsDone_calls (a : addr) (ms : list NodeMetadata) (σ : World) : World :=
  foldl (λ σ m, BaseNode.ChildIsDone a m σ) σ ms.

(** What holds of node [a] after done notifications for the names [seen],
    when it started with children [ch], token [k], scope [cx], in a world
    whose cancelled tokens were [can]. *)
Definition auto_stop_inv (a : addr) (ch : gmap string addr) (k : token) (cx : Ctx)
    (can : gset token) (seen : gset string) (σ : World) : Prop :=
  children (node σ a) = ch ∧
  StopWhenNodesAreDone (o (node σ a)) = true ∧
  dom (childrenDone (node σ a)) = seen ∩ dom ch ∧
  cancel (node σ a) = Some k ∧
  ctx (node σ a) = Some cx ∧
  cancelled σ = (if decide (dom ch ⊆ seen) then {[k]} ∪ can else can) ∧
  (¬ dom ch ⊆ seen → done (oStop (node σ a)) = false).

(** The part of a trace that follows the first occurrence of a call. *)
Fixpoint after (x : Call) (tr : list Call) : list Call :=
  match tr with
  | [] => []
  | c :: tr => if decide (c = x) then tr else after x tr
  end.

(** [y] is called after [x] has been called. *)
Definition precedes (x y : Call) (tr : list Call) : Prop := y ∈ after x tr.

(** The edges of a node are filed under the names of the nodes they lead
    to: what [AddChild] and [AddParent] establish. *)
Definition children_keyed (a : addr) (σ : World) : Prop :=
  ∀ k x, children (node σ a) !! k = Some x → Name (md (node σ x)) = k.

Definition parents_keyed (a : addr) (σ : World) : Prop :=
  ∀ k x, parents (node σ a) !! k = Some x → Name (md (node σ x)) = k.

(** Three nodes that are not connected: ["p"] at 0, ["A"] at 1, ["B"] at 2. *)
Definition three_nodes : World :=
  {| heap := {[ 0 := NewBaseNode (meta "p"); 1 := NewBaseNode (meta "A");
                2 := NewBaseNode (meta "B") ]};
     cancelled := ∅; tokens := 0; tasks := []; goroutines := []; trace := [] |}.

(** ["p"] is the parent of ["A"] and ["B"], and has been started with
    auto-stop under the background context. *)
Definition family_running : World :=
  BaseNode.Start 0 [] auto_stop TaskFactory (ExecNode 0)
    (ConnectNodes 0 2 (ConnectNodes 0 1 three_nodes)).

(** A chain ["p"] → ["A"] → ["B"] in which ["A"] has been started. *)
Definition chain_running : World :=
  BaseNode.Start 1 [] no_options TaskFactory (ExecNode 1)
    (ConnectNodes 1 2 (ConnectNodes 0 1 three_nodes)).

(** Two nodes with the same name ["x"], at 1 and 2, and a node ["p"] at 0
    that has the first as its child. *)
Definition same_name : World :=
  ConnectNodes 0 1
    {| heap := {[ 0 := NewBaseNode (meta "p"); 1 := NewBaseNode (meta "x");
                  2 := NewBaseNode (meta "x") ]};
       cancelled := ∅; tokens := 0; tasks := []; goroutines := []; trace := [] |}.

(** Two worlds with the same trace, the same tasks, and nodes that have the
    same metadata and the same edges. *)
Definition same_edges (σ σ' : World) : Prop :=
  trace σ' = trace σ ∧ tasks σ' = tasks σ ∧
  ∀ b, md (node σ' b) = md (node σ b) ∧
       children (node σ' b) = children (node σ b) ∧
       parents (node σ' b) = parents (node σ b).

(** [c] is reached from [a] along one or more child edges. *)
Inductive reach (σ : World) : addr → addr → Prop :=
| reach_child a c : c ∈ BaseNode.Children a σ → reach σ a c
| reach_step a b c : b ∈ BaseNode.Children a σ → reach σ b c → reach σ a c.

(** The nodes that the walk of [indexNodesFunc] over [l] goes through: the
    nodes of [l] and what is reached from them. *)
Definition walked (σ : World) (l : list addr) (a : addr) : Prop :=
  ∃ n, n ∈ l ∧ (a = n ∨ reach σ n a).

(** The graph has no cycle: a rank goes down along every child edge. *)
Definition ranked (rk : addr → nat) (σ : World) : Prop :=
  ∀ a c, c ∈ BaseNode.Children a σ → rk c < rk a.

(** What a walk over [l] that turns the registry [r] into [r'] has done:
    every node walked through has an entry under its name, the other names
    have the entry they had. *)
Definition indexed (σ : World) (l : list addr) (r r' : gmap string addr) : Prop :=
  (∀ k, r' !! k = r !! k
        ∨ ∃ b, walked σ l b ∧ Name (md (node σ b)) = k ∧ r' !! k = Some b) ∧
  (∀ a, walked σ l a →
        ∃ b, walked σ l b ∧ Name (md (node σ b)) = Name (md (node σ a)) ∧
             r' !! Name (md (node σ a)) = Some b).

(** Two leaves ["a"] and ["b"], not connected. *)
Definition two_leaves : World :=
  {| heap := {[ 0 := NewBaseNode (meta "a"); 1 := NewBaseNode (meta "b") ]};
     cancelled := ∅; tokens := 0; tasks := []; goroutines := []; trace := [] |}.

Definition no_closer_error : Closer := {| Close_err := None |}.
Definition closer_error : Closer := {| Close_err := Some "disk full" |}.

(** A workflow ["wf"] over the two leaves: its root is at address 2. *)
Definition wf : Workflow.Workflow :=
  (Workflow.NewWorkflow [] "wf" TaskFactory no_closer_error two_leaves).1.

Definition wf_built : World :=
  Workflow.AddChild wf 1
    (Workflow.AddChild wf 0
       (Workflow.NewWorkflow [] "wf" TaskFactory no_closer_error two_leaves).2).

(** The workflow after [IndexNodes]. *)
Definition wf_indexed : Workflow.Workflow :=
  default wf (Workflow.IndexNodes 2 wf wf_built).

(** A rank for [wf_built]: the root above the leaves. *)
Definition wf_rank (a : addr) : nat := if decide (a = 2) then 1 else 0.

(** The calls that starting nodes make: [Start] on a node, and the task
    that the node asks for. *)
Definition is_start (c : Call) : Prop :=
  match c with
  | CallStart _ _ _ | CallCreateTask _ _ => True
  | _ => False
  end.

(** The group in which [start] starts a node: the last group of the
    options that names it. *)
Definition group_of (opts : WorkflowStartOptions) (n : addr) : option nat :=
  (Workflow.index_groups opts).2 !! n.

(** The calls of the callbacks of the groups, each with the task of its
    group. *)
Definition callback_calls (ogs : list WorkflowStartGroup) (ts : list task) : list Call :=
  omap (λ '(og, t), (λ f, CallCallback f (Some t)) <$> Callback og) (zip ogs ts).

(** The calls [S] that start the nodes [members] under the task [t]. *)
Definition group_started (members : list addr) (t : task) (S : list Call) : Prop :=
  Forall is_start S ∧
  ∀ n, n ∈ members → ∃ cx, CallStart n cx (NewSubTask t) ∈ S.

(** The calls of the third loop of [start]: for every group its task,
    spawned from [t0], and then the calls that start its nodes. *)
Definition group_calls (t0 : task) (ts : list task) (Ss : list (list Call)) : list Call :=
  concat (zip_with (λ t S, CallCreateTask (NewSubTask t0) t :: S) ts Ss).

(** The calls that follow [Wait] in [start]. *)
Definition closing_calls (w : Workflow.Workflow) : list Call :=
  CallClose ::
  match Close_err (Workflow.c w) with
  | Some err =>
      [CallEmit (EventError (Wrapf err ("astiencoder: closing workflow "
                                         +:+ Workflow.name w +:+ " failed")))]
  | None => []
  end
  ++ [CallEmit (stopped_event w)].

(** The groups [gs'] are the groups [gs] with more nodes put in. *)
Definition groups_grow (gs gs' : list workflowStartGroup) : Prop :=
  Forall2 (λ g g', sg_fn g' = sg_fn g ∧ sg_t g' = sg_t g ∧ sg_ns g ⊆ sg_ns g') gs gs'.

(** [n] is named by the group at position [i] and by no later group. *)
Definition last_named (ogs : list WorkflowStartGroup) (n : addr) (i : nat) : Prop :=
  (∃ og, ogs !! i = Some og ∧ n ∈ Nodes og) ∧
  ∀ j og, i < j → ogs !! j = Some og → n ∉ Nodes og.

(** The root node of the workflow has a context: it has been started. *)
Definition root_has_context (w : Workflow.Workflow) (σ : World) : Prop :=
  is_Some (BaseNode.Context (Workflow.bn w) σ).

(** One group, with the leaf ["a"] and a callback. *)
Definition grouped : WorkflowStartOptions :=
  {| Groups := [ {| Callback := Some 7; Nodes := [0] |} ]; StopWhenNodesAreDone := false |}.

(** The workflow started with this group: the root has its task and its
    goroutine. *)
Definition wf_launched : World :=
  Workflow.StartWithOptions map_to_list_order wf_indexed grouped wf_built.

(** The same workflow with a closer that fails. *)
Definition wf_failing : Workflow.Workflow :=
  {| Workflow.bn := 2; Workflow.c := closer_error; Workflow.ctx := [];
     Workflow.name := "wf"; Workflow.ns := Workflow.ns wf_indexed;
     Workflow.t := None; Workflow.tf := TaskFactory |}.


(** The world of [wf_built] with the root in a given status. *)
Definition wf_in_status (s : Status) : World :=
  store 2 (set_status s (node wf_built 2)) wf_built.

(** The family of [family_running] after a cycle: both children have been
    marked done, which stopped ["p"], and ["p"] has been started again with
    auto-stop. *)
Definition family_restarted : World :=
  BaseNode.Start 0 [] auto_stop TaskFactory (ExecNode 0)
    (ChildIsDone_calls 0 [meta "A"; meta "B"] family_running).


(** The calls that ask the supervisor for a task. *)
Definition is_create (c : Call) : Prop :=
  match c with
  | CallCreateTask _ _ => True
  | _ => False
  end.

(** The calls [S] start the nodes that satisfy [P], all of them and no
    other node, each with the task factory [tc]. *)
Definition started_exactly (P : addr → Prop) (tc : CreateTaskFunc) (S : list Call)
    : Prop :=
  Forall is_start S ∧
  (∀ n, P n → ∃ cx, CallStart n cx tc ∈ S) ∧
  (∀ n cx tc', CallStart n cx tc' ∈ S → P n ∧ tc' = tc).

(** No group of the options names the node. *)
Definition ungrouped (opts : WorkflowStartOptions) (n : addr) : Prop :=
  ∀ og, og ∈ Groups opts → n ∉ Nodes og.

(** ** Further vocabulary *)

(** The world of [three_nodes] where ["p"] got ["B"] first and ["A"] then. *)
Definition family_reversed : World := ConnectNodes 0 1 (ConnectNodes 0 2 three_nodes).

(** The tokens of a scope have been handed out. *)
Definition scope_allocated (c : Ctx) (σ : World) : Prop :=
  ∀ k, k ∈ c → k < tokens σ.

(** The cancelled tokens have been handed out. *)
Definition cancelled_allocated (σ : World) : Prop :=
  ∀ k, k ∈ cancelled σ → k < tokens σ.

(** Done notifications for the parents named by [ms], one after the
    other, on node [a]. *)
Definition ParentIsDone_calls (a : addr) (ms : list NodeMetadata) (σ : World) : World :=
  foldl (λ σ m, BaseNode.ParentIsDone a m σ) σ ms.

(** What holds of node [a] after done notifications for the names [seen],
    when it started with parents [ch], token [k], scope [cx], in a world
    whose cancelled tokens were [can]. *)
Definition parents_auto_stop_inv (a : addr) (ch : gmap string addr) (k : token) (cx : Ctx)
    (can : gset token) (seen : gset string) (σ : World) : Prop :=
  parents (node σ a) = ch ∧
  StopWhenNodesAreDone (o (node σ a)) = true ∧
  dom (parentsDone (node σ a)) = seen ∩ dom ch ∧
  cancel (node σ a) = Some k ∧
  ctx (node σ a) = Some cx ∧
  cancelled σ = (if decide (dom ch ⊆ seen) then {[k]} ∪ can else can) ∧
  (¬ dom ch ⊆ seen → done (oStop (node σ a)) = false).

(** A done notification of either kind. *)
Inductive Notification :=
| ChildDone (m : NodeMetadata)
| ParentDone (m : NodeMetadata).

(** Done notifications of both kinds on node [a], one after the other. *)
Definition IsDone_calls (a : addr) (ns : list Notification) (σ : World) : World :=
  foldl (λ σ n, match n with
                | ChildDone m => BaseNode.ChildIsDone a m σ
                | ParentDone m => BaseNode.ParentIsDone a m σ
                end) σ ns.
(** ** Auto-stop when the parents are done *)

(** The chain of [three_nodes] in which ["B"], the child of ["A"], has been
    started with auto-stop. *)
Definition chain_child_running : World :=
  BaseNode.Start 2 [] auto_stop TaskFactory (ExecNode 2)
    (ConnectNodes 1 2 (ConnectNodes 0 1 three_nodes)).

(** Node [a] is in [σ'] as in [σ] but for its done marks, and the rest of
    the world is the same. *)
Definition only_marks (a : addr) (σ σ' : World) : Prop :=
  cancelled σ' = cancelled σ ∧ tokens σ' = tokens σ ∧ tasks σ' = tasks σ ∧
  goroutines σ' = goroutines σ ∧ trace σ' = trace σ ∧
  (∀ b, b ≠ a → node σ' b = node σ b) ∧
  cancel (node σ' a) = cancel (node σ a) ∧
  children (node σ' a) = children (node σ a) ∧
  ctx (node σ' a) = ctx (node σ a) ∧
  md (node σ' a) = md (node σ a) ∧
  o (node σ' a) = o (node σ a) ∧
  oStart (node σ' a) = oStart (node σ a) ∧
  oStop (node σ' a) = oStop (node σ a) ∧
  parents (node σ' a) = parents (node σ a) ∧
  status (node σ' a) = status (node σ a).

(** The family of [family_running] once both children are done: ["p"] has
    stopped itself. *)
Definition family_done : World :=
  ChildIsDone_calls 0 [meta "A"; meta "B"] family_running.

(** The nodes that [indexNodesFunc] goes through, in the order in which it
    files them: [None] when the walk needs a deeper stack than [fuel]. *)
Fixpoint walk (fuel : nat) (σ : World) (l : list addr) : option (list addr) :=
  match fuel with
  | 0 => None
  | S fuel =>
      foldl (λ acc n,
               ws ← acc;
               ws' ← walk fuel σ (BaseNode.Children n σ);
               Some (ws ++ n :: ws'))
            (Some []) l
  end.

(** Filing the nodes [ws] in a registry, one after the other, each under
    its name. *)
Definition file_nodes (σ : World) (r : gmap string addr) (ws : list addr)
    : gmap string addr :=
  foldl (λ r n, <[Name (md (node σ n)) := n]> r) r ws.

(** A cycle can be reached from [a]. *)
Definition cyclic_from (σ : World) (a : addr) : Prop :=
  ∃ n, (n = a ∨ reach σ a n) ∧ reach σ n n.

(** Two nodes that are each other's child: ["a"] at 0 and ["b"] at 1, under
    the root of [wf]. *)
Definition wf_cycle : World :=
  BaseNode.AddChild 1 0 (BaseNode.AddChild 0 1 wf_built).

(** Every node has its edges filed under the names of the nodes they lead
    to. *)
Definition edges_keyed (σ : World) : Prop :=
  ∀ a, children_keyed a σ ∧ parents_keyed a σ.

(** Two worlds whose nodes have the same metadata and the same edges. *)
Definition same_graph (σ σ' : World) : Prop :=
  ∀ b, md (node σ' b) = md (node σ b) ∧
       children (node σ' b) = children (node σ b) ∧
       parents (node σ' b) = parents (node σ b).

(** The goroutines and the calls of starting the nodes [l], none of them
    started before, under the context [cx] with the task factory [tc], when
    the next task is [t]. *)
Definition launched (t : task) (l : list addr) : list Goroutine :=
  imap (λ i n, {| g_node := n; g_task := t + i; g_exec := ExecNode n |}) l.

Definition launch_calls (cx : Ctx) (tc : CreateTaskFunc) (t : task) (l : list addr)
    : list Call :=
  concat (imap (λ i n, [CallStart n cx tc; CallCreateTask tc (t + i)]) l).

(** The done marks of every node of [σ] are still there in [σ']. *)
Definition marks_grow (σ σ' : World) : Prop :=
  ∀ b, dom (parentsDone (node σ b)) ⊆ dom (parentsDone (node σ' b)) ∧
       dom (childrenDone (node σ b)) ⊆ dom (childrenDone (node σ' b)).

(** The done notifications among the calls. *)
Definition is_notification (c : Call) : Prop :=
  match c with
  | CallParentIsDone _ _ | CallChildIsDone _ _ => True
  | _ => False
  end.

(** * Properties *)

#[local] Set Warnings "-clear-no-such-hyp".

(** ** The heap *)

Lemma node_store_eq a n σ : node (store a n σ) a = n.
Proof. unfold node, store. simpl. apply lookup_total_insert_eq. Qed.

Lemma node_store_ne a b n σ : a ≠ b → node (store a n σ) b = node σ b.
Proof. intros. unfold node, store. simpl. by apply lookup_total_insert_ne. Qed.

Lemma store_store a n n' σ : store a n (store a n' σ) = store a n σ.
Proof. unfold store, set_heap. simpl. f_equal. apply insert_insert_eq. Qed.

Lemma Err_cancelled c σ σ' : cancelled σ' = cancelled σ → Err c σ' = Err c σ.
Proof. unfold Err. by intros ->. Qed.

(** ** [BaseNode.Start] and [BaseNode.Stop], case by case *)

Section Start.
Variable a : addr.
Variable σ : World.
Variables (c : Ctx) (opts : WorkflowStartOptions).
Variables (tc : CreateTaskFunc) (f : BaseNodeExecFunc).

Lemma Start_started :
  done (oStart (node σ a)) = true → BaseNode.Start a c opts tc f σ = σ.
Proof. unfold BaseNode.Start, Once_Do. by intros ->. Qed.

Lemma Start_cancelled :
  done (oStart (node σ a)) = false → Err c σ = true →
  BaseNode.Start a c opts tc f σ
  = store a (set_oStart {| done := true |} (set_o opts (node σ a))) σ.
Proof.
  intros Hd He. unfold BaseNode.Start, Once_Do. rewrite Hd.
  rewrite (Err_cancelled c σ) by done. rewrite He.
  by rewrite node_store_eq, store_store.
Qed.

Lemma Start_live :
  done (oStart (node σ a)) = false → Err c σ = false →
  BaseNode.Start a c opts tc f σ
  = {| heap := <[a := started_node (tokens σ) c opts (node σ a)]> (heap σ);
       cancelled := cancelled σ;
       tokens := S (tokens σ);
       tasks := tasks σ ++ [new_task tc];
       goroutines := goroutines σ
                     ++ [{| g_node := a; g_task := length (tasks σ); g_exec := f |}];
       trace := trace σ ++ [CallCreateTask tc (length (tasks σ))] |}.
Proof.
  intros Hd He. unfold BaseNode.Start, Once_Do. rewrite Hd.
  rewrite (Err_cancelled c σ) by done. rewrite He.
  unfold create_task, WithCancel, spawn, log, store, node, set_heap, set_tasks,
    set_tokens, set_goroutines, set_trace. simpl.
  rewrite !lookup_total_insert_eq, !insert_insert_eq. done.
Qed.

Lemma Stop_stopped :
  done (oStop (node σ a)) = true → BaseNode.Stop a σ = σ.
Proof. unfold BaseNode.Stop, Once_Do. by intros ->. Qed.

Lemma Stop_fires :
  done (oStop (node σ a)) = false →
  BaseNode.Stop a σ
  = {| heap := <[a := set_oStop {| done := true |}
                        (set_oStart {| done := false |} (node σ a))]> (heap σ);
       cancelled := match cancel (node σ a) with
                    | Some k => {[k]} ∪ cancelled σ
                    | None => cancelled σ
                    end;
       tokens := tokens σ; tasks := tasks σ; goroutines := goroutines σ;
       trace := trace σ |}.
Proof.
  intros Hd. unfold BaseNode.Stop, Once_Do. rewrite Hd.
  destruct (cancel (node σ a)) eqn:Hc;
    unfold call_cancel, store, node, set_heap, set_cancelled in *; simpl;
    rewrite !lookup_total_insert_eq, !insert_insert_eq; done.
Qed.

End Start.

Lemma Start_calls_started a calls σ :
  done (oStart (node σ a)) = true → Start_calls a calls σ = σ.
Proof.
  unfold Start_calls.
  induction calls as [|[[[c opts] tc] f] calls IH]; intros Hd; [done|].
  simpl. rewrite Start_started by done. by apply IH.
Qed.

(** ** C1: one exec per activation cycle *)

(** C1.  [BaseNode.Start] on a node whose start guard has fired changes
    nothing.  On a node whose guard has not fired, a first call followed by
    any further calls of [Start] (with any arguments) creates exactly one
    task and launches exactly one goroutine for the exec function when the
    scope of the first call is live, and creates no task and launches
    nothing when that scope is already cancelled. *)
Theorem Start_idempotent (a : addr) (σ : World) (c : Ctx)
    (opts : WorkflowStartOptions) (tc : CreateTaskFunc) (f : BaseNodeExecFunc)
    (more : list StartArgs) :
  let σ' := Start_calls a more (BaseNode.Start a c opts tc f σ) in
  (done (oStart (node σ a)) = true → BaseNode.Start a c opts tc f σ = σ) ∧
  (done (oStart (node σ a)) = false → Err c σ = false →
     tasks σ' = tasks σ ++ [new_task tc] ∧
     goroutines σ'
     = goroutines σ ++ [{| g_node := a; g_task := length (tasks σ); g_exec := f |}] ∧
     trace σ' = trace σ ++ [CallCreateTask tc (length (tasks σ))]) ∧
  (done (oStart (node σ a)) = false → Err c σ = true →
     tasks σ' = tasks σ ∧ goroutines σ' = goroutines σ ∧ trace σ' = trace σ).
Proof.
  intros σ'. split; [apply Start_started|]. split; intros Hd He; subst σ'.
  - rewrite Start_calls_started; rewrite Start_live by done; [done|].
    unfold node. simpl. by rewrite lookup_total_insert_eq.
  - rewrite Start_calls_started; rewrite Start_cancelled by done; [done|].
    by rewrite node_store_eq.
Qed.

Lemma Start_idempotent_witness :
  let started := BaseNode.Start 0 [] no_options TaskFactory (ExecNode 0) one_node in
  BaseNode.Start 0 [] no_options TaskFactory (ExecNode 1) started = started ∧
  goroutines (Start_calls 0 [([], auto_stop, TaskFactory, ExecNode 1)] started)
  = [{| g_node := 0; g_task := 0; g_exec := ExecNode 0 |}] ∧
  goroutines (Start_calls 0 [([], auto_stop, TaskFactory, ExecNode 1)]
                (BaseNode.Start 0 [0] no_options TaskFactory (ExecNode 0) one_node))
  = [].
Proof.
  intros started. split; [|split].
  - apply (Start_idempotent 0 started [] no_options TaskFactory (ExecNode 1) []).
    reflexivity.
  - apply (Start_idempotent 0 one_node [] no_options TaskFactory (ExecNode 0)
             [([], auto_stop, TaskFactory, ExecNode 1)]); reflexivity.
  - apply (Start_idempotent 0 one_node [0] no_options TaskFactory (ExecNode 0)
             [([], auto_stop, TaskFactory, ExecNode 1)]); reflexivity.
Defined.

(** ** C10: a start under a cancelled scope *)

(** C10, as the code has it.  A [Start] under a cancelled scope on a node
    whose start guard has not fired creates no task and launches nothing,
    fires the start guard and stores the options; every later [Start] is a
    no-op.  When the stop guard of the node has not fired either, [Stop]
    then resets the start guard and a [Start] under a live scope launches
    the exec function. *)
Theorem Start_cancelled_scope (a : addr) (σ : World) (c : Ctx)
    (opts : WorkflowStartOptions) (tc : CreateTaskFunc) (f : BaseNodeExecFunc) :
  done (oStart (node σ a)) = false → Err c σ = true →
  let σ1 := BaseNode.Start a c opts tc f σ in
  (tasks σ1 = tasks σ ∧ goroutines σ1 = goroutines σ ∧ trace σ1 = trace σ) ∧
  (done (oStart (node σ1 a)) = true ∧ o (node σ1 a) = opts) ∧
  (∀ calls, Start_calls a calls σ1 = σ1) ∧
  (done (oStop (node σ a)) = false →
   let σ2 := BaseNode.Stop a σ1 in
   done (oStart (node σ2 a)) = false ∧
   ∀ c' opts' tc' f', Err c' σ2 = false →
     goroutines (BaseNode.Start a c' opts' tc' f' σ2)
     = goroutines σ2 ++ [{| g_node := a; g_task := length (tasks σ2); g_exec := f' |}]).
Proof.
  intros Hd He σ1. subst σ1. rewrite Start_cancelled by done.
  split; [done|]. split; [by rewrite node_store_eq|].
  split; [intros; apply Start_calls_started; by rewrite node_store_eq|].
  intros Hs σ2.
  assert (Hd2 : done (oStart (node σ2 a)) = false).
  { subst σ2. rewrite Stop_fires by (by rewrite node_store_eq).
    unfold node. simpl. by rewrite lookup_total_insert_eq. }
  split; [done|]. intros. by rewrite Start_live.
Qed.

Lemma Start_cancelled_scope_witness :
  let σ1 := BaseNode.Start 0 [0] auto_stop TaskFactory (ExecNode 0) one_node in
  (tasks σ1 = [] ∧ goroutines σ1 = [] ∧ trace σ1 = []) ∧
  o (node σ1 0) = auto_stop ∧
  goroutines (BaseNode.Start 0 [] no_options TaskFactory (ExecNode 0)
                (BaseNode.Stop 0 σ1))
  = [{| g_node := 0; g_task := 0; g_exec := ExecNode 0 |}].
Proof.
  intros σ1.
  destruct (Start_cancelled_scope 0 one_node [0] auto_stop TaskFactory (ExecNode 0)
              eq_refl eq_refl) as (H1 & [_ H2] & _ & H4).
  split; [exact H1|]. split; [exact H2|].
  destruct (H4 eq_refl) as [_ H5].
  exact (H5 [] no_options TaskFactory (ExecNode 0) eq_refl).
Defined.

(** C10 as stated fails on a node that has been through one cycle: its
    stop guard has fired, the [Start] under a cancelled scope returns before
    the stop guard is reset, and the [Stop] that follows is a no-op that
    leaves the start guard fired. *)
Lemma Start_cancelled_scope_counterexample :
  let σ := one_node_restartable in
  let σ1 := BaseNode.Start 0 [0] no_options TaskFactory (ExecNode 0) σ in
  let σ2 := BaseNode.Stop 0 σ1 in
  (done (oStart (node σ 0)) = false ∧ Err [0] σ = true ∧ Err [] σ2 = false) ∧
  ¬ (done (oStart (node σ2 0)) = false) ∧
  ¬ (goroutines (BaseNode.Start 0 [] no_options TaskFactory (ExecNode 0) σ2)
     ≠ goroutines σ2).
Proof. vm_compute. split; [done|]. split; [done|]. intros H. by apply H. Qed.

(** ** C7: the registry lookup *)

(** C7.  [Workflow.Node] returns the registered node and no error exactly
    when the name is in the registry, and no node and [ErrNodeNotFound]
    exactly when it is not.  The lookup is a function of the workflow: it
    has no other result than these two, so it leaves the registry as it
    is. *)
Theorem Node_lookup (w : Workflow.Workflow) (nm : string) :
  (∀ n, Workflow.ns w !! nm = Some n ↔ Workflow.Node w nm = (Some n, None)) ∧
  (Workflow.ns w !! nm = None ↔ Workflow.Node w nm = (None, Some ErrNodeNotFound)) ∧
  (is_Some (Workflow.ns w !! nm) ↔ (Workflow.Node w nm).2 = None) ∧
  (Workflow.ns w !! nm = None ↔ (Workflow.Node w nm).2 = Some ErrNodeNotFound).
Proof.
  unfold Workflow.Node. destruct (Workflow.ns w !! nm) as [n|] eqn:E; simpl.
  - repeat split; try done; try (intros; simplify_eq; done); eauto.
  - repeat split; try done; intros [? ?]; done.
Qed.

Lemma Node_lookup_witness :
  Workflow.Node wf_indexed "a" = (Some 0, None) ∧
  Workflow.Node wf_indexed "b" = (Some 1, None) ∧
  Workflow.Node wf_indexed "z" = (None, Some ErrNodeNotFound).
Proof.
  split; [|split].
  - apply (Node_lookup wf_indexed "a"). reflexivity.
  - apply (Node_lookup wf_indexed "b"). reflexivity.
  - apply (Node_lookup wf_indexed "z"). reflexivity.
Defined.

(** ** C5: pause and continue *)

Lemma emitted_log c σ :
  emitted (log c σ)
  = emitted σ ++ match c with CallEmit e => [e] | _ => [] end.
Proof.
  unfold emitted, log. simpl. rewrite omap_app. f_equal.
  destruct c; simpl; done.
Qed.

Lemma foldl_log (g : addr → Call) (l : list addr) σ :
  foldl (λ σ n, log (g n) σ) σ l = set_trace (trace σ ++ map g l) σ.
Proof.
  revert σ. induction l as [|n l IH]; intros σ; simpl.
  - rewrite app_nil_r. by destruct σ.
  - rewrite IH. unfold log, set_trace. simpl. by rewrite <- app_assoc.
Qed.

Section PauseContinue.
Variable order : RangeOrder.
Variable w : Workflow.Workflow.
Variable σ : World.

Lemma Pause_not_running :
  Workflow.Status w σ ≠ StatusRunning → Workflow.Pause order w σ = σ.
Proof. intros H. unfold Workflow.Pause. by rewrite decide_True. Qed.

Lemma Pause_running :
  Workflow.Status w σ = StatusRunning →
  Workflow.Status w (Workflow.Pause order w σ) = StatusPaused ∧
  trace (Workflow.Pause order w σ)
  = trace σ ++ map CallPause (Workflow.nodes order w) ++ [CallEmit (paused_event w)].
Proof.
  intros H. unfold Workflow.Pause. rewrite decide_False by (intros E; by apply E).
  rewrite foldl_log. split.
  - unfold Workflow.Status, BaseNode.Status, Workflow.Emit, log, node, store.
    simpl. by rewrite lookup_total_insert_eq.
  - unfold Workflow.Emit, log. simpl. by rewrite <- app_assoc.
Qed.

Lemma Continue_not_paused :
  Workflow.Status w σ ≠ StatusPaused → Workflow.Continue order w σ = σ.
Proof. intros H. unfold Workflow.Continue. by rewrite decide_True. Qed.

Lemma Continue_paused :
  Workflow.Status w σ = StatusPaused →
  Workflow.Status w (Workflow.Continue order w σ) = StatusRunning ∧
  trace (Workflow.Continue order w σ)
  = trace σ ++ map CallContinue (Workflow.nodes order w) ++ [CallEmit (started_event w)].
Proof.
  intros H. unfold Workflow.Continue. rewrite decide_False by (intros E; by apply E).
  rewrite foldl_log. split.
  - unfold Workflow.Status, BaseNode.Status, Workflow.Emit, log, node, store.
    simpl. by rewrite lookup_total_insert_eq.
  - unfold Workflow.Emit, log. simpl. by rewrite <- app_assoc.
Qed.

End PauseContinue.

Lemma emitted_calls (g : addr → Call) (l : list addr) (e : Event) tr :
  (∀ n, match g n with CallEmit _ => False | _ => True end) →
  omap (λ c, match c with CallEmit e => Some e | _ => None end)
       (tr ++ map g l ++ [CallEmit e])
  = omap (λ c, match c with CallEmit e => Some e | _ => None end) tr ++ [e].
Proof.
  intros Hg. rewrite !omap_app. f_equal.
  replace (omap _ (map g l)) with (@nil Event); [done|].
  induction l as [|n l IH]; [done|]. simpl.
  specialize (Hg n). destruct (g n); done.
Qed.

(** C5.  [Pause] on a workflow whose status is not [StatusRunning] changes
    nothing: the status stays and nothing is emitted.  On a running
    workflow it sets the status to [StatusPaused] and the emitter receives
    exactly one more event, the paused event.  [Continue] on a workflow
    whose status is not [StatusPaused] changes nothing; on a paused one it
    sets the status to [StatusRunning] and the emitter receives exactly one
    more event, the started event. *)
Theorem Pause_Continue_state_machine (order : RangeOrder) (w : Workflow.Workflow)
    (σ : World) :
  (Workflow.Status w σ ≠ StatusRunning → Workflow.Pause order w σ = σ) ∧
  (Workflow.Status w σ = StatusRunning →
     Workflow.Status w (Workflow.Pause order w σ) = StatusPaused ∧
     emitted (Workflow.Pause order w σ) = emitted σ ++ [paused_event w]) ∧
  (Workflow.Status w σ ≠ StatusPaused → Workflow.Continue order w σ = σ) ∧
  (Workflow.Status w σ = StatusPaused →
     Workflow.Status w (Workflow.Continue order w σ) = StatusRunning ∧
     emitted (Workflow.Continue order w σ) = emitted σ ++ [started_event w]).
Proof.
  split; [apply Pause_not_running|].
  split; [|split; [apply Continue_not_paused|]]; intros H.
  - destruct (Pause_running order w σ H) as [Hs Ht]. split; [done|].
    unfold emitted. rewrite Ht. by apply emitted_calls.
  - destruct (Continue_paused order w σ H) as [Hs Ht]. split; [done|].
    unfold emitted. rewrite Ht. by apply emitted_calls.
Qed.

Lemma Pause_Continue_state_machine_witness :
  Workflow.Pause map_to_list_order wf_indexed (wf_in_status StatusStopped)
  = wf_in_status StatusStopped ∧
  (Workflow.Status wf_indexed
     (Workflow.Pause map_to_list_order wf_indexed (wf_in_status StatusRunning))
   = StatusPaused ∧
   emitted (Workflow.Pause map_to_list_order wf_indexed (wf_in_status StatusRunning))
   = emitted (wf_in_status StatusRunning) ++ [paused_event wf_indexed]) ∧
  Workflow.Continue map_to_list_order wf_indexed (wf_in_status StatusRunning)
  = wf_in_status StatusRunning ∧
  (Workflow.Status wf_indexed
     (Workflow.Continue map_to_list_order wf_indexed (wf_in_status StatusPaused))
   = StatusRunning ∧
   emitted (Workflow.Continue map_to_list_order wf_indexed (wf_in_status StatusPaused))
   = emitted (wf_in_status StatusPaused) ++ [started_event wf_indexed]).
Proof.
  split; [|split; [|split]].
  - apply (Pause_Continue_state_machine map_to_list_order wf_indexed
             (wf_in_status StatusStopped)).
    vm_compute. discriminate.
  - apply (Pause_Continue_state_machine map_to_list_order wf_indexed
             (wf_in_status StatusRunning)).
    reflexivity.
  - apply (Pause_Continue_state_machine map_to_list_order wf_indexed
             (wf_in_status StatusRunning)).
    vm_compute. discriminate.
  - apply (Pause_Continue_state_machine map_to_list_order wf_indexed
             (wf_in_status StatusPaused)).
    reflexivity.
Defined.

(** ** C3: auto-stop when the children are done *)

Lemma ChildIsDone_unknown a m σ :
  children (node σ a) !! Name m = None → BaseNode.ChildIsDone a m σ = σ.
Proof. unfold BaseNode.ChildIsDone. by intros ->. Qed.

Lemma ParentIsDone_unknown a m σ :
  parents (node σ a) !! Name m = None → BaseNode.ParentIsDone a m σ = σ.
Proof. unfold BaseNode.ParentIsDone. by intros ->. Qed.

Lemma Stop_node a σ :
  node (BaseNode.Stop a σ) a
  = if done (oStop (node σ a)) then node σ a
    else set_oStop {| done := true |} (set_oStart {| done := false |} (node σ a)).
Proof.
  destruct (done (oStop (node σ a))) eqn:E.
  - by rewrite Stop_stopped.
  - rewrite Stop_fires by done. unfold node. simpl. by rewrite lookup_total_insert_eq.
Qed.

Lemma Stop_cancelled a σ :
  cancelled (BaseNode.Stop a σ)
  = if done (oStop (node σ a)) then cancelled σ
    else match cancel (node σ a) with
         | Some k => {[k]} ∪ cancelled σ
         | None => cancelled σ
         end.
Proof.
  destruct (done (oStop (node σ a))) eqn:E.
  - by rewrite Stop_stopped.
  - by rewrite Stop_fires.
Qed.

Section AutoStop.
Variables (a : addr) (ch : gmap string addr) (k : token) (cx : Ctx).
Variable can : gset token.

Lemma auto_stop_inv_step seen σ m :
  auto_stop_inv a ch k cx can seen σ →
  auto_stop_inv a ch k cx can ({[Name m]} ∪ seen) (BaseNode.ChildIsDone a m σ).
Proof.
  intros (Hch & Ho & Hd & Hc & Hx & Hcan & Hs).
  destruct (ch !! Name m) as [c|] eqn:E.
  - (* a known child *)
    unfold BaseNode.ChildIsDone. rewrite Hch, E. cbn zeta.
    set (n' := set_childrenDone _ _).
    assert (Hd' : dom (childrenDone n') = ({[Name m]} ∪ seen) ∩ dom ch).
    { subst n'. simpl. rewrite dom_insert_L, Hd.
      apply elem_of_dom_2 in E. set_solver. }
    assert (Hsz : size (childrenDone n') = size (children n')
                  ↔ dom ch ⊆ {[Name m]} ∪ seen).
    { rewrite <- !size_dom, Hd'. subst n'. simpl. rewrite Hch. split.
      - intros Hsz.
        assert (({[Name m]} ∪ seen) ∩ dom ch = dom ch) as <-; [|set_solver].
        apply set_subseteq_size_eq; [set_solver|lia].
      - intros Hsub. f_equal. set_solver. }
    replace (StopWhenNodesAreDone (o n')) with true by (subst n'; simpl; done).
    simpl andb. case_bool_decide as Hb.
    + (* every child is done: Stop *)
      apply Hsz in Hb. unfold auto_stop_inv.
      rewrite Stop_node, Stop_cancelled, !node_store_eq.
      rewrite (decide_True _ _ Hb).
      assert (Hcan' : cancelled (store a n' σ) = cancelled σ) by done.
      rewrite Hcan', Hcan.
      destruct (done (oStop n')) eqn:Hst.
      * repeat split; try (subst n'; simpl; done).
        destruct (decide (dom ch ⊆ seen)) as [|Hn]; [done|].
        apply Hs in Hn. subst n'. simpl in Hst. congruence.
      * replace (cancel n') with (Some k) by (subst n'; simpl; done).
        repeat split; try (subst n'; simpl; done).
        destruct (decide (dom ch ⊆ seen)); set_solver.
    + assert (Hn : ¬ dom ch ⊆ {[Name m]} ∪ seen) by (intros ?; by apply Hb, Hsz).
      unfold auto_stop_inv. rewrite node_store_eq.
      rewrite (decide_False _ _ Hn).
      assert (Hn0 : ¬ dom ch ⊆ seen) by set_solver.
      repeat split; try (subst n'; simpl; done).
      * change (cancelled (store a n' σ)) with (cancelled σ).
        by rewrite Hcan, (decide_False _ _ Hn0).
      * intros _. subst n'. simpl. by apply Hs.
  - (* an unknown name *)
    rewrite ChildIsDone_unknown by (by rewrite Hch).
    apply not_elem_of_dom_2 in E.
    assert (Heq : dom ch ⊆ {[Name m]} ∪ seen ↔ dom ch ⊆ seen) by set_solver.
    unfold auto_stop_inv. repeat split; try done.
    + rewrite Hd. set_solver.
    + rewrite Hcan. destruct (decide (dom ch ⊆ seen)) as [H1|H1];
        [rewrite decide_True|rewrite decide_False]; try done; by rewrite Heq.
    + intros H1. apply Hs. by rewrite <- Heq.
Qed.

Lemma auto_stop_inv_calls ms seen σ :
  auto_stop_inv a ch k cx can seen σ →
  auto_stop_inv a ch k cx can (list_to_set (Name <$> ms) ∪ seen)
                (ChildIsDone_calls a ms σ).
Proof.
  unfold ChildIsDone_calls. revert seen σ.
  induction ms as [|m ms IH]; intros seen σ H; simpl.
  - by rewrite (left_id_L ∅ (∪)).
  - apply (auto_stop_inv_step _ _ m), IH in H.
    by rewrite (comm_L (∪) {[Name m]}), <- (assoc_L (∪)).
Qed.

Lemma auto_stop_inv_IsStopped seen σ :
  k ∈ cx → existsb (λ k, bool_decide (k ∈ can)) cx = false →
  auto_stop_inv a ch k cx can seen σ →
  BaseNode.IsStopped a σ = true ↔ dom ch ⊆ seen.
Proof.
  intros Hk Hlive (_ & _ & _ & _ & Hx & Hcan & _).
  unfold BaseNode.IsStopped, BaseNode.Context. rewrite Hx. unfold Err. rewrite Hcan.
  destruct (decide (dom ch ⊆ seen)) as [H|H].
  - split; [done|]. intros _. apply existsb_exists. exists k.
    split; [by apply list_elem_of_In|]. apply bool_decide_eq_true. set_solver.
  - rewrite Hlive. split; [done|]. intros; done.
Qed.

End AutoStop.

(** C3, as the code has it.  A node with auto-stop, children [{A, B}], no
    child marked done yet, and a live scope [cx] of its own (token [k]): a
    done notification under a name that is neither [A] nor [B] changes
    nothing, whatever has been notified before; after done notifications for
    the names of [ms] the node is stopped exactly when [A] and [B] are both
    among them; any number of notifications for [A] alone leaves it
    running. *)
Theorem ChildIsDone_auto_stop (a : addr) (σ : World) (A B : string) (k : token)
    (cx : Ctx) :
  A ≠ B →
  dom (children (node σ a)) = {[A; B]} →
  StopWhenNodesAreDone (o (node σ a)) = true →
  childrenDone (node σ a) = ∅ →
  done (oStop (node σ a)) = false →
  cancel (node σ a) = Some k →
  ctx (node σ a) = Some cx →
  k ∈ cx →
  BaseNode.IsStopped a σ = false →
  (∀ ms m, Name m ≠ A → Name m ≠ B →
     BaseNode.ChildIsDone a m (ChildIsDone_calls a ms σ) = ChildIsDone_calls a ms σ) ∧
  (∀ ms, BaseNode.IsStopped a (ChildIsDone_calls a ms σ) = true
         ↔ A ∈ Name <$> ms ∧ B ∈ Name <$> ms) ∧
  (∀ n m, Name m = A →
     BaseNode.IsStopped a (ChildIsDone_calls a (replicate n m) σ) = false).
Proof.
  intros HAB Hdom Ho Hd Hs Hc Hx Hk Hlive.
  assert (Hlive' : existsb (λ k, bool_decide (k ∈ cancelled σ)) cx = false).
  { unfold BaseNode.IsStopped, BaseNode.Context in Hlive. by rewrite Hx in Hlive. }
  assert (Hinv : auto_stop_inv a (children (node σ a)) k cx (cancelled σ) ∅ σ).
  { unfold auto_stop_inv. rewrite Hd, Hdom, dom_empty_L.
    repeat split; try done; [set_solver|].
    rewrite decide_False; [done|]. set_solver. }
  assert (Hall : ∀ ms, auto_stop_inv a (children (node σ a)) k cx (cancelled σ)
                         (list_to_set (Name <$> ms)) (ChildIsDone_calls a ms σ)).
  { intros ms. apply (auto_stop_inv_calls _ _ _ _ _ ms) in Hinv.
    by rewrite (right_id_L ∅ (∪)) in Hinv. }
  assert (Hiff : ∀ ms, BaseNode.IsStopped a (ChildIsDone_calls a ms σ) = true
                       ↔ A ∈ Name <$> ms ∧ B ∈ Name <$> ms).
  { intros ms. rewrite (auto_stop_inv_IsStopped _ _ _ _ _ _ _ Hk Hlive' (Hall ms)).
    rewrite Hdom. set_solver. }
  split; [|split; [done|]].
  - intros ms m HA HB. apply ChildIsDone_unknown.
    destruct (Hall ms) as (-> & _). apply not_elem_of_dom. rewrite Hdom. set_solver.
  - intros n m Hm. apply not_true_is_false. rewrite Hiff. intros [_ HBin].
    apply list_elem_of_fmap in HBin as (m' & -> & Hin).
    apply elem_of_replicate in Hin as [-> _]. congruence.
Qed.

Lemma ChildIsDone_auto_stop_witness :
  BaseNode.IsStopped 0
    (ChildIsDone_calls 0 [meta "A"; meta "z"; meta "A"; meta "B"] family_running) = true ∧
  BaseNode.IsStopped 0
    (ChildIsDone_calls 0 (replicate 3 (meta "A")) family_running) = false ∧
  BaseNode.ChildIsDone 0 (meta "z") family_running = family_running.
Proof.
  assert (H : "A" ≠ "B") by done.
  destruct (ChildIsDone_auto_stop 0 family_running "A" "B" 0 [0] H) as (H1 & H2 & H3);
    try reflexivity.
  - by left.
  - split; [|split].
    + apply H2. split; vm_compute; [left|do 3 right; left].
    + by apply H3.
    + by apply (H1 []).
Defined.

(** C3 as stated fails on a node that already carries done marks, and
    nothing resets them: ["p"], restarted with auto-stop after ["A"] and
    ["B"] were marked done, has the children [{A, B}] and is running, and
    one notification for ["A"] alone stops it. *)
Lemma ChildIsDone_auto_stop_counterexample :
  dom (children (node family_restarted 0)) = {["A"; "B"]} ∧
  StopWhenNodesAreDone (o (node family_restarted 0)) = true ∧
  BaseNode.IsStopped 0 family_restarted = false ∧
  BaseNode.IsStopped 0
    (ChildIsDone_calls 0 (replicate 1 (meta "A")) family_restarted) = true.
Proof. split_and!; by vm_compute. Qed.

(** ** C9: connecting two nodes *)

(** ** The edge maps *)

Lemma sorted_keys_elem (m : gmap string addr) k :
  k ∈ sorted_keys m ↔ is_Some (m !! k).
Proof.
  unfold sorted_keys. rewrite merge_sort_Permutation.
  rewrite list_elem_of_fmap. split.
  - intros ([k' x] & -> & H). apply elem_of_map_to_list in H. eauto.
  - intros [x H]. exists (k, x). split; [done|]. by apply elem_of_map_to_list.
Qed.

Lemma sorted_keys_NoDup (m : gmap string addr) : NoDup (sorted_keys m).
Proof.
  unfold sorted_keys. rewrite merge_sort_Permutation. apply NoDup_fst_map_to_list.
Qed.


Lemma NoDup_edges (m : gmap string addr) :
  (∀ k1 k2 x, m !! k1 = Some x → m !! k2 = Some x → k1 = k2) →
  NoDup (omap (λ k, m !! k) (sorted_keys m)).
Proof.
  intros Hinj. generalize (sorted_keys_NoDup m).
  induction (sorted_keys m) as [|k l IH]; intros Hnd; simpl; [constructor|].
  apply NoDup_cons in Hnd as [Hk Hnd].
  destruct (m !! k) as [x|] eqn:E; [|by apply IH].
  constructor; [|by apply IH].
  rewrite list_elem_of_omap. intros (k' & Hk' & E').
  by rewrite (Hinj _ _ _ E E') in Hk.
Qed.



(** ** [AddChild], [AddParent] and [ConnectNodes] *)

Section Edges.
Variables (a i : addr) (σ : World).

Lemma AddChild_md b : md (node (BaseNode.AddChild a i σ) b) = md (node σ b).
Proof.
  unfold BaseNode.AddChild. destruct (children (node σ a) !! _); [done|].
  destruct (decide (a = b)) as [->|Hne];
    [by rewrite node_store_eq|by rewrite node_store_ne].
Qed.

Lemma AddChild_parents b :
  parents (node (BaseNode.AddChild a i σ) b) = parents (node σ b).
Proof.
  unfold BaseNode.AddChild. destruct (children (node σ a) !! _); [done|].
  destruct (decide (a = b)) as [->|Hne];
    [by rewrite node_store_eq|by rewrite node_store_ne].
Qed.

Lemma AddChild_children_other b :
  a ≠ b → children (node (BaseNode.AddChild a i σ) b) = children (node σ b).
Proof.
  intros Hne. unfold BaseNode.AddChild. destruct (children (node σ a) !! _); [done|].
  by rewrite node_store_ne.
Qed.

Lemma AddChild_children :
  children (node (BaseNode.AddChild a i σ) a)
  = match children (node σ a) !! Name (md (node σ i)) with
    | Some _ => children (node σ a)
    | None => <[Name (md (node σ i)) := i]> (children (node σ a))
    end.
Proof.
  unfold BaseNode.AddChild, BaseNode.Metadata.
  destruct (children (node σ a) !! _); [done|]. by rewrite node_store_eq.
Qed.

Lemma AddParent_md b : md (node (BaseNode.AddParent a i σ) b) = md (node σ b).
Proof.
  unfold BaseNode.AddParent. destruct (parents (node σ a) !! _); [done|].
  destruct (decide (a = b)) as [->|Hne];
    [by rewrite node_store_eq|by rewrite node_store_ne].
Qed.

Lemma AddParent_children b :
  children (node (BaseNode.AddParent a i σ) b) = children (node σ b).
Proof.
  unfold BaseNode.AddParent. destruct (parents (node σ a) !! _); [done|].
  destruct (decide (a = b)) as [->|Hne];
    [by rewrite node_store_eq|by rewrite node_store_ne].
Qed.

Lemma AddParent_parents :
  parents (node (BaseNode.AddParent a i σ) a)
  = match parents (node σ a) !! Name (md (node σ i)) with
    | Some _ => parents (node σ a)
    | None => <[Name (md (node σ i)) := i]> (parents (node σ a))
    end.
Proof.
  unfold BaseNode.AddParent, BaseNode.Metadata.
  destruct (parents (node σ a) !! _); [done|]. by rewrite node_store_eq.
Qed.





End Edges.












(** Outside the invariant: when [p] already has another child under the
    name of [c], [AddChild] returns at its guard and [AddParent] goes
    through. *)
Remark ConnectNodes_name_clash :
  let σ1 := ConnectNodes 0 2 same_name in
  ¬ (2 ∈ BaseNode.Children 0 σ1) ∧ BaseNode.Children 0 σ1 = [1] ∧
  BaseNode.Parents 2 σ1 = [0].
Proof. vm_compute. split; [|done]. intros H. by apply list_elem_of_singleton in H. Qed.

(** ** C2: what the goroutine does when the exec function has ended *)

Lemma same_edges_refl σ : same_edges σ σ.
Proof. by repeat split. Qed.

Lemma same_edges_trans σ1 σ2 σ3 :
  same_edges σ1 σ2 → same_edges σ2 σ3 → same_edges σ1 σ3.
Proof.
  intros (Ht & Hk & Hn) (Ht' & Hk' & Hn'). split; [congruence|]. split; [congruence|].
  intros b. destruct (Hn b) as (? & ? & ?), (Hn' b) as (? & ? & ?).
  repeat split; congruence.
Qed.

Lemma same_edges_store a n σ :
  md n = md (node σ a) → children n = children (node σ a) →
  parents n = parents (node σ a) → same_edges σ (store a n σ).
Proof.
  intros Hm Hc Hp. split; [done|]. split; [done|]. intros b.
  destruct (decide (a = b)) as [->|Hne];
    [by rewrite node_store_eq|by rewrite node_store_ne].
Qed.

Lemma Stop_same_edges a σ : same_edges σ (BaseNode.Stop a σ).
Proof.
  destruct (done (oStop (node σ a))) eqn:E.
  - rewrite Stop_stopped by done. apply same_edges_refl.
  - rewrite Stop_fires by done. split; [done|]. split; [done|]. intros b.
    unfold node. simpl. destruct (decide (a = b)) as [->|Hne].
    + by rewrite lookup_total_insert_eq.
    + by rewrite lookup_total_insert_ne.
Qed.

Lemma ParentIsDone_same_edges a m σ : same_edges σ (BaseNode.ParentIsDone a m σ).
Proof.
  unfold BaseNode.ParentIsDone. destruct (parents (node σ a) !! Name m);
    [|apply same_edges_refl].
  cbn zeta. set (σ1 := store a _ σ).
  assert (H1 : same_edges σ σ1) by (by apply same_edges_store).
  destruct (_ && _); [|done].
  eapply same_edges_trans; [exact H1|apply Stop_same_edges].
Qed.

Lemma ChildIsDone_same_edges a m σ : same_edges σ (BaseNode.ChildIsDone a m σ).
Proof.
  unfold BaseNode.ChildIsDone. destruct (children (node σ a) !! Name m);
    [|apply same_edges_refl].
  cbn zeta. set (σ1 := store a _ σ).
  assert (H1 : same_edges σ σ1) by (by apply same_edges_store).
  destruct (_ && _); [|done].
  eapply same_edges_trans; [exact H1|apply Stop_same_edges].
Qed.

(** A loop of notifications: the calls are in the trace in the order of the
    list, and the graph is as it was. *)
Lemma notify_loop (call : addr → NodeMetadata → Call)
    (method : addr → NodeMetadata → World → World) a l σ :
  (∀ c m σ, same_edges σ (method c m σ)) →
  let σ' := foldl (λ σ c, method c (md (node σ a)) (log (call c (md (node σ a))) σ))
                  σ l in
  trace σ' = trace σ ++ map (λ c, call c (md (node σ a))) l ∧
  tasks σ' = tasks σ ∧
  ∀ b, md (node σ' b) = md (node σ b) ∧
       children (node σ' b) = children (node σ b) ∧
       parents (node σ' b) = parents (node σ b).
Proof.
  intros Hm. revert σ. induction l as [|c l IH]; intros σ; simpl.
  - by rewrite app_nil_r.
  - set (σ1 := method c _ _).
    destruct (Hm c (md (node σ a)) (log (call c (md (node σ a))) σ))
      as (Ht & Hk & Hn). fold σ1 in Ht, Hk, Hn.
    change (trace σ1 = trace σ ++ [call c (md (node σ a))]) in Ht.
    change (tasks σ1 = tasks σ) in Hk.
    change (∀ b, md (node σ1 b) = md (node σ b) ∧
                 children (node σ1 b) = children (node σ b) ∧
                 parents (node σ1 b) = parents (node σ b)) in Hn.
    destruct (IH σ1) as (Ht' & Hk' & Hn').
    assert (Hmd : md (node σ1 a) = md (node σ a)) by apply Hn.
    rewrite Hmd in Ht'. split; [|split].
    + rewrite Ht', Ht. simpl. by rewrite <- app_assoc.
    + by rewrite Hk', Hk.
    + intros b. destruct (Hn b) as (? & ? & ?), (Hn' b) as (? & ? & ?).
      repeat split; congruence.
Qed.

Lemma notify_trace a σ :
  trace (BaseNode.notify a σ)
  = trace σ
    ++ map (λ c, CallParentIsDone c (md (node σ a))) (BaseNode.Children a σ)
    ++ map (λ p, CallChildIsDone p (md (node σ a))) (BaseNode.Parents a σ) ∧
  tasks (BaseNode.notify a σ) = tasks σ.
Proof.
  unfold BaseNode.notify.
  destruct (notify_loop CallParentIsDone BaseNode.ParentIsDone a
              (BaseNode.Children a σ) σ ParentIsDone_same_edges) as (Ht & Hk & Hn).
  set (σ1 := foldl _ σ (BaseNode.Children a σ)) in *.
  assert (Hp : BaseNode.Parents a σ1 = BaseNode.Parents a σ).
  { unfold BaseNode.Parents. by destruct (Hn a) as (_ & _ & ->). }
  destruct (notify_loop CallChildIsDone BaseNode.ChildIsDone a
              (BaseNode.Parents a σ1) σ1 ChildIsDone_same_edges) as (Ht' & Hk' & _).
  cbn zeta in Ht', Hk'. rewrite Ht', Hk', Ht, Hk, Hp.
  destruct (Hn a) as (-> & _). by rewrite <- app_assoc.
Qed.

Lemma Stop_node_other a b σ : a ≠ b → node (BaseNode.Stop a σ) b = node σ b.
Proof.
  intros Hne. destruct (done (oStop (node σ a))) eqn:E.
  - by rewrite Stop_stopped.
  - rewrite Stop_fires by done. unfold node. simpl. by rewrite lookup_total_insert_ne.
Qed.

Lemma ParentIsDone_node_other c a m σ :
  c ≠ a → node (BaseNode.ParentIsDone c m σ) a = node σ a.
Proof.
  intros Hne. unfold BaseNode.ParentIsDone. destruct (parents (node σ c) !! Name m); [|done].
  cbn zeta. destruct (_ && _).
  - by rewrite Stop_node_other, node_store_ne.
  - by rewrite node_store_ne.
Qed.

Lemma ChildIsDone_node_other c a m σ :
  c ≠ a → node (BaseNode.ChildIsDone c m σ) a = node σ a.
Proof.
  intros Hne. unfold BaseNode.ChildIsDone. destruct (children (node σ c) !! Name m); [|done].
  cbn zeta. destruct (_ && _).
  - by rewrite Stop_node_other, node_store_ne.
  - by rewrite node_store_ne.
Qed.

Lemma notify_loop_node (call : addr → NodeMetadata → Call)
    (method : addr → NodeMetadata → World → World) a l σ :
  (∀ c m σ, c ≠ a → node (method c m σ) a = node σ a) →
  a ∉ l →
  node (foldl (λ σ c, method c (md (node σ a)) (log (call c (md (node σ a))) σ)) σ l) a
  = node σ a.
Proof.
  intros Hm. revert σ. induction l as [|c l IH]; intros σ Hnot; simpl; [done|].
  apply not_elem_of_cons in Hnot as [Hne Hnot].
  rewrite IH by done. by rewrite Hm.
Qed.

Lemma notify_node a σ :
  a ∉ BaseNode.Children a σ → a ∉ BaseNode.Parents a σ →
  node (BaseNode.notify a σ) a = node σ a.
Proof.
  intros Hc Hp. unfold BaseNode.notify.
  set (σ1 := foldl _ σ (BaseNode.Children a σ)).
  assert (H1 : node σ1 a = node σ a).
  { apply (notify_loop_node CallParentIsDone BaseNode.ParentIsDone); [|done].
    intros. by apply ParentIsDone_node_other. }
  rewrite (notify_loop_node CallChildIsDone BaseNode.ChildIsDone); [done| |].
  - intros. by apply ChildIsDone_node_other.
  - unfold BaseNode.Parents in *. by rewrite H1.
Qed.

(** C2, as the code has it.  When the exec function has returned, the
    goroutine calls [ParentIsDone] on every child, then [ChildIsDone] on
    every parent, then the node's own [Stop], then [Done] on the task, in
    this order; when the exec function has panicked, the deferred calls
    [Stop] and [Done] are all there is.  If the stop guard of the node has
    not fired by then (and the node is not its own child or parent), this
    [Stop] cancels the scope of the node and resets its start guard; the
    task is marked done. *)
Theorem completion_order (a : addr) (t : task) (σ : World) :
  trace (BaseNode.completion a t Returned σ)
  = trace σ
    ++ map (λ c, CallParentIsDone c (md (node σ a))) (BaseNode.Children a σ)
    ++ map (λ p, CallChildIsDone p (md (node σ a))) (BaseNode.Parents a σ)
    ++ [CallStop a; CallDone t] ∧
  trace (BaseNode.completion a t Panicked σ) = trace σ ++ [CallStop a; CallDone t] ∧
  (∀ out k cx,
     a ∉ BaseNode.Children a σ → a ∉ BaseNode.Parents a σ →
     done (oStop (node σ a)) = false →
     cancel (node σ a) = Some k → ctx (node σ a) = Some cx → k ∈ cx →
     t < length (tasks σ) →
     let σ' := BaseNode.completion a t out σ in
     BaseNode.IsStopped a σ' = true ∧
     done (oStart (node σ' a)) = false ∧
     done (oStop (node σ' a)) = true ∧
     task_done <$> tasks σ' !! t = Some true).
Proof.
  split; [|split].
  - unfold BaseNode.completion, task_Done. cbn zeta.
    destruct (Stop_same_edges a (log (CallStop a) (BaseNode.notify a σ))) as (Ht & _).
    unfold log at 1. simpl. rewrite Ht. simpl.
    destruct (notify_trace a σ) as [-> _]. by rewrite <- !app_assoc.
  - unfold BaseNode.completion, task_Done. cbn zeta.
    destruct (Stop_same_edges a (log (CallStop a) σ)) as (Ht & _).
    unfold log at 1. simpl. rewrite Ht. simpl. by rewrite <- !app_assoc.
  - intros out k cx Hc Hp Hs Hk Hx Hin Hlt σ'. subst σ'.
    unfold BaseNode.completion. cbn zeta.
    set (σn := match out with Returned => BaseNode.notify a σ | Panicked => σ end).
    assert (Hn : node σn a = node σ a).
    { subst σn. destruct out; [by apply notify_node|done]. }
    assert (Hk' : tasks σn = tasks σ).
    { subst σn. destruct out; [apply notify_trace|done]. }
    set (σl := log (CallStop a) σn).
    assert (Hnl : node σl a = node σ a) by done.
    rewrite (Stop_fires a σl) by (by rewrite Hnl).
    rewrite Hnl, Hk.
    unfold BaseNode.IsStopped, BaseNode.Context, task_Done, log, node, Err. simpl.
    rewrite lookup_total_insert_eq. simpl.
    unfold node in Hx. rewrite Hx.
    repeat split; try done.
    + apply existsb_exists. exists k. split; [by apply list_elem_of_In|].
      apply bool_decide_eq_true. set_solver.
    + rewrite Hk'. rewrite list_lookup_alter_eq.
      destruct (lookup_lt_is_Some_2 (tasks σ) t Hlt) as [x ->]. done.
Qed.

Lemma completion_order_witness :
  let σ' := BaseNode.completion 1 0 Returned chain_running in
  BaseNode.IsStopped 1 σ' = true ∧
  done (oStart (node σ' 1)) = false ∧
  done (oStop (node σ' 1)) = true ∧
  task_done <$> tasks σ' !! 0 = Some true.
Proof.
  destruct (completion_order 1 0 chain_running) as (_ & _ & H).
  apply (H Returned 0 [0]); try reflexivity.
  - vm_compute. intros H1. apply list_elem_of_singleton in H1. discriminate.
  - vm_compute. intros H1. apply list_elem_of_singleton in H1. discriminate.
  - by left.
  - vm_compute. lia.
Defined.

(** C2 as stated fails: the notifications come before the deferred [Stop]
    and [Done], not after them. *)
Lemma completion_order_counterexample :
  let tr := trace (BaseNode.completion 1 0 Returned chain_running) in
  tr = [CallCreateTask TaskFactory 0; CallParentIsDone 2 (meta "A");
        CallChildIsDone 0 (meta "A"); CallStop 1; CallDone 0] ∧
  ¬ precedes (CallStop 1) (CallParentIsDone 2 (meta "A")) tr ∧
  ¬ precedes (CallDone 0) (CallParentIsDone 2 (meta "A")) tr ∧
  ¬ precedes (CallDone 0) (CallChildIsDone 0 (meta "A")) tr.
Proof.
  vm_compute. split; [done|]. repeat split; intros H.
  - apply list_elem_of_singleton in H. discriminate.
  - by apply elem_of_nil in H.
  - by apply elem_of_nil in H.
Qed.

(** ** C4: indexing the nodes *)

Lemma walked_nil σ a : ¬ walked σ [] a.
Proof. intros (n & Hn & _). by apply elem_of_nil in Hn. Qed.

Lemma walked_cons σ n l a :
  walked σ (n :: l) a ↔ (a = n ∨ reach σ n a) ∨ walked σ l a.
Proof.
  unfold walked. split.
  - intros (x & Hx & H). apply elem_of_cons in Hx as [->|Hx]; [by left|right; eauto].
  - intros [H|(x & Hx & H)]; [exists n|exists x]; (split; [|done]);
      apply elem_of_cons; auto.
Qed.

Lemma walked_children σ n a : walked σ (BaseNode.Children n σ) a ↔ reach σ n a.
Proof.
  split.
  - intros (c & Hc & [->|H]); [by apply reach_child|by eapply reach_step].
  - intros H. destruct H as [a c Hc|a b c Hb H]; [exists c|exists b]; auto.
Qed.

Lemma indexed_nil σ r : indexed σ [] r r.
Proof. split; [by left|]. intros a H. by apply walked_nil in H. Qed.

(** One turn of the loop: the node, then its children. *)
Lemma indexed_node σ n r r' :
  indexed σ (BaseNode.Children n σ) (<[Name (md (node σ n)) := n]> r) r' →
  indexed σ [n] r r'.
Proof.
  intros [H1 H2].
  assert (Hw : ∀ b, walked σ (BaseNode.Children n σ) b → walked σ [n] b).
  { intros b Hb. apply walked_cons. left. right. by apply walked_children. }
  assert (Hn : walked σ [n] n) by (apply walked_cons; auto).
  assert (H1' : ∀ k, r' !! k = r !! k
                     ∨ ∃ b, walked σ [n] b ∧ Name (md (node σ b)) = k ∧ r' !! k = Some b).
  { intros k. destruct (H1 k) as [E|(b & Hb & Hk & E)]; [|right; eauto].
    destruct (decide (Name (md (node σ n)) = k)) as [<-|Hne].
    - rewrite lookup_insert_eq in E. right. eauto.
    - rewrite lookup_insert_ne in E by done. by left. }
  split; [done|]. intros a Ha.
  apply walked_cons in Ha as [[->|Ha]|Ha]; [| |by apply walked_nil in Ha].
  - destruct (H1 (Name (md (node σ n)))) as [E|(b & Hb & Hk & E)]; [|eauto].
    rewrite lookup_insert_eq in E. eauto.
  - apply walked_children in Ha. destruct (H2 a Ha) as (b & Hb & Hk & E). eauto.
Qed.

(** A walk over [n], then a walk over [l]. *)
Lemma indexed_cons σ n l r r1 r' :
  indexed σ [n] r r1 → indexed σ l r1 r' → indexed σ (n :: l) r r'.
Proof.
  intros [H1 H2] [H1' H2'].
  assert (Hwn : ∀ b, walked σ [n] b → walked σ (n :: l) b).
  { intros b Hb. apply walked_cons in Hb as [Hb|Hb]; [|by apply walked_nil in Hb].
    apply walked_cons. by left. }
  assert (Hwl : ∀ b, walked σ l b → walked σ (n :: l) b).
  { intros b Hb. apply walked_cons. by right. }
  split.
  - intros k. destruct (H1' k) as [E|(b & Hb & Hk & E)]; [|right; eauto].
    rewrite E. destruct (H1 k) as [E1|(b & Hb & Hk & E1)]; [by left|right; eauto].
  - intros a Ha. apply walked_cons in Ha as [Ha|Ha].
    + destruct (H2 a) as (b & Hb & Hk & E); [apply walked_cons; by left|].
      destruct (H1' (Name (md (node σ a)))) as [E'|(b' & Hb' & Hk' & E')]; [|eauto].
      rewrite E in E'. eauto.
    + destruct (H2' a Ha) as (b & Hb & Hk & E). eauto.
Qed.

Section Index.
Variable σ : World.

(** The loop of [indexNodesFunc], for any way [g] of indexing below a
    node. *)
Lemma index_loop (g : addr → Workflow.Workflow → option Workflow.Workflow) l w w' :
  (∀ n w w1, n ∈ l → g n w = Some w1 →
     indexed σ [n] (Workflow.ns w) (Workflow.ns w1)) →
  foldl (λ acc n, w ← acc; g n w) (Some w) l = Some w' →
  indexed σ l (Workflow.ns w) (Workflow.ns w').
Proof.
  revert w. induction l as [|n l IH]; intros w Hg H; simpl in H.
  - simplify_eq. apply indexed_nil.
  - destruct (g n w) as [w1|] eqn:E.
    + eapply indexed_cons.
      * eapply Hg; [by left|done].
      * apply IH; [|done]. intros. eapply Hg; [by right|done].
    + exfalso. clear -H. induction l as [|x l IHl]; simpl in H; [done|auto].
Qed.

Lemma indexNodesFunc_indexed fuel l w w' :
  Workflow.indexNodesFunc fuel σ l w = Some w' →
  indexed σ l (Workflow.ns w) (Workflow.ns w').
Proof.
  revert l w w'. induction fuel as [|fuel IH]; intros l w w' H; [done|].
  simpl in H. eapply index_loop; [|exact H].
  intros n w0 w1 _ Hn. apply indexed_node.
  apply IH in Hn. exact Hn.
Qed.

(** The walk changes the registry and nothing else in the workflow. *)
Lemma indexNodesFunc_fields fuel l w w' :
  Workflow.indexNodesFunc fuel σ l w = Some w' →
  w' = Workflow.set_ns (Workflow.ns w') w.
Proof.
  revert l w w'. induction fuel as [|fuel IH]; intros l w w' H; [done|].
  simpl in H. revert w H. induction l as [|n l IHl]; intros w H; simpl in H.
  - simplify_eq. by destruct w'.
  - destruct (Workflow.indexNodesFunc fuel σ _ _) as [w1|] eqn:E.
    + apply IHl in H. apply IH in E. rewrite H, E. done.
    + exfalso. clear -H. induction l as [|x l IHl]; simpl in H; [done|auto].
Qed.

Lemma index_loop_returns (g : addr → Workflow.Workflow → option Workflow.Workflow) l w :
  (∀ n w, n ∈ l → is_Some (g n w)) →
  is_Some (foldl (λ acc n, w ← acc; g n w) (Some w) l).
Proof.
  revert w. induction l as [|n l IH]; intros w Hg; [by eexists|].
  destruct (Hg n w) as [w1 E]; [by left|].
  cbn [foldl]. cbn [mbind option_bind]. rewrite E.
  apply IH. intros. apply Hg. by right.
Qed.

(** On a graph without cycles the walk returns. *)
Lemma indexNodesFunc_returns rk fuel l w :
  ranked rk σ → (∀ n, n ∈ l → rk n < fuel) →
  is_Some (Workflow.indexNodesFunc (S fuel) σ l w).
Proof.
  intros Hrk. revert l w. induction fuel as [|fuel IH]; intros l w Hl.
  - destruct l as [|n l]; [by eexists|]. specialize (Hl n).
    assert (rk n < 0) by (apply Hl; by left). lia.
  - change (is_Some (foldl (λ acc n, w ← acc;
              (λ n w, Workflow.indexNodesFunc (S fuel) σ (BaseNode.Children n σ)
                (Workflow.set_ns (<[Name (BaseNode.Metadata n σ) := n]> (Workflow.ns w)) w))
                n w)
              (Some w) l)).
    apply index_loop_returns. intros n w0 Hn. apply IH.
    intros c Hc. apply Hrk in Hc. apply Hl in Hn. lia.
Qed.

End Index.

(** C4, as the code has it.  On a graph without cycles [IndexNodes]
    returns.  The registry then has, under the name of every node reached
    from the root, a node reached from the root that has this name (the node
    itself when no other reached node has its name); every entry is such an
    entry or the entry that the registry had under this name before; and a
    name that no reached node has keeps the entry it had: the entries of an
    earlier indexing are not removed. *)
Theorem IndexNodes_registry (w : Workflow.Workflow) (σ : World) (rk : addr → nat) :
  ranked rk σ →
  ∃ w', Workflow.IndexNodes (S (rk (Workflow.bn w))) w σ = Some w' ∧
    w' = Workflow.set_ns (Workflow.ns w') w ∧
    (∀ a, reach σ (Workflow.bn w) a →
       ∃ b, reach σ (Workflow.bn w) b ∧
            Name (md (node σ b)) = Name (md (node σ a)) ∧
            Workflow.ns w' !! Name (md (node σ a)) = Some b) ∧
    (∀ a, reach σ (Workflow.bn w) a →
       (∀ b, reach σ (Workflow.bn w) b →
             Name (md (node σ b)) = Name (md (node σ a)) → b = a) →
       Workflow.ns w' !! Name (md (node σ a)) = Some a) ∧
    (∀ k n, Workflow.ns w' !! k = Some n →
       (reach σ (Workflow.bn w) n ∧ Name (md (node σ n)) = k)
       ∨ Workflow.ns w !! k = Some n) ∧
    (∀ k, (∀ a, reach σ (Workflow.bn w) a → Name (md (node σ a)) ≠ k) →
       Workflow.ns w' !! k = Workflow.ns w !! k).
Proof.
  intros Hrk. unfold Workflow.IndexNodes.
  destruct (indexNodesFunc_returns σ rk (rk (Workflow.bn w))
              (BaseNode.Children (Workflow.bn w) σ) w Hrk) as [w' E].
  { intros c Hc. by apply Hrk. }
  exists w'. split; [done|]. split; [by eapply indexNodesFunc_fields|].
  apply indexNodesFunc_indexed in E as [H1 H2].
  assert (Hall : ∀ a, reach σ (Workflow.bn w) a →
       ∃ b, reach σ (Workflow.bn w) b ∧
            Name (md (node σ b)) = Name (md (node σ a)) ∧
            Workflow.ns w' !! Name (md (node σ a)) = Some b).
  { intros a Ha. apply walked_children in Ha.
    destruct (H2 a Ha) as (b & Hb & Hk & Eb). apply walked_children in Hb. eauto. }
  split; [done|]. split; [|split].
  - intros a Ha Huniq. destruct (Hall a Ha) as (b & Hb & Hk & Eb).
    rewrite Eb. f_equal. by apply Huniq.
  - intros k n Hn. destruct (H1 k) as [Ek|(b & Hb & Hk & Eb)].
    + right. by rewrite <- Ek.
    + left. rewrite Hn in Eb. simplify_eq. by apply walked_children in Hb.
  - intros k Hk. destruct (H1 k) as [Ek|(b & Hb & Hkb & Eb)]; [done|].
    apply walked_children in Hb. by apply Hk in Hb.
Qed.

Lemma Children_allocated a c σ :
  c ∈ BaseNode.Children a σ → a ∈ dom (heap σ).
Proof.
  intros Hc. apply elem_of_dom. destruct (heap σ !! a) as [n|] eqn:E; [by eexists|].
  exfalso. unfold BaseNode.Children, node in Hc.
  rewrite lookup_total_alt, E in Hc. by apply elem_of_nil in Hc.
Qed.

Lemma wf_built_ranked : ranked wf_rank wf_built.
Proof.
  intros a c Hc. pose proof (Children_allocated _ _ _ Hc) as Ha.
  assert (Hdom : dom (heap wf_built) = {[0; 1; 2]}) by (by vm_compute).
  rewrite Hdom in Ha.
  assert (a = 0 ∨ a = 1 ∨ a = 2) as [-> | [-> | ->]] by set_solver.
  - vm_compute in Hc. by apply elem_of_nil in Hc.
  - vm_compute in Hc. by apply elem_of_nil in Hc.
  - vm_compute in Hc. apply elem_of_cons in Hc as [Hc|Hc].
    + subst c. unfold wf_rank. simpl. lia.
    + apply list_elem_of_singleton in Hc. subst c. unfold wf_rank. simpl. lia.
Qed.

Lemma IndexNodes_registry_witness :
  ∃ w', Workflow.IndexNodes 2 wf wf_built = Some w' ∧
        Workflow.ns w' !! "a" = Some 0 ∧ Workflow.ns w' !! "b" = Some 1 ∧
        Workflow.ns w' !! "z" = None.
Proof.
  destruct (IndexNodes_registry wf wf_built wf_rank wf_built_ranked)
    as (w' & E & _ & _ & _ & _ & H).
  exists w'. split; [exact E|].
  vm_compute in E. injection E as <-. by vm_compute.
Defined.

(** C4 as stated fails: the walk only adds entries.  After [DelChild] the
    node ["a"] is not reached from the root any more, and the registry of a
    second [IndexNodes] still has it. *)
Lemma IndexNodes_registry_counterexample :
  let σ := Workflow.DelChild wf 0 wf_built in
  ∃ w', Workflow.IndexNodes 2 wf_indexed σ = Some w' ∧
        Workflow.Children wf_indexed σ = [1] ∧
        ¬ reach σ (Workflow.bn wf_indexed) 0 ∧
        Workflow.ns w' !! "a" = Some 0.
Proof.
  eexists. split; [by vm_compute|]. split; [by vm_compute|]. split; [|by vm_compute].
  assert (Hc : ∀ a c, c ∈ BaseNode.Children a (Workflow.DelChild wf 0 wf_built) →
                      c = 1).
  { intros a c Hc. pose proof (Children_allocated _ _ _ Hc) as Ha.
    assert (Hdom : dom (heap (Workflow.DelChild wf 0 wf_built)) = {[0; 1; 2]})
      by (by vm_compute).
    rewrite Hdom in Ha.
    assert (a = 0 ∨ a = 1 ∨ a = 2) as [-> | [-> | ->]] by set_solver;
      vm_compute in Hc; try (by apply elem_of_nil in Hc).
    by apply list_elem_of_singleton in Hc. }
  assert (Hr : ∀ r x, reach (Workflow.DelChild wf 0 wf_built) r x → x = 1).
  { intros r x H. induction H as [a c H|a b c H _ IH]; [by apply Hc in H|done]. }
  intros H. apply Hr in H. discriminate H.
Qed.

(** ** C6 and C8: the closure of [start] *)

Section StartExec.
Variable w : Workflow.Workflow.
Variable t0 : task.
Hypothesis w_t : Workflow.t w = Some t0.

Lemma Start_context a c opts tc f σ b :
  is_Some (ctx (node σ b)) → is_Some (ctx (node (BaseNode.Start a c opts tc f σ) b)).
Proof.
  intros H. destruct (done (oStart (node σ a))) eqn:Hd; [by rewrite Start_started|].
  destruct (Err c σ) eqn:He.
  - rewrite Start_cancelled by done.
    destruct (decide (a = b)) as [->|Hne];
      [by rewrite node_store_eq|by rewrite node_store_ne].
  - rewrite Start_live by done. unfold node. simpl.
    destruct (decide (a = b)) as [->|Hne].
    + rewrite lookup_total_insert_eq. simpl. by eexists.
    + by rewrite lookup_total_insert_ne.
Qed.

Lemma Start_trace a c opts tc f σ :
  ∃ d, trace (BaseNode.Start a c opts tc f σ) = trace σ ++ d ∧ Forall is_start d.
Proof.
  destruct (done (oStart (node σ a))) eqn:Hd.
  { rewrite Start_started by done. exists []. by rewrite app_nil_r. }
  destruct (Err c σ) eqn:He.
  - rewrite Start_cancelled by done. exists []. by rewrite app_nil_r.
  - rewrite Start_live by done. eexists. split; [done|]. by repeat constructor.
Qed.

Lemma Node_Start_trace n cx tc σ :
  root_has_context w σ →
  ∃ d, trace (Workflow.Node_Start n cx tc σ) = trace σ ++ CallStart n cx tc :: d ∧
       Forall is_start d ∧ root_has_context w (Workflow.Node_Start n cx tc σ).
Proof.
  intros Hr. unfold Workflow.Node_Start.
  destruct (Start_trace n cx (o (node σ n)) tc (ExecNode n) (log (CallStart n cx tc) σ))
    as (d & Hd & Hs).
  exists d. split; [|split; [done|]].
  - rewrite Hd. unfold log. simpl. by rewrite <- app_assoc.
  - by apply Start_context.
Qed.

Lemma StartNodes_one n σ :
  root_has_context w σ →
  ∃ σ' d, Workflow.StartNodes w [n] σ = Some σ' ∧
          trace σ' = trace σ ++ d ∧ Forall is_start d ∧ root_has_context w σ'.
Proof.
  intros Hr. destruct (Hr) as [cx Hcx]. unfold Workflow.StartNodes. simpl.
  rewrite Hcx, w_t. simpl.
  destruct (Node_Start_trace n cx (NewSubTask t0) σ Hr) as (d & Hd & Hs & Hr').
  eexists _, _. split; [done|]. split; [exact Hd|]. split; [|done].
  by constructor.
Qed.

(** The loop of [StartNodesInSubTask]. *)
Lemma start_loop t1 l σ :
  root_has_context w σ →
  ∃ σ' S,
    foldl (λ acc n, σ ← acc; cx ← BaseNode.Context (Workflow.bn w) σ;
                    Some (Workflow.Node_Start n cx (NewSubTask t1) σ)) (Some σ) l
    = Some σ' ∧
    trace σ' = trace σ ++ S ∧ group_started l t1 S ∧ root_has_context w σ'.
Proof.
  revert σ. induction l as [|n l IH]; intros σ Hr.
  - exists σ, []. rewrite app_nil_r. repeat split; try done.
    intros n Hn. by apply elem_of_nil in Hn.
  - destruct (Hr) as [cx Hcx]. cbn [foldl]. cbn [mbind option_bind]. rewrite Hcx.
    cbn [mbind option_bind].
    destruct (Node_Start_trace n cx (NewSubTask t1) σ Hr) as (d & Hd & Hs & Hr').
    destruct (IH _ Hr') as (σ' & S & E & Ht & [HS Hm] & Hr'').
    exists σ', (CallStart n cx (NewSubTask t1) :: d ++ S). split; [exact E|].
    split; [|split; [split|done]].
    + rewrite Ht, Hd. rewrite <- app_assoc. done.
    + constructor; [done|]. by apply Forall_app.
    + intros m Hin. apply elem_of_cons in Hin as [->|Hin].
      * exists cx. by left.
      * destruct (Hm m Hin) as (cx' & Hin'). exists cx'. right.
        apply elem_of_app. by right.
Qed.

Lemma StartNodesInSubTask_trace l σ :
  root_has_context w σ →
  ∃ σ' S,
    Workflow.StartNodesInSubTask w l σ = Some (length (tasks σ), σ') ∧
    trace σ' = trace σ ++ CallCreateTask (NewSubTask t0) (length (tasks σ)) :: S ∧
    group_started l (length (tasks σ)) S ∧ root_has_context w σ'.
Proof.
  intros Hr. unfold Workflow.StartNodesInSubTask. rewrite w_t.
  cbn [mbind option_bind]. unfold create_task.
  set (σ1 := log _ _).
  destruct (start_loop (length (tasks σ)) l σ1 Hr) as (σ' & S & E & Ht & HS & Hr').
  exists σ', S. rewrite E. cbn [mbind option_bind]. split; [done|].
  split; [|done]. rewrite Ht. subst σ1. unfold log. simpl. by rewrite <- app_assoc.
Qed.

Lemma groups_grow_refl gs : groups_grow gs gs.
Proof. unfold groups_grow. induction gs; constructor; auto. Qed.

Lemma groups_grow_trans gs1 gs2 gs3 :
  groups_grow gs1 gs2 → groups_grow gs2 gs3 → groups_grow gs1 gs3.
Proof.
  unfold groups_grow. intros H. revert gs3.
  induction H as [|g1 g2 gs1 gs2 (Hf & Ht & Hn) H IH]; intros gs3 H3.
  - by inversion H3.
  - inversion H3 as [|? g3 ? gs3' (Hf' & Ht' & Hn') H3']; subst.
    constructor; [|by apply IH].
    split; [congruence|]. split; [congruence|]. set_solver.
Qed.

Lemma groups_grow_alter gs i n :
  groups_grow gs
    (alter (λ x, {| sg_fn := sg_fn x; sg_ns := sg_ns x ++ [n]; sg_t := sg_t x |}) i gs).
Proof.
  unfold groups_grow. revert i. induction gs as [|g gs IH]; intros i; [constructor|].
  destruct i as [|i]; simpl.
  - constructor; [|apply groups_grow_refl]. simpl. set_solver.
  - constructor; [|apply IH]. set_solver.
Qed.

Lemma groups_grow_lookup gs gs' i g n :
  groups_grow gs gs' → gs !! i = Some g → n ∈ sg_ns g →
  ∃ g', gs' !! i = Some g' ∧ n ∈ sg_ns g'.
Proof.
  intros H Hi Hn. destruct (Forall2_lookup_l _ _ _ _ _ H Hi) as (g' & Hi' & _ & _ & Hs).
  exists g'. split; [done|]. by apply Hs.
Qed.

(** The second loop of [start]. *)
Lemma loop_nodes_trace ngs l gs σ :
  root_has_context w σ →
  ∃ gs' σ' U,
    Workflow.loop_nodes w ngs l gs σ = Some (gs', σ') ∧
    trace σ' = trace σ ++ U ∧ Forall is_start U ∧ root_has_context w σ' ∧
    groups_grow gs gs' ∧
    ∀ n i, n ∈ l → ngs !! n = Some i → i < length gs →
           ∃ g', gs' !! i = Some g' ∧ n ∈ sg_ns g'.
Proof.
  unfold Workflow.loop_nodes. revert gs σ.
  induction l as [|n l IH]; intros gs σ Hr.
  - exists gs, σ, []. rewrite app_nil_r. repeat split; try done.
    + apply groups_grow_refl.
    + intros n i Hn. by apply elem_of_nil in Hn.
  - cbn [foldl]. cbn [mbind option_bind].
    destruct (ngs !! n) as [i|] eqn:E.
    + set (gs1 := alter _ i gs).
      destruct (IH gs1 σ Hr) as (gs' & σ' & U & El & Ht & HU & Hr' & Hg & Hm).
      exists gs', σ', U. split; [exact El|]. repeat split; try done.
      * eapply groups_grow_trans; [apply groups_grow_alter|exact Hg].
      * intros m j Hin Hj Hlt. apply elem_of_cons in Hin as [->|Hin].
        -- rewrite E in Hj. injection Hj as ->.
           destruct (lookup_lt_is_Some_2 gs j Hlt) as [g Hgj].
           eapply (groups_grow_lookup gs1 gs' j); [done| |].
           ++ subst gs1. rewrite list_lookup_alter_eq, Hgj. done.
           ++ simpl. set_solver.
        -- apply Hm; [done|done|]. subst gs1. by rewrite length_alter.
    + destruct (StartNodes_one n σ Hr) as (σ1 & d & E1 & Ht1 & Hd & Hr1).
      rewrite E1. cbn [mbind option_bind].
      destruct (IH gs σ1 Hr1) as (gs' & σ' & U & El & Ht & HU & Hr' & Hg & Hm).
      exists gs', σ', (d ++ U). split; [exact El|]. repeat split; try done.
      * rewrite Ht, Ht1. by rewrite <- app_assoc.
      * by apply Forall_app.
      * intros m j Hin Hj Hlt. apply elem_of_cons in Hin as [->|Hin];
          [congruence|by apply Hm].
Qed.

(** The third loop of [start]. *)
Lemma loop_groups_trace gs σ :
  root_has_context w σ →
  ∃ gs' σ' ts Ss,
    Workflow.loop_groups w gs σ = Some (gs', σ') ∧
    trace σ' = trace σ ++ group_calls t0 ts Ss ∧
    gs' = zip_with (λ g t, {| sg_fn := sg_fn g; sg_ns := sg_ns g; sg_t := Some t |})
            gs ts ∧
    length ts = length gs ∧ length Ss = length gs ∧
    (∀ i g t S, gs !! i = Some g → ts !! i = Some t → Ss !! i = Some S →
                group_started (sg_ns g) t S) ∧
    root_has_context w σ'.
Proof.
  revert σ. induction gs as [|g gs IH]; intros σ Hr.
  - exists [], σ, [], []. unfold group_calls. simpl. rewrite app_nil_r.
    repeat split; try done.
  - simpl.
    destruct (StartNodesInSubTask_trace (sg_ns g) σ Hr) as (σ1 & S & E & Ht & HS & Hr1).
    rewrite E. cbn [mbind option_bind].
    destruct (IH σ1 Hr1) as (gs' & σ' & ts & Ss & El & Ht' & -> & Hlt & HlS & HSs & Hr').
    rewrite El. cbn [mbind option_bind].
    exists (zip_with (λ g t, {| sg_fn := sg_fn g; sg_ns := sg_ns g; sg_t := Some t |})
              (g :: gs) (length (tasks σ) :: ts)), σ', (length (tasks σ) :: ts), (S :: Ss).
    split; [done|]. split; [|split; [done|]].
    + rewrite Ht', Ht. unfold group_calls. simpl. by rewrite <- app_assoc.
    + split; [simpl; by rewrite Hlt|]. split; [simpl; by rewrite HlS|]. split; [|done].
      intros [|i] g' t' S' Hg Ht'' HS'; simpl in *; simplify_eq; [done|].
      by eapply HSs.
Qed.

(** The fourth loop of [start]. *)
Lemma loop_callbacks_trace gs σ :
  Workflow.loop_callbacks gs σ
  = set_trace (trace σ ++ omap (λ g, (λ f, CallCallback f (sg_t g)) <$> sg_fn g) gs) σ.
Proof.
  unfold Workflow.loop_callbacks. revert σ.
  induction gs as [|g gs IH]; intros σ; simpl.
  - rewrite app_nil_r. by destruct σ.
  - rewrite IH. destruct (sg_fn g) as [f|]; simpl; [|done].
    unfold log, set_trace. simpl. by rewrite <- app_assoc.
Qed.

End StartExec.

Lemma callbacks_of_groups ogs gs ts :
  Forall2 (λ og g, sg_fn g = Callback og) ogs gs →
  omap (λ g, (λ f, CallCallback f (sg_t g)) <$> sg_fn g)
       (zip_with (λ g t, {| sg_fn := sg_fn g; sg_ns := sg_ns g; sg_t := Some t |}) gs ts)
  = callback_calls ogs ts.
Proof.
  unfold callback_calls. intros H. revert ts.
  induction H as [|og g ogs gs Hf H IH]; intros ts; [done|].
  destruct ts as [|t ts]; [done|]. simpl. rewrite Hf, IH. done.
Qed.

(** *** The first loop of [start] *)

Lemma index_nodes_lookup (g : nat) (l : list addr) (ngs : gmap addr nat) n :
  foldl (λ ngs n, <[n := g]> ngs) ngs l !! n
  = if decide (n ∈ l) then Some g else ngs !! n.
Proof.
  revert ngs. induction l as [|m l IH]; intros ngs; cbn [foldl].
  - rewrite decide_False; [done|]. apply not_elem_of_nil.
  - rewrite IH. destruct (decide (n ∈ l)) as [Hin|Hnin].
    + rewrite decide_True; [done|]. by right.
    + destruct (decide (m = n)) as [->|Hne].
      * rewrite lookup_insert_eq, decide_True; [done|]. by left.
      * rewrite lookup_insert_ne by done. rewrite decide_False; [done|].
        intros [?|?]%elem_of_cons; congruence.
Qed.

Lemma index_groups_spec opts :
  (Workflow.index_groups opts).1
  = map (λ og, {| sg_fn := Callback og; sg_ns := []; sg_t := None |}) (Groups opts) ∧
  ∀ n i, group_of opts n = Some i ↔ last_named (Groups opts) n i.
Proof.
  unfold group_of, Workflow.index_groups. destruct opts as [ogs b]. simpl. clear b.
  induction ogs as [|og ogs [IH1 IH2]] using rev_ind.
  - simpl. split; [done|]. intros n i. rewrite lookup_empty. split; [done|].
    intros [(og & H & _) _]. done.
  - rewrite foldl_snoc. destruct (foldl _ _ ogs) as [gs ngs] eqn:E. simpl in *.
    subst gs. rewrite length_map. split; [by rewrite map_app|].
    intros n i. rewrite index_nodes_lookup. unfold last_named.
    destruct (decide (n ∈ Nodes og)) as [Hin|Hnin].
    + split.
      * intros [= <-]. split.
        -- exists og. split; [|done]. by rewrite lookup_app_r, Nat.sub_diag.
        -- intros j og' Hlt Hj. apply lookup_lt_Some in Hj.
           rewrite length_app in Hj. simpl in Hj. lia.
      * intros [(og' & Hi & Hn) Hlast]. f_equal.
        destruct (decide (i = length ogs)) as [->|Hne]; [done|].
        exfalso. apply lookup_lt_Some in Hi as Hlt. rewrite length_app in Hlt.
        simpl in Hlt. apply (Hlast (length ogs) og); [lia| |done].
        by rewrite lookup_app_r, Nat.sub_diag.
    + rewrite IH2. unfold last_named. split.
      * intros [(og' & Hi & Hn) Hlast]. split.
        -- exists og'. split; [|done]. by apply lookup_app_l_Some.
        -- intros j og'' Hlt Hj. apply lookup_app_Some in Hj as [Hj|[Hge Hj]].
           ++ by eapply Hlast.
           ++ apply list_lookup_singleton_Some in Hj as [_ <-]. done.
      * intros [(og' & Hi & Hn) Hlast].
        apply lookup_app_Some in Hi as [Hi|[Hge Hi]].
        -- split; [eauto|]. intros j og'' Hlt Hj. eapply Hlast; [done|].
           by apply lookup_app_l_Some.
        -- apply list_lookup_singleton_Some in Hi as [_ <-]. done.
Qed.


Lemma index_groups_callbacks opts gs :
  groups_grow (Workflow.index_groups opts).1 gs →
  Forall2 (λ og g, sg_fn g = Callback og) (Groups opts) gs.
Proof.
  destruct (index_groups_spec opts) as [-> _]. unfold groups_grow.
  generalize (Groups opts). intros ogs. revert gs.
  induction ogs as [|og ogs IH]; intros gs H; inversion H as [|? g ? gs' (Hf & _) H']; subst.
  - constructor.
  - constructor; [done|]. by apply IH.
Qed.

Lemma is_start_group_calls t0 ts Ss :
  Forall (Forall is_start) Ss → Forall is_start (group_calls t0 ts Ss).
Proof.
  unfold group_calls. intros H. revert ts.
  induction H as [|S Ss HS H IH]; intros [|t ts]; simpl; try constructor; try done.
  apply Forall_app. split; [done|]. apply IH.
Qed.

(** The trace of the closure of [start]. *)
Lemma start_exec_trace w l opts t0 σ :
  is_Some (BaseNode.Context (Workflow.bn w) σ) →
  ∃ σ' U ts Ss,
    Workflow.start_exec w l opts t0 σ = Some (Workflow.set_t (Some t0) w, σ') ∧
    trace σ' = trace σ ++ U ++ group_calls t0 ts Ss
               ++ [CallEmit (started_event w)]
               ++ callback_calls (Groups opts) ts
               ++ CallWait t0 :: closing_calls w ∧
    Forall is_start U ∧
    length ts = length (Groups opts) ∧ length Ss = length (Groups opts) ∧
    ∀ i t S, ts !! i = Some t → Ss !! i = Some S →
      Forall is_start S ∧
      ∀ n, n ∈ l → group_of opts n = Some i →
           ∃ cx, CallStart n cx (NewSubTask t) ∈ S.
Proof.
  intros Hr. unfold Workflow.start_exec.
  set (w' := Workflow.set_t (Some t0) w).
  assert (Hw : Workflow.t w' = Some t0) by done.
  assert (Hr0 : root_has_context w' σ) by done.
  pose proof (index_groups_spec opts) as [Hgs Hngs].
  unfold group_of in *.
  destruct (Workflow.index_groups opts) as [gs ngs] eqn:Ei. simpl in Hgs, Hngs.
  destruct (loop_nodes_trace w' t0 Hw ngs l gs σ Hr0)
    as (gs1 & σ1 & U & E1 & Ht1 & HU & Hr1 & Hgrow & Hmem).
  rewrite E1. cbn [mbind option_bind].
  destruct (loop_groups_trace w' t0 Hw gs1 σ1 Hr1)
    as (gs2 & σ2 & ts & Ss & E2 & Ht2 & -> & Hlt & HlS & HSs & Hr2).
  rewrite E2. cbn [mbind option_bind].
  assert (Hlen : length gs1 = length (Groups opts)).
  { rewrite <- (Forall2_length _ _ _ Hgrow), Hgs. apply length_map. }
  exists (Workflow.Emit (stopped_event w)
            (match Close_err (Workflow.c w) with
             | Some err =>
                 Workflow.Emit
                   (EventError (Wrapf err ("astiencoder: closing workflow "
                                            +:+ Workflow.name w +:+ " failed")))
             | None => id
             end
               (log CallClose (log (CallWait t0)
                  (Workflow.loop_callbacks
                     (zip_with (λ g t, {| sg_fn := sg_fn g; sg_ns := sg_ns g;
                                          sg_t := Some t |}) gs1 ts)
                     (Workflow.Emit (started_event w) σ2)))))), U, ts, Ss.
  split.
  { unfold Workflow.Close, started_event, stopped_event. simpl.
    by destruct (Close_err (Workflow.c w)). }
  split; [|split; [done|split; [congruence|split; [congruence|]]]].
  - rewrite loop_callbacks_trace.
    rewrite (callbacks_of_groups (Groups opts)).
    2:{ apply index_groups_callbacks. by rewrite Ei. }
    unfold closing_calls, Workflow.Emit, log.
    destruct (Close_err (Workflow.c w)); simpl; rewrite Ht2, Ht1;
      repeat rewrite <- app_assoc; simpl; done.
  - intros i t S Hi HS.
    assert (Hi1 : is_Some (gs1 !! i)).
    { apply lookup_lt_is_Some. rewrite <- Hlt. by eapply lookup_lt_Some. }
    destruct Hi1 as [g1 Hg1]. destruct (HSs i g1 t S Hg1 Hi HS) as [HF Hm].
    split; [done|]. intros n Hn Hg.
    destruct (Hmem n i Hn Hg) as (g' & Hg' & Hin).
    { rewrite (Forall2_length _ _ _ Hgrow), Hlen.
      apply Hngs in Hg as [(og & Hog & _) _]. by eapply lookup_lt_Some. }
    rewrite Hg1 in Hg'. injection Hg' as <-. by apply Hm.
Qed.

Lemma is_start_not_Close c : is_start c → c ≠ CallClose.
Proof. by destruct c. Qed.

Lemma callback_calls_not_Close ogs ts :
  Forall (λ c, c ≠ CallClose) (callback_calls ogs ts).
Proof.
  unfold callback_calls. apply Forall_forall. intros c Hc.
  apply list_elem_of_omap in Hc as ([og t] & _ & Hc).
  destruct (Callback og); simpl in Hc; [|done]. by injection Hc as <-.
Qed.

Lemma filter_none (P : Call → Prop) `{!∀ c, Decision (P c)} (l : list Call) :
  Forall (λ c, ¬ P c) l → filter P l = [].
Proof.
  induction 1 as [|c l Hc Hl IH]; [done|]. by rewrite filter_cons, decide_False.
Qed.

(** C6.  In the closure of [start], the call of [Wait] on the top-level
    task is followed by one call of [Close], then, when [Close] has returned
    an error, by the emission of an error event that wraps the error with
    the name of the workflow, then, in both cases, by the emission of the
    workflow-stopped event; [Close] is called exactly once in the run. *)
Theorem start_exec_closes (w : Workflow.Workflow) (l : list addr)
    (opts : WorkflowStartOptions) (t0 : task) (σ : World) :
  is_Some (BaseNode.Context (Workflow.bn w) σ) →
  ∃ σ' pre,
    Workflow.start_exec w l opts t0 σ = Some (Workflow.set_t (Some t0) w, σ') ∧
    trace σ' = trace σ ++ pre ++ [CallWait t0; CallClose]
               ++ match Close_err (Workflow.c w) with
                  | Some err =>
                      [CallEmit (EventError
                         (Wrapf err ("astiencoder: closing workflow "
                                      +:+ Workflow.name w +:+ " failed")))]
                  | None => []
                  end
               ++ [CallEmit (stopped_event w)] ∧
    (CallClose ∉ pre) ∧
    (∀ d, trace σ' = trace σ ++ d → length (filter (λ c, c = CallClose) d) = 1).
Proof.
  intros Hr.
  destruct (start_exec_trace w l opts t0 σ Hr)
    as (σ' & U & ts & Ss & E & Ht & HU & Hlt & HlS & HS).
  exists σ', (U ++ group_calls t0 ts Ss ++ [CallEmit (started_event w)]
              ++ callback_calls (Groups opts) ts).
  assert (Hpre : Forall (λ c, c ≠ CallClose)
                   (U ++ group_calls t0 ts Ss ++ [CallEmit (started_event w)]
                    ++ callback_calls (Groups opts) ts)).
  { apply Forall_app. split; [eapply Forall_impl; [exact HU|apply is_start_not_Close]|].
    apply Forall_app. split.
    - eapply Forall_impl; [|apply is_start_not_Close]. apply is_start_group_calls.
      apply Forall_forall. intros S HSin.
      apply list_elem_of_lookup in HSin as [i Hi].
      destruct (lookup_lt_is_Some_2 ts i) as [t Hti].
      { rewrite Hlt, <- HlS. by eapply lookup_lt_Some. }
      by destruct (HS i t S Hti Hi).
    - apply Forall_app. split; [by repeat constructor|apply callback_calls_not_Close]. }
  assert (Htr : trace σ'
    = trace σ ++ (U ++ group_calls t0 ts Ss ++ [CallEmit (started_event w)]
                  ++ callback_calls (Groups opts) ts)
      ++ [CallWait t0; CallClose]
      ++ match Close_err (Workflow.c w) with
         | Some err =>
             [CallEmit (EventError (Wrapf err ("astiencoder: closing workflow "
                                                +:+ Workflow.name w +:+ " failed")))]
         | None => []
         end
      ++ [CallEmit (stopped_event w)]).
  { rewrite Ht. unfold closing_calls. repeat rewrite <- app_assoc. done. }
  split; [done|]. split; [done|]. split.
  - intros Hin. by apply (proj1 (Forall_forall _ _) Hpre) in Hin.
  - intros d Hd. rewrite Htr in Hd. apply app_inv_head in Hd. subst d.
    rewrite filter_app, (filter_none _ _ Hpre).
    by destruct (Close_err (Workflow.c w)).
Qed.

Lemma start_exec_closes_witness :
  ∃ σ' pre,
    Workflow.start_exec wf_failing (Workflow.nodes map_to_list_order wf_failing)
      grouped 0 wf_launched
    = Some (Workflow.set_t (Some 0) wf_failing, σ') ∧
    trace σ' = trace wf_launched ++ pre ++ [CallWait 0; CallClose]
               ++ [CallEmit (EventError "astiencoder: closing workflow wf failed: disk full")]
               ++ [CallEmit (stopped_event wf_failing)] ∧
    (CallClose ∉ pre) ∧
    (∀ d, trace σ' = trace wf_launched ++ d →
          length (filter (λ c, c = CallClose) d) = 1).
Proof.
  apply (start_exec_closes wf_failing (Workflow.nodes map_to_list_order wf_failing)
           grouped 0 wf_launched).
  vm_compute. by eexists.
Defined.

(** *** The closure of [start], call by call *)

Lemma is_create_start c : is_create c → is_start c.
Proof. by destruct c. Qed.

Lemma started_exactly_nil (P : addr → Prop) tc :
  (∀ n, ¬ P n) → started_exactly P tc [].
Proof.
  intros HP. split; [constructor|]. split.
  - intros n Hn. by apply HP in Hn.
  - intros n cx tc' H. by apply elem_of_nil in H.
Qed.

Lemma started_exactly_app (P Q R : addr → Prop) tc S1 S2 :
  (∀ n, R n ↔ P n ∨ Q n) →
  started_exactly P tc S1 → started_exactly Q tc S2 →
  started_exactly R tc (S1 ++ S2).
Proof.
  intros HR (HF1 & Hin1 & Hout1) (HF2 & Hin2 & Hout2). split; [by apply Forall_app|].
  split.
  - intros n Hn. apply HR in Hn as [Hn|Hn].
    + destruct (Hin1 n Hn) as [cx H]. exists cx. apply elem_of_app. by left.
    + destruct (Hin2 n Hn) as [cx H]. exists cx. apply elem_of_app. by right.
  - intros n cx tc' H. rewrite HR. apply elem_of_app in H as [H|H].
    + destruct (Hout1 n cx tc' H). auto.
    + destruct (Hout2 n cx tc' H). auto.
Qed.

Lemma started_exactly_one n cx tc d :
  Forall is_create d → started_exactly (λ m, m = n) tc (CallStart n cx tc :: d).
Proof.
  intros Hd. split; [|split].
  - constructor; [done|]. eapply Forall_impl; [exact Hd|apply is_create_start].
  - intros m ->. exists cx. by left.
  - intros m cx' tc' H. apply elem_of_cons in H as [H|H]; [by injection H as -> -> ->|].
    by apply (proj1 (Forall_forall _ _) Hd) in H.
Qed.

Lemma Start_creates a c opts tc f σ :
  ∃ d, trace (BaseNode.Start a c opts tc f σ) = trace σ ++ d ∧ Forall is_create d.
Proof.
  destruct (done (oStart (node σ a))) eqn:Hd.
  { rewrite Start_started by done. exists []. by rewrite app_nil_r. }
  destruct (Err c σ) eqn:He.
  - rewrite Start_cancelled by done. exists []. by rewrite app_nil_r.
  - rewrite Start_live by done. eexists. split; [done|]. by repeat constructor.
Qed.

Section StartExact.
Variable w : Workflow.Workflow.
Variable t0 : task.
Hypothesis w_t : Workflow.t w = Some t0.

Lemma Node_Start_exact n cx tc σ :
  root_has_context w σ →
  ∃ d, trace (Workflow.Node_Start n cx tc σ) = trace σ ++ CallStart n cx tc :: d ∧
       Forall is_create d ∧ root_has_context w (Workflow.Node_Start n cx tc σ).
Proof.
  intros Hr. unfold Workflow.Node_Start.
  destruct (Start_creates n cx (o (node σ n)) tc (ExecNode n) (log (CallStart n cx tc) σ))
    as (d & Hd & Hs).
  exists d. split; [|split; [done|]].
  - rewrite Hd. unfold log. simpl. by rewrite <- app_assoc.
  - by apply Start_context.
Qed.

Lemma StartNodes_one_exact n σ :
  root_has_context w σ →
  ∃ σ' d, Workflow.StartNodes w [n] σ = Some σ' ∧
          trace σ' = trace σ ++ d ∧
          started_exactly (λ m, m = n) (NewSubTask t0) d ∧ root_has_context w σ'.
Proof.
  intros Hr. destruct (Hr) as [cx Hcx]. unfold Workflow.StartNodes. simpl.
  rewrite Hcx, w_t. simpl.
  destruct (Node_Start_exact n cx (NewSubTask t0) σ Hr) as (d & Hd & Hs & Hr').
  eexists _, _. split; [done|]. split; [exact Hd|]. split; [|done].
  by apply started_exactly_one.
Qed.

Lemma start_loop_exact t1 l σ :
  root_has_context w σ →
  ∃ σ' S,
    foldl (λ acc n, σ ← acc; cx ← BaseNode.Context (Workflow.bn w) σ;
                    Some (Workflow.Node_Start n cx (NewSubTask t1) σ)) (Some σ) l
    = Some σ' ∧
    trace σ' = trace σ ++ S ∧
    started_exactly (λ n, n ∈ l) (NewSubTask t1) S ∧ root_has_context w σ'.
Proof.
  revert σ. induction l as [|n l IH]; intros σ Hr.
  - exists σ, []. rewrite app_nil_r. repeat split; try done.
    + intros n Hn. by apply elem_of_nil in Hn.
    + by apply elem_of_nil in H.
    + by apply elem_of_nil in H.
  - destruct (Hr) as [cx Hcx]. cbn [foldl]. cbn [mbind option_bind]. rewrite Hcx.
    cbn [mbind option_bind].
    destruct (Node_Start_exact n cx (NewSubTask t1) σ Hr) as (d & Hd & Hs & Hr').
    destruct (IH _ Hr') as (σ' & S & E & Ht & HS & Hr'').
    exists σ', ((CallStart n cx (NewSubTask t1) :: d) ++ S). split; [exact E|].
    split; [|split; [|done]].
    + rewrite Ht, Hd. by rewrite <- app_assoc.
    + eapply started_exactly_app; [|by apply started_exactly_one|exact HS].
      intros m. apply elem_of_cons.
Qed.

Lemma StartNodesInSubTask_exact l σ :
  root_has_context w σ →
  ∃ σ' S,
    Workflow.StartNodesInSubTask w l σ = Some (length (tasks σ), σ') ∧
    trace σ' = trace σ ++ CallCreateTask (NewSubTask t0) (length (tasks σ)) :: S ∧
    started_exactly (λ n, n ∈ l) (NewSubTask (length (tasks σ))) S ∧
    root_has_context w σ'.
Proof.
  intros Hr. unfold Workflow.StartNodesInSubTask. rewrite w_t.
  cbn [mbind option_bind]. unfold create_task.
  set (σ1 := log _ _).
  destruct (start_loop_exact (length (tasks σ)) l σ1 Hr) as (σ' & S & E & Ht & HS & Hr').
  exists σ', S. rewrite E. cbn [mbind option_bind]. split; [done|].
  split; [|done]. rewrite Ht. subst σ1. unfold log. simpl. by rewrite <- app_assoc.
Qed.

(** The second loop of [start]: the nodes that [ngs] puts in no group are
    started, the others are put in their group, in the order of [l]. *)
Lemma loop_nodes_exact ngs l gs σ :
  root_has_context w σ →
  ∃ gs' σ' U,
    Workflow.loop_nodes w ngs l gs σ = Some (gs', σ') ∧
    trace σ' = trace σ ++ U ∧
    started_exactly (λ n, n ∈ l ∧ ngs !! n = None) (NewSubTask t0) U ∧
    root_has_context w σ' ∧
    length gs' = length gs ∧
    ∀ i g, gs !! i = Some g →
      ∃ g', gs' !! i = Some g' ∧ sg_fn g' = sg_fn g ∧ sg_t g' = sg_t g ∧
            sg_ns g' = sg_ns g ++ filter (λ n, ngs !! n = Some i) l.
Proof.
  unfold Workflow.loop_nodes. revert gs σ.
  induction l as [|n l IH]; intros gs σ Hr.
  - exists gs, σ, []. rewrite app_nil_r. split; [done|]. split; [done|].
    split; [apply started_exactly_nil; intros n [Hn _]; by apply elem_of_nil in Hn|].
    split; [done|]. split; [done|].
    intros i g Hg. exists g. by rewrite filter_nil, app_nil_r.
  - cbn [foldl]. cbn [mbind option_bind].
    destruct (ngs !! n) as [j|] eqn:E.
    + set (gs1 := alter _ j gs).
      destruct (IH gs1 σ Hr) as (gs' & σ' & U & El & Ht & HU & Hr' & Hlen & Hgs).
      exists gs', σ', U. split; [exact El|]. split; [done|]. split.
      { destruct HU as (HF & Hin & Hout). split; [done|]. split.
        - intros m [Hm Hnone]. apply Hin. split; [|done].
          apply elem_of_cons in Hm as [->|Hm]; [congruence|done].
        - intros m cx tc' H. destruct (Hout m cx tc' H) as [[Hm Hnone] ->].
          split; [|done]. split; [by right|done]. }
      split; [done|]. split; [by rewrite Hlen; apply length_alter|].
      intros i g Hg. rewrite filter_cons.
      destruct (decide (j = i)) as [->|Hne].
      * destruct (Hgs i {| sg_fn := sg_fn g; sg_ns := sg_ns g ++ [n]; sg_t := sg_t g |})
          as (g' & Hg' & Hf & Ht' & Hns).
        { subst gs1. by rewrite list_lookup_alter_eq, Hg. }
        exists g'. split; [done|]. split; [done|]. split; [done|].
        rewrite Hns. simpl. rewrite decide_True by done. by rewrite <- app_assoc.
      * destruct (Hgs i g) as (g' & Hg' & Hf & Ht' & Hns).
        { subst gs1. by rewrite list_lookup_alter_ne. }
        exists g'. split; [done|]. split; [done|]. split; [done|].
        rewrite Hns. rewrite decide_False; [done|]. congruence.
    + destruct (StartNodes_one_exact n σ Hr) as (σ1 & d & E1 & Ht1 & Hd & Hr1).
      rewrite E1. cbn [mbind option_bind].
      destruct (IH gs σ1 Hr1) as (gs' & σ' & U & El & Ht & HU & Hr' & Hlen & Hgs).
      exists gs', σ', (d ++ U). split; [exact El|]. split.
      { rewrite Ht, Ht1. by rewrite <- app_assoc. }
      split.
      { eapply started_exactly_app; [|exact Hd|exact HU].
        intros m. rewrite elem_of_cons. split.
        - intros [[->|Hm] Hnone]; auto.
        - intros [->|[Hm Hnone]]; auto. }
      split; [done|]. split; [done|].
      intros i g Hg. destruct (Hgs i g Hg) as (g' & Hg' & Hf & Ht' & Hns).
      exists g'. split; [done|]. split; [done|]. split; [done|].
      rewrite Hns, filter_cons. rewrite decide_False; [done|]. congruence.
Qed.

(** The third loop of [start]: every group gets its task and its nodes
    are started under it. *)
Lemma loop_groups_exact gs σ :
  root_has_context w σ →
  ∃ gs' σ' ts Ss,
    Workflow.loop_groups w gs σ = Some (gs', σ') ∧
    trace σ' = trace σ ++ group_calls t0 ts Ss ∧
    gs' = zip_with (λ g t, {| sg_fn := sg_fn g; sg_ns := sg_ns g; sg_t := Some t |})
            gs ts ∧
    length ts = length gs ∧ length Ss = length gs ∧
    (∀ i g t S, gs !! i = Some g → ts !! i = Some t → Ss !! i = Some S →
                started_exactly (λ n, n ∈ sg_ns g) (NewSubTask t) S) ∧
    root_has_context w σ'.
Proof.
  revert σ. induction gs as [|g gs IH]; intros σ Hr.
  - exists [], σ, [], []. unfold group_calls. simpl. rewrite app_nil_r.
    repeat split; try done.
  - simpl.
    destruct (StartNodesInSubTask_exact (sg_ns g) σ Hr) as (σ1 & S & E & Ht & HS & Hr1).
    rewrite E. cbn [mbind option_bind].
    destruct (IH σ1 Hr1) as (gs' & σ' & ts & Ss & El & Ht' & -> & Hlt & HlS & HSs & Hr').
    rewrite El. cbn [mbind option_bind].
    exists (zip_with (λ g t, {| sg_fn := sg_fn g; sg_ns := sg_ns g; sg_t := Some t |})
              (g :: gs) (length (tasks σ) :: ts)), σ', (length (tasks σ) :: ts), (S :: Ss).
    split; [done|]. split; [|split; [done|]].
    + rewrite Ht', Ht. unfold group_calls. simpl. by rewrite <- app_assoc.
    + split; [simpl; by rewrite Hlt|]. split; [simpl; by rewrite HlS|]. split; [|done].
      intros [|i] g' t' S' Hg Ht'' HS'; simpl in *; simplify_eq; [done|].
      by eapply HSs.
Qed.

End StartExact.

Lemma started_exactly_iff (P Q : addr → Prop) tc S :
  (∀ n, P n ↔ Q n) → started_exactly P tc S → started_exactly Q tc S.
Proof.
  intros HPQ (HF & Hin & Hout). split; [done|]. split.
  - intros n Hn. apply Hin. by apply HPQ.
  - intros n cx tc' H. destruct (Hout n cx tc' H). split; [by apply HPQ|done].
Qed.

(** A node that some group names has a last group that names it. *)
Lemma last_named_exists ogs n og :
  og ∈ ogs → n ∈ Nodes og → ∃ i, last_named ogs n i.
Proof.
  revert og. induction ogs as [|og' ogs IH] using rev_ind; intros og Hog Hn.
  { by apply elem_of_nil in Hog. }
  destruct (decide (n ∈ Nodes og')) as [Hin|Hnin].
  - exists (length ogs). split.
    + exists og'. split; [|done]. by rewrite lookup_app_r, Nat.sub_diag.
    + intros j og'' Hlt Hj. apply lookup_lt_Some in Hj.
      rewrite length_app in Hj. simpl in Hj. lia.
  - apply elem_of_app in Hog as [Hog|Hog].
    2:{ apply list_elem_of_singleton in Hog as ->. done. }
    destruct (IH og Hog Hn) as [i [(og1 & Hi & Hn1) Hlast]].
    exists i. split.
    + exists og1. split; [|done]. by apply lookup_app_l_Some.
    + intros j og'' Hlt Hj. apply lookup_app_Some in Hj as [Hj|[Hge Hj]].
      * by eapply Hlast.
      * apply list_lookup_singleton_Some in Hj as [_ <-]. done.
Qed.

(** The nodes that the first loop of [start] leaves without a group are
    the nodes that no group names. *)
Lemma group_of_None opts n : group_of opts n = None ↔ ungrouped opts n.
Proof.
  destruct (index_groups_spec opts) as [_ Hspec]. split.
  - intros Hnone og Hog Hn.
    destruct (last_named_exists _ _ _ Hog Hn) as [i Hi].
    apply Hspec in Hi. congruence.
  - intros Hun. destruct (group_of opts n) as [i|] eqn:E; [|done].
    apply Hspec in E as [(og & Hi & Hn) _]. exfalso.
    apply (Hun og); [|done]. by eapply list_elem_of_lookup_2.
Qed.

(** The trace of the closure of [start], with the nodes that each part
    of it starts. *)
Lemma start_exec_exact w l opts t0 σ :
  is_Some (BaseNode.Context (Workflow.bn w) σ) →
  ∃ σ' U ts Ss,
    Workflow.start_exec w l opts t0 σ = Some (Workflow.set_t (Some t0) w, σ') ∧
    trace σ' = trace σ ++ U ++ group_calls t0 ts Ss
               ++ [CallEmit (started_event w)]
               ++ callback_calls (Groups opts) ts
               ++ CallWait t0 :: closing_calls w ∧
    started_exactly (λ n, n ∈ l ∧ group_of opts n = None) (NewSubTask t0) U ∧
    length ts = length (Groups opts) ∧ length Ss = length (Groups opts) ∧
    ∀ i t S, ts !! i = Some t → Ss !! i = Some S →
      started_exactly (λ n, n ∈ l ∧ group_of opts n = Some i) (NewSubTask t) S.
Proof.
  intros Hr. unfold Workflow.start_exec.
  set (w' := Workflow.set_t (Some t0) w).
  assert (Hw : Workflow.t w' = Some t0) by done.
  assert (Hr0 : root_has_context w' σ) by done.
  pose proof (index_groups_spec opts) as [Hgs Hngs].
  unfold group_of in *.
  destruct (Workflow.index_groups opts) as [gs ngs] eqn:Ei. simpl in Hgs, Hngs.
  destruct (loop_nodes_exact w' t0 Hw ngs l gs σ Hr0)
    as (gs1 & σ1 & U & E1 & Ht1 & HU & Hr1 & Hlen1 & Hmem).
  rewrite E1. cbn [mbind option_bind].
  destruct (loop_groups_exact w' t0 Hw gs1 σ1 Hr1)
    as (gs2 & σ2 & ts & Ss & E2 & Ht2 & -> & Hlt & HlS & HSs & Hr2).
  rewrite E2. cbn [mbind option_bind].
  assert (Hlen : length gs1 = length (Groups opts)).
  { rewrite Hlen1, Hgs. apply length_map. }
  assert (Hfn : Forall2 (λ og g, sg_fn g = Callback og) (Groups opts) gs1).
  { apply Forall2_same_length_lookup. split; [done|].
    intros i og g1 Hog Hg1.
    destruct (Hmem i {| sg_fn := Callback og; sg_ns := []; sg_t := None |})
      as (g' & Hg' & Hf & _).
    { rewrite Hgs, list_lookup_fmap, Hog. done. }
    rewrite Hg1 in Hg'. injection Hg' as <-. done. }
  exists (Workflow.Emit (stopped_event w)
            (match Close_err (Workflow.c w) with
             | Some err =>
                 Workflow.Emit
                   (EventError (Wrapf err ("astiencoder: closing workflow "
                                            +:+ Workflow.name w +:+ " failed")))
             | None => id
             end
               (log CallClose (log (CallWait t0)
                  (Workflow.loop_callbacks
                     (zip_with (λ g t, {| sg_fn := sg_fn g; sg_ns := sg_ns g;
                                          sg_t := Some t |}) gs1 ts)
                     (Workflow.Emit (started_event w) σ2)))))), U, ts, Ss.
  split.
  { unfold Workflow.Close, started_event, stopped_event. simpl.
    by destruct (Close_err (Workflow.c w)). }
  split; [|split; [done|split; [congruence|split; [congruence|]]]].
  - rewrite loop_callbacks_trace.
    rewrite (callbacks_of_groups (Groups opts)) by done.
    unfold closing_calls, Workflow.Emit, log.
    destruct (Close_err (Workflow.c w)); simpl; rewrite Ht2, Ht1;
      repeat rewrite <- app_assoc; simpl; done.
  - intros i t S Hi HS.
    assert (Hi0 : is_Some (Groups opts !! i)).
    { apply lookup_lt_is_Some. rewrite <- Hlen, <- Hlt. by eapply lookup_lt_Some. }
    destruct Hi0 as [og Hog].
    destruct (Hmem i {| sg_fn := Callback og; sg_ns := []; sg_t := None |})
      as (g1 & Hg1 & _ & _ & Hns).
    { rewrite Hgs, list_lookup_fmap, Hog. done. }
    eapply started_exactly_iff; [|by apply (HSs i g1 t S)].
    intros n. rewrite Hns. simpl. by rewrite list_elem_of_filter, (comm and).
Qed.

(** C8, as the code has it.  The closure of [start] first starts the nodes
    of [l] that no group names, these and no other, under the top-level
    task; then, group after group, it spawns one sub-task of the top-level
    task and starts under it the nodes of [l] whose last naming group this
    is, these and no other; after all groups it emits the workflow-started
    event; only then does it call the callbacks that are present, in the
    order of the groups, each with the sub-task of its group; then it calls
    [Wait].  So a callback runs after the [Start] calls of the nodes of its
    group, after the workflow-started event, and before [Wait]. *)
Theorem start_exec_groups (w : Workflow.Workflow) (l : list addr)
    (opts : WorkflowStartOptions) (t0 : task) (σ : World) :
  is_Some (BaseNode.Context (Workflow.bn w) σ) →
  ∃ σ' U ts Ss,
    Workflow.start_exec w l opts t0 σ = Some (Workflow.set_t (Some t0) w, σ') ∧
    trace σ' = trace σ ++ U ++ group_calls t0 ts Ss
               ++ [CallEmit (started_event w)]
               ++ callback_calls (Groups opts) ts
               ++ CallWait t0 :: closing_calls w ∧
    started_exactly (λ n, n ∈ l ∧ ungrouped opts n) (NewSubTask t0) U ∧
    length ts = length (Groups opts) ∧ length Ss = length (Groups opts) ∧
    ∀ i t S, ts !! i = Some t → Ss !! i = Some S →
      started_exactly (λ n, n ∈ l ∧ last_named (Groups opts) n i) (NewSubTask t) S.
Proof.
  intros Hr.
  destruct (start_exec_exact w l opts t0 σ Hr)
    as (σ' & U & ts & Ss & E & Ht & HU & Hlt & HlS & HS).
  exists σ', U, ts, Ss. split; [done|]. split; [done|]. split.
  { eapply started_exactly_iff; [|exact HU]. intros n. simpl.
    by rewrite group_of_None. }
  split; [done|]. split; [done|].
  intros i t S Hi HSi. eapply started_exactly_iff; [|by apply (HS i t S)].
  intros n. simpl. destruct (index_groups_spec opts) as [_ Hspec]. by rewrite Hspec.
Qed.

Lemma start_exec_groups_witness :
  ∃ σ' U ts Ss,
    Workflow.start_exec wf_indexed (Workflow.nodes map_to_list_order wf_indexed)
      grouped 0 wf_launched
    = Some (Workflow.set_t (Some 0) wf_indexed, σ') ∧
    trace σ' = trace wf_launched ++ U ++ group_calls 0 ts Ss
               ++ [CallEmit (started_event wf_indexed)]
               ++ callback_calls (Groups grouped) ts
               ++ CallWait 0 :: closing_calls wf_indexed ∧
    started_exactly
      (λ n, n ∈ Workflow.nodes map_to_list_order wf_indexed ∧ ungrouped grouped n)
      (NewSubTask 0) U ∧
    length ts = 1 ∧ length Ss = 1 ∧
    ∀ i t S, ts !! i = Some t → Ss !! i = Some S →
      started_exactly
        (λ n, n ∈ Workflow.nodes map_to_list_order wf_indexed
              ∧ last_named (Groups grouped) n i)
        (NewSubTask t) S.
Proof.
  apply (start_exec_groups wf_indexed (Workflow.nodes map_to_list_order wf_indexed)
           grouped 0 wf_launched).
  vm_compute. by eexists.
Defined.

(** C8 as stated fails: the workflow-started event is emitted before the
    callback of the group is called, not after. *)
Lemma start_exec_groups_counterexample :
  ∃ σ',
    Workflow.start_exec wf_indexed (Workflow.nodes map_to_list_order wf_indexed)
      grouped 0 wf_launched
    = Some (Workflow.set_t (Some 0) wf_indexed, σ') ∧
    trace σ'
    = [CallCreateTask TaskFactory 0;
       CallStart 1 [0] (NewSubTask 0); CallCreateTask (NewSubTask 0) 1;
       CallCreateTask (NewSubTask 0) 2;
       CallStart 0 [0] (NewSubTask 2); CallCreateTask (NewSubTask 2) 3;
       CallEmit (started_event wf_indexed);
       CallCallback 7 (Some 2);
       CallWait 0; CallClose;
       CallEmit (stopped_event wf_indexed)] ∧
    ¬ precedes (CallCallback 7 (Some 2)) (CallEmit (started_event wf_indexed))
        (trace σ').
Proof.
  eexists. split; [by vm_compute|]. split; [by vm_compute|].
  vm_compute. intros H.
  repeat (apply elem_of_cons in H as [H|H]; [discriminate H|]).
  by apply elem_of_nil in H.
Qed.

(** * Further properties *)

(** ** [Children] and [Parents]: sorted snapshots *)

Lemma sorted_keys_sorted (m : gmap string addr) :
  StronglySorted String.le (sorted_keys m).
Proof. unfold sorted_keys. apply StronglySorted_merge_sort; apply _. Qed.

Lemma edges_values (m : gmap string addr) :
  omap (λ k, m !! k) (sorted_keys m) ≡ₚ (map_to_list m).*2.
Proof.
  unfold sorted_keys. rewrite merge_sort_Permutation.
  assert (H : ∀ l : list (string * addr),
            Forall (λ kv, m !! kv.1 = Some kv.2) l →
            omap (λ k, m !! k) (map fst l) = l.*2).
  { induction 1 as [|[k v] l Hkv Hl IH]; [done|]. cbn [map omap list_omap fst snd] in *.
    rewrite Hkv. cbn. f_equal. exact IH. }
  rewrite H; [done|]. apply Forall_forall. intros [k v] Hin.
  by apply elem_of_map_to_list in Hin.
Qed.

Lemma edges_names (m : gmap string addr) (nm : addr → string) :
  (∀ k x, m !! k = Some x → nm x = k) →
  map nm (omap (λ k, m !! k) (sorted_keys m)) = sorted_keys m.
Proof.
  intros Hkey.
  assert (H : ∀ l, Forall (λ k, is_Some (m !! k)) l →
                   map nm (omap (λ k, m !! k) l) = l).
  { induction 1 as [|k l [x Hk] Hl IH]; [done|]. cbn [omap list_omap].
    rewrite Hk. cbn [map]. f_equal; [by apply Hkey|exact IH]. }
  apply H, Forall_forall. intros k. apply sorted_keys_elem.
Qed.

(** The snapshot that [Children] returns has every child once, in the
    order of the names; likewise [Parents]. *)
Theorem Children_Parents_sorted (a : addr) (σ : World) :
  (BaseNode.Children a σ ≡ₚ (map_to_list (children (node σ a))).*2 ∧
   (children_keyed a σ →
      let names := map (λ c, Name (md (node σ c))) (BaseNode.Children a σ) in
      StronglySorted String.le names ∧ NoDup names ∧
      NoDup (BaseNode.Children a σ))) ∧
  (BaseNode.Parents a σ ≡ₚ (map_to_list (parents (node σ a))).*2 ∧
   (parents_keyed a σ →
      let names := map (λ p, Name (md (node σ p))) (BaseNode.Parents a σ) in
      StronglySorted String.le names ∧ NoDup names ∧
      NoDup (BaseNode.Parents a σ))).
Proof.
  unfold BaseNode.Children, BaseNode.Parents. split; (split; [apply edges_values|]).
  - intros Hkey. cbn zeta.
    rewrite (edges_names _ (λ c, Name (md (node σ c)))) by exact Hkey.
    split; [apply sorted_keys_sorted|]. split; [apply sorted_keys_NoDup|].
    apply NoDup_edges. intros k1 k2 x H1 H2.
    by rewrite <- (Hkey k1 x H1), <- (Hkey k2 x H2).
  - intros Hkey. cbn zeta.
    rewrite (edges_names _ (λ c, Name (md (node σ c)))) by exact Hkey.
    split; [apply sorted_keys_sorted|]. split; [apply sorted_keys_NoDup|].
    apply NoDup_edges. intros k1 k2 x H1 H2.
    by rewrite <- (Hkey k1 x H1), <- (Hkey k2 x H2).
Qed.

Lemma family_reversed_keyed : children_keyed 0 family_reversed.
Proof.
  intros k x H.
  assert (Hm : children (node family_reversed 0) = {[ "A" := 1; "B" := 2 ]})
    by (by vm_compute).
  rewrite Hm in H.
  apply lookup_insert_Some in H as [[<- <-]|[_ H]]; [done|].
  apply lookup_singleton_Some in H as [<- <-]. done.
Qed.

Lemma Children_Parents_sorted_witness :
  map (λ c, Name (md (node family_reversed c))) (BaseNode.Children 0 family_reversed)
  = ["A"; "B"] ∧
  NoDup (BaseNode.Children 0 family_reversed).
Proof.
  destruct (Children_Parents_sorted 0 family_reversed) as [[_ H] _].
  destruct (H family_reversed_keyed) as (_ & _ & Hnd).
  split; [reflexivity|exact Hnd].
Defined.

(** ** [Stop] and the start/stop cycle *)

(** [Stop] twice is [Stop] once; [Stop] fires the stop guard, leaves the
    other nodes, the tasks, the goroutines and the trace as they are, and
    cancels at most the token of the node. *)
Theorem Stop_idempotent (a : addr) (σ : World) :
  BaseNode.Stop a (BaseNode.Stop a σ) = BaseNode.Stop a σ ∧
  done (oStop (node (BaseNode.Stop a σ) a)) = true ∧
  (∀ b, b ≠ a → node (BaseNode.Stop a σ) b = node σ b) ∧
  tasks (BaseNode.Stop a σ) = tasks σ ∧
  goroutines (BaseNode.Stop a σ) = goroutines σ ∧
  trace (BaseNode.Stop a σ) = trace σ ∧
  (∀ k, k ∈ cancelled (BaseNode.Stop a σ) →
        k ∈ cancelled σ ∨ cancel (node σ a) = Some k).
Proof.
  assert (Hd : done (oStop (node (BaseNode.Stop a σ) a)) = true).
  { rewrite Stop_node. by destruct (done (oStop (node σ a))) eqn:E. }
  split; [by apply Stop_stopped|]. split; [done|].
  split; [intros b Hb; by apply Stop_node_other|].
  destruct (done (oStop (node σ a))) eqn:E.
  - rewrite Stop_stopped by done. repeat split; auto.
  - rewrite Stop_fires by done. simpl. repeat split; try done.
    intros k Hk. destruct (cancel (node σ a)) as [k'|]; [|by left].
    apply elem_of_union in Hk as [Hk|Hk]; [|by left].
    apply elem_of_singleton in Hk as ->. by right.
Qed.

Lemma Err_true c σ : Err c σ = true ↔ ∃ k, k ∈ c ∧ k ∈ cancelled σ.
Proof.
  unfold Err. rewrite existsb_exists. split.
  - intros (k & Hin & Hk). exists k. split; [by apply list_elem_of_In|].
    by apply bool_decide_eq_true in Hk.
  - intros (k & Hin & Hk). exists k. split; [by apply list_elem_of_In|].
    by apply bool_decide_eq_true.
Qed.

Lemma Err_false c σ : Err c σ = false ↔ ∀ k, k ∈ c → k ∉ cancelled σ.
Proof.
  rewrite <- not_true_iff_false, Err_true. split.
  - intros H k Hin Hk. apply H. eauto.
  - intros H (k & Hin & Hk). by apply (H k).
Qed.

(** After a [Start] that goes through, in a world where the cancelled
    tokens have been handed out, the node is running. *)
Lemma Start_live_running a σ c opts tc f :
  done (oStart (node σ a)) = false → Err c σ = false → cancelled_allocated σ →
  BaseNode.IsStopped a (BaseNode.Start a c opts tc f σ) = false.
Proof.
  intros Hd He Hcan. rewrite Start_live by done.
  unfold BaseNode.IsStopped, BaseNode.Context, node. simpl.
  rewrite lookup_total_insert_eq.
  change (Err (tokens σ :: c)
            {| heap := <[a:=started_node (tokens σ) c opts (node σ a)]> (heap σ);
               cancelled := cancelled σ; tokens := S (tokens σ);
               tasks := tasks σ ++ [new_task tc];
               goroutines := goroutines σ
                 ++ [{| g_node := a; g_task := length (tasks σ); g_exec := f |}];
               trace := trace σ ++ [CallCreateTask tc (length (tasks σ))] |} = false).
  apply Err_false. intros k Hk. simpl.
  apply elem_of_cons in Hk as [->|Hk].
  - intros Hin. apply Hcan in Hin. lia.
  - by apply (proj1 (Err_false c σ) He).
Qed.

(** One cycle: a [Start] under a live scope, then [Stop].  The node is
    running after the [Start] and stopped after the [Stop]; the [Stop]
    does not cancel the scope the node was started under; the start guard
    is reset, and a further [Start] under a live scope launches the exec
    function a second time. *)
Theorem Start_Stop_cycle (a : addr) (σ : World) (c : Ctx)
    (opts : WorkflowStartOptions) (tc : CreateTaskFunc) (f : BaseNodeExecFunc) :
  done (oStart (node σ a)) = false → Err c σ = false →
  scope_allocated c σ → cancelled_allocated σ →
  let σ1 := BaseNode.Start a c opts tc f σ in
  let σ2 := BaseNode.Stop a σ1 in
  BaseNode.IsStopped a σ1 = false ∧
  BaseNode.IsStopped a σ2 = true ∧
  Err c σ2 = false ∧
  done (oStart (node σ2 a)) = false ∧
  ∀ c' opts' tc' f', Err c' σ2 = false →
    goroutines (BaseNode.Start a c' opts' tc' f' σ2)
    = goroutines σ
      ++ [{| g_node := a; g_task := length (tasks σ); g_exec := f |};
          {| g_node := a; g_task := S (length (tasks σ)); g_exec := f' |}].
Proof.
  intros Hd He Hc Hcan σ1 σ2.
  assert (E1 : σ1 = _) by (subst σ1; by apply Start_live).
  assert (Hn1 : node σ1 a = started_node (tokens σ) c opts (node σ a)).
  { subst σ2. clearbody σ1. rewrite E1. unfold node. simpl.
    by rewrite lookup_total_insert_eq. }
  assert (E2 : σ2 = _) by (subst σ2; apply Stop_fires; by rewrite Hn1).
  rewrite Hn1 in E2. simpl in E2. clearbody σ2. clearbody σ1.
  assert (Hcan1 : cancelled σ1 = cancelled σ) by (by rewrite E1).
  assert (Hfresh : tokens σ ∉ cancelled σ).
  { intros Hin. apply Hcan in Hin. lia. }
  assert (Hn2 : node σ2 a
                = set_oStop {| done := true |}
                    (set_oStart {| done := false |}
                       (started_node (tokens σ) c opts (node σ a)))).
  { rewrite E2. unfold node. simpl. by rewrite lookup_total_insert_eq. }
  split; [|split; [|split; [|split]]].
  - unfold BaseNode.IsStopped, BaseNode.Context. rewrite Hn1.
    change (Err (tokens σ :: c) σ1 = false).
    apply Err_false. intros k Hk. rewrite Hcan1.
    apply elem_of_cons in Hk as [->|Hk]; [done|].
    by apply (proj1 (Err_false c σ) He).
  - unfold BaseNode.IsStopped, BaseNode.Context. rewrite Hn2.
    change (Err (tokens σ :: c) σ2 = true).
    apply Err_true. exists (tokens σ). split; [by left|].
    rewrite E2. simpl. set_solver.
  - apply Err_false. intros k Hk. rewrite E2. simpl. rewrite Hcan1.
    intros [Hin|Hin]%elem_of_union.
    + apply elem_of_singleton in Hin as ->. apply Hc in Hk. lia.
    + by apply (proj1 (Err_false c σ) He k).
  - by rewrite Hn2.
  - intros c' opts' tc' f' He'. rewrite Start_live; [|by rewrite Hn2|done].
    simpl. rewrite E2. simpl. rewrite E1. simpl.
    rewrite <- app_assoc, length_app. simpl. by rewrite Nat.add_1_r.
Qed.

Lemma one_node_allocated :
  scope_allocated [] one_node ∧ cancelled_allocated one_node.
Proof.
  split; [intros k Hk; by apply elem_of_nil in Hk|].
  intros k Hk. change (k ∈ ({[0]} : gset nat)) in Hk.
  apply elem_of_singleton in Hk as ->. simpl. lia.
Qed.

Lemma Start_Stop_cycle_witness :
  let σ1 := BaseNode.Start 0 [] no_options TaskFactory (ExecNode 0) one_node in
  let σ2 := BaseNode.Stop 0 σ1 in
  BaseNode.IsStopped 0 σ1 = false ∧
  BaseNode.IsStopped 0 σ2 = true ∧
  goroutines (BaseNode.Start 0 [] no_options TaskFactory (ExecNode 0) σ2)
  = [{| g_node := 0; g_task := 0; g_exec := ExecNode 0 |};
     {| g_node := 0; g_task := 1; g_exec := ExecNode 0 |}].
Proof.
  destruct (Start_Stop_cycle 0 one_node [] no_options TaskFactory (ExecNode 0)
              eq_refl eq_refl (proj1 one_node_allocated) (proj2 one_node_allocated))
    as (H1 & H2 & _ & _ & H5).
  split; [exact H1|]. split; [exact H2|].
  exact (H5 [] no_options TaskFactory (ExecNode 0) eq_refl).
Defined.

(** ** [Workflow.Stop]: the cancellation goes down *)

(** A node under the scope of another: [Stop] on the node above stops the
    node below. *)
Lemma Stop_cascades r n σ cr cn k :
  ctx (node σ r) = Some cr → cancel (node σ r) = Some k → k ∈ cr →
  done (oStop (node σ r)) = false →
  ctx (node σ n) = Some cn → cr `suffix_of` cn →
  BaseNode.IsStopped n (BaseNode.Stop r σ) = true.
Proof.
  intros Hcr Hk Hin Hs Hcn [pre ->].
  unfold BaseNode.IsStopped, BaseNode.Context.
  assert (Hctx : ctx (node (BaseNode.Stop r σ) n) = Some (pre ++ cr)).
  { destruct (decide (r = n)) as [->|Hne].
    - rewrite Stop_node, Hs. simpl. done.
    - by rewrite Stop_node_other. }
  rewrite Hctx. apply Err_true. exists k. split; [apply elem_of_app; by right|].
  rewrite Stop_cancelled, Hs, Hk. set_solver.
Qed.

(** [Workflow.Stop] stops the root and every node that [StartNodes] or
    [StartNodesInSubTask] has started under the context of the root: a node
    started by [Node_Start] under a live context of the root is running, and
    is stopped once the workflow is stopped. *)
Theorem Workflow_Stop_cascades (w : Workflow.Workflow) (n : addr) (σ : World)
    (cx : Ctx) (k : token) (tc : CreateTaskFunc) :
  BaseNode.Context (Workflow.bn w) σ = Some cx →
  cancel (node σ (Workflow.bn w)) = Some k → k ∈ cx →
  done (oStop (node σ (Workflow.bn w))) = false →
  n ≠ Workflow.bn w → done (oStart (node σ n)) = false →
  Err cx σ = false → scope_allocated cx σ → cancelled_allocated σ →
  let σ1 := Workflow.Node_Start n cx tc σ in
  BaseNode.IsStopped n σ1 = false ∧
  BaseNode.IsStopped (Workflow.bn w) σ1 = false ∧
  BaseNode.IsStopped n (Workflow.Stop w σ1) = true ∧
  BaseNode.IsStopped (Workflow.bn w) (Workflow.Stop w σ1) = true.
Proof.
  intros Hcx Hk Hin Hs Hne Hd He Hc Hcan σ1.
  set (σl := log (CallStart n cx tc) σ).
  assert (E1 : σ1 = _) by (subst σ1; unfold Workflow.Node_Start; by apply Start_live).
  fold σl in E1. clearbody σ1.
  assert (Hn : node σ1 n = started_node (tokens σ) cx (o (node σl n)) (node σ n)).
  { rewrite E1. unfold node. simpl. by rewrite lookup_total_insert_eq. }
  assert (Hr : node σ1 (Workflow.bn w) = node σ (Workflow.bn w)).
  { rewrite E1. unfold node. simpl. by rewrite lookup_total_insert_ne. }
  assert (Hcan1 : cancelled σ1 = cancelled σ) by (by rewrite E1).
  assert (Hlive : ∀ k', k' ∈ tokens σ :: cx → k' ∉ cancelled σ1).
  { intros k' Hk'. rewrite Hcan1. apply elem_of_cons in Hk' as [->|Hk'].
    - intros Hin'. apply Hcan in Hin'. lia.
    - by apply (proj1 (Err_false cx σ) He). }
  split; [|split; [|split]].
  - unfold BaseNode.IsStopped, BaseNode.Context. rewrite Hn.
    change (Err (tokens σ :: cx) σ1 = false). by apply Err_false.
  - unfold BaseNode.IsStopped, BaseNode.Context in *. rewrite Hr, Hcx.
    apply Err_false. intros k' Hk'. apply Hlive. by right.
  - unfold Workflow.Stop. apply (Stop_cascades _ _ _ cx (tokens σ :: cx) k);
      rewrite ?Hr, ?Hn; try done. by exists [tokens σ].
  - unfold Workflow.Stop. apply (Stop_cascades _ _ _ cx cx k); rewrite ?Hr; done.
Qed.

Lemma wf_launched_allocated :
  scope_allocated [0] wf_launched ∧ cancelled_allocated wf_launched.
Proof.
  split.
  - intros k Hk. apply list_elem_of_singleton in Hk as ->. vm_compute. lia.
  - intros k Hk. assert (E : cancelled wf_launched = ∅) by (by vm_compute).
    rewrite E in Hk. by apply elem_of_empty in Hk.
Qed.

Lemma Workflow_Stop_cascades_witness :
  let σ1 := Workflow.Node_Start 0 [0] (NewSubTask 0) wf_launched in
  BaseNode.IsStopped 0 σ1 = false ∧
  BaseNode.IsStopped 2 σ1 = false ∧
  BaseNode.IsStopped 0 (Workflow.Stop wf_indexed σ1) = true ∧
  BaseNode.IsStopped 2 (Workflow.Stop wf_indexed σ1) = true.
Proof.
  assert (H0 : 0 ∈ [0]) by (by left).
  assert (Hne : 0 ≠ Workflow.bn wf_indexed) by (vm_compute; discriminate).
  exact (Workflow_Stop_cascades wf_indexed 0 wf_launched [0] 0 (NewSubTask 0)
           eq_refl eq_refl H0 eq_refl Hne eq_refl eq_refl
           (proj1 wf_launched_allocated) (proj2 wf_launched_allocated)).
Defined.

Section ParentsAutoStop.
Variables (a : addr) (ch : gmap string addr) (k : token) (cx : Ctx).
Variable can : gset token.

Lemma parents_auto_stop_inv_step seen σ m :
  parents_auto_stop_inv a ch k cx can seen σ →
  parents_auto_stop_inv a ch k cx can ({[Name m]} ∪ seen) (BaseNode.ParentIsDone a m σ).
Proof.
  intros (Hch & Ho & Hd & Hc & Hx & Hcan & Hs).
  destruct (ch !! Name m) as [c|] eqn:E.
  - (* a known parent *)
    unfold BaseNode.ParentIsDone. rewrite Hch, E. cbn zeta.
    set (n' := set_parentsDone _ _).
    assert (Hd' : dom (parentsDone n') = ({[Name m]} ∪ seen) ∩ dom ch).
    { subst n'. simpl. rewrite dom_insert_L, Hd.
      apply elem_of_dom_2 in E. set_solver. }
    assert (Hsz : size (parentsDone n') = size (parents n')
                  ↔ dom ch ⊆ {[Name m]} ∪ seen).
    { rewrite <- !size_dom, Hd'. subst n'. simpl. rewrite Hch. split.
      - intros Hsz.
        assert (({[Name m]} ∪ seen) ∩ dom ch = dom ch) as <-; [|set_solver].
        apply set_subseteq_size_eq; [set_solver|lia].
      - intros Hsub. f_equal. set_solver. }
    replace (StopWhenNodesAreDone (o n')) with true by (subst n'; simpl; done).
    simpl andb. case_bool_decide as Hb.
    + (* every child is done: Stop *)
      apply Hsz in Hb. unfold parents_auto_stop_inv.
      rewrite Stop_node, Stop_cancelled, !node_store_eq.
      rewrite (decide_True _ _ Hb).
      assert (Hcan' : cancelled (store a n' σ) = cancelled σ) by done.
      rewrite Hcan', Hcan.
      destruct (done (oStop n')) eqn:Hst.
      * repeat split; try (subst n'; simpl; done).
        destruct (decide (dom ch ⊆ seen)) as [|Hn]; [done|].
        apply Hs in Hn. subst n'. simpl in Hst. congruence.
      * replace (cancel n') with (Some k) by (subst n'; simpl; done).
        repeat split; try (subst n'; simpl; done).
        destruct (decide (dom ch ⊆ seen)); set_solver.
    + assert (Hn : ¬ dom ch ⊆ {[Name m]} ∪ seen) by (intros ?; by apply Hb, Hsz).
      unfold parents_auto_stop_inv. rewrite node_store_eq.
      rewrite (decide_False _ _ Hn).
      assert (Hn0 : ¬ dom ch ⊆ seen) by set_solver.
      repeat split; try (subst n'; simpl; done).
      * change (cancelled (store a n' σ)) with (cancelled σ).
        by rewrite Hcan, (decide_False _ _ Hn0).
      * intros _. subst n'. simpl. by apply Hs.
  - (* an unknown name *)
    rewrite ParentIsDone_unknown by (by rewrite Hch).
    apply not_elem_of_dom_2 in E.
    assert (Heq : dom ch ⊆ {[Name m]} ∪ seen ↔ dom ch ⊆ seen) by set_solver.
    unfold parents_auto_stop_inv. repeat split; try done.
    + rewrite Hd. set_solver.
    + rewrite Hcan. destruct (decide (dom ch ⊆ seen)) as [H1|H1];
        [rewrite decide_True|rewrite decide_False]; try done; by rewrite Heq.
    + intros H1. apply Hs. by rewrite <- Heq.
Qed.

Lemma parents_auto_stop_inv_calls ms seen σ :
  parents_auto_stop_inv a ch k cx can seen σ →
  parents_auto_stop_inv a ch k cx can (list_to_set (Name <$> ms) ∪ seen)
                (ParentIsDone_calls a ms σ).
Proof.
  unfold ParentIsDone_calls. revert seen σ.
  induction ms as [|m ms IH]; intros seen σ H; simpl.
  - by rewrite (left_id_L ∅ (∪)).
  - apply (parents_auto_stop_inv_step _ _ m), IH in H.
    by rewrite (comm_L (∪) {[Name m]}), <- (assoc_L (∪)).
Qed.

Lemma parents_auto_stop_inv_IsStopped seen σ :
  k ∈ cx → existsb (λ k, bool_decide (k ∈ can)) cx = false →
  parents_auto_stop_inv a ch k cx can seen σ →
  BaseNode.IsStopped a σ = true ↔ dom ch ⊆ seen.
Proof.
  intros Hk Hlive (_ & _ & _ & _ & Hx & Hcan & _).
  unfold BaseNode.IsStopped, BaseNode.Context. rewrite Hx. unfold Err. rewrite Hcan.
  destruct (decide (dom ch ⊆ seen)) as [H|H].
  - split; [done|]. intros _. apply existsb_exists. exists k.
    split; [by apply list_elem_of_In|]. apply bool_decide_eq_true. set_solver.
  - rewrite Hlive. split; [done|]. intros; done.
Qed.

End ParentsAutoStop.

(** A node with auto-stop, at least one parent, no done notification
    recorded yet and a live scope of its own: after done notifications for
    the names of [ms] it is stopped exactly when every parent is among
    them. *)
Theorem ParentIsDone_auto_stop (a : addr) (σ : World) (k : token) (cx : Ctx) :
  parents (node σ a) ≠ ∅ →
  StopWhenNodesAreDone (o (node σ a)) = true →
  parentsDone (node σ a) = ∅ →
  done (oStop (node σ a)) = false →
  cancel (node σ a) = Some k →
  ctx (node σ a) = Some cx →
  k ∈ cx →
  BaseNode.IsStopped a σ = false →
  ∀ ms, BaseNode.IsStopped a (ParentIsDone_calls a ms σ) = true
        ↔ ∀ p, p ∈ dom (parents (node σ a)) → p ∈ Name <$> ms.
Proof.
  intros Hne Ho Hd Hs Hc Hx Hk Hlive ms.
  assert (Hlive' : existsb (λ k, bool_decide (k ∈ cancelled σ)) cx = false).
  { unfold BaseNode.IsStopped, BaseNode.Context in Hlive. by rewrite Hx in Hlive. }
  assert (Hinv : parents_auto_stop_inv a (parents (node σ a)) k cx (cancelled σ) ∅ σ).
  { unfold parents_auto_stop_inv. rewrite Hd, dom_empty_L.
    repeat split; try done; [set_solver|].
    rewrite decide_False; [done|]. intros Hsub.
    apply Hne. apply dom_empty_iff_L. set_solver. }
  apply (parents_auto_stop_inv_calls _ _ _ _ _ ms) in Hinv.
  rewrite (right_id_L ∅ (∪)) in Hinv.
  rewrite (parents_auto_stop_inv_IsStopped _ _ _ _ _ _ _ Hk Hlive' Hinv).
  split.
  - intros Hsub p Hp. apply Hsub in Hp. by apply elem_of_list_to_set in Hp.
  - intros Hall p Hp. apply elem_of_list_to_set. by apply Hall.
Qed.

Lemma ParentIsDone_auto_stop_witness :
  BaseNode.IsStopped 2 (ParentIsDone_calls 2 [meta "p"] chain_child_running) = false ∧
  BaseNode.IsStopped 2 (ParentIsDone_calls 2 [meta "p"; meta "A"] chain_child_running)
  = true.
Proof.
  assert (H0 : 0 ∈ [0]) by (by left).
  assert (Hne : parents (node chain_child_running 2) ≠ ∅).
  { intros H. apply (f_equal (λ m, m !! "A")) in H. vm_compute in H. discriminate. }
  pose proof (ParentIsDone_auto_stop 2 chain_child_running 0 [0] Hne
                eq_refl eq_refl eq_refl eq_refl eq_refl H0 eq_refl) as H.
  assert (Hdom : dom (parents (node chain_child_running 2)) = {["A"]})
    by (by vm_compute).
  split.
  - apply not_true_is_false. rewrite (H [meta "p"]). intros Hall.
    specialize (Hall "A"). rewrite Hdom in Hall.
    assert (Hin : "A" ∈ Name <$> [meta "p"]) by (apply Hall; by apply elem_of_singleton).
    apply list_elem_of_singleton in Hin. discriminate.
  - apply (H [meta "p"; meta "A"]). intros p Hp. rewrite Hdom in Hp.
    apply elem_of_singleton in Hp as ->. right. by left.
Defined.

(** ** Without auto-stop *)

Lemma only_marks_refl a σ : only_marks a σ σ.
Proof. unfold only_marks. repeat split; done. Qed.

Lemma only_marks_trans a σ1 σ2 σ3 :
  only_marks a σ1 σ2 → only_marks a σ2 σ3 → only_marks a σ1 σ3.
Proof.
  unfold only_marks.
  intros (? & ? & ? & ? & ? & Hb1 & ? & ? & ? & ? & ? & ? & ? & ? & ?)
         (? & ? & ? & ? & ? & Hb2 & ? & ? & ? & ? & ? & ? & ? & ? & ?).
  repeat split; try congruence.
  intros b Hb. rewrite Hb2 by done. by apply Hb1.
Qed.

Lemma only_marks_store a n σ :
  cancel n = cancel (node σ a) → children n = children (node σ a) →
  ctx n = ctx (node σ a) → md n = md (node σ a) → o n = o (node σ a) →
  oStart n = oStart (node σ a) → oStop n = oStop (node σ a) →
  parents n = parents (node σ a) → status n = status (node σ a) →
  only_marks a σ (store a n σ).
Proof.
  intros. unfold only_marks. rewrite !node_store_eq. repeat split; try done.
  intros b Hb. by rewrite node_store_ne.
Qed.

Lemma ChildIsDone_no_auto_stop a m σ :
  StopWhenNodesAreDone (o (node σ a)) = false →
  only_marks a σ (BaseNode.ChildIsDone a m σ).
Proof.
  intros Ho. unfold BaseNode.ChildIsDone.
  destruct (children (node σ a) !! Name m); [|apply only_marks_refl].
  cbn zeta. cbn [o set_childrenDone]. rewrite Ho. cbn [andb].
  by apply only_marks_store.
Qed.

Lemma ParentIsDone_no_auto_stop a m σ :
  StopWhenNodesAreDone (o (node σ a)) = false →
  only_marks a σ (BaseNode.ParentIsDone a m σ).
Proof.
  intros Ho. unfold BaseNode.ParentIsDone.
  destruct (parents (node σ a) !! Name m); [|apply only_marks_refl].
  cbn zeta. cbn [o set_parentsDone]. rewrite Ho. cbn [andb].
  by apply only_marks_store.
Qed.

(** A node whose options do not ask for auto-stop is never stopped by done
    notifications: whatever is notified, of either kind and in any number,
    only the done marks of the node change. *)
Theorem IsDone_no_auto_stop (a : addr) (σ : World) (ns : list Notification) :
  StopWhenNodesAreDone (o (node σ a)) = false →
  only_marks a σ (IsDone_calls a ns σ) ∧
  BaseNode.IsStopped a (IsDone_calls a ns σ) = BaseNode.IsStopped a σ.
Proof.
  intros Ho.
  assert (H : only_marks a σ (IsDone_calls a ns σ)).
  { unfold IsDone_calls. revert σ Ho.
    induction ns as [|n ns IH]; intros σ Ho; [apply only_marks_refl|].
    cbn [foldl]. set (σ1 := match n with ChildDone _ => _ | ParentDone _ => _ end).
    assert (H1 : only_marks a σ σ1).
    { subst σ1. destruct n;
        [by apply ChildIsDone_no_auto_stop|by apply ParentIsDone_no_auto_stop]. }
    eapply only_marks_trans; [exact H1|]. apply IH.
    unfold only_marks in H1. destruct_and!. congruence. }
  split; [done|]. unfold only_marks in H. destruct_and!.
  unfold BaseNode.IsStopped, BaseNode.Context.
  match goal with Hc : ctx _ = ctx _ |- _ => rewrite Hc end.
  destruct (ctx (node σ a)); [|done]. by apply Err_cancelled.
Qed.

Lemma IsDone_no_auto_stop_witness :
  BaseNode.IsStopped 1
    (IsDone_calls 1 [ChildDone (meta "B"); ParentDone (meta "p"); ChildDone (meta "B")]
       chain_running)
  = false.
Proof.
  apply (IsDone_no_auto_stop 1 chain_running
           [ChildDone (meta "B"); ParentDone (meta "p"); ChildDone (meta "B")]).
  reflexivity.
Defined.

(** ** The done marks outlive a cycle *)

(** Nothing resets the done marks: on a node whose children have all been
    marked done, a new [Start] with auto-stop leaves the marks, so that the
    first done notification of a child stops the node again. *)
Theorem done_marks_outlive_Start (a : addr) (σ : World) (c : Ctx)
    (opts : WorkflowStartOptions) (tc : CreateTaskFunc) (f : BaseNodeExecFunc)
    (m : NodeMetadata) :
  done (oStart (node σ a)) = false → Err c σ = false →
  scope_allocated c σ → cancelled_allocated σ →
  StopWhenNodesAreDone opts = true →
  dom (childrenDone (node σ a)) = dom (children (node σ a)) →
  is_Some (children (node σ a) !! Name m) →
  let σ1 := BaseNode.Start a c opts tc f σ in
  childrenDone (node σ1 a) = childrenDone (node σ a) ∧
  BaseNode.IsStopped a σ1 = false ∧
  BaseNode.IsStopped a (BaseNode.ChildIsDone a m σ1) = true.
Proof.
  intros Hd He Hc Hcan Ho Hdom [x Hx] σ1.
  pose proof (Start_live_running a σ c opts tc f Hd He Hcan) as Hrun.
  fold σ1 in Hrun.
  assert (E1 : σ1 = _) by (subst σ1; by apply Start_live).
  clearbody σ1.
  assert (Hn1 : node σ1 a = started_node (tokens σ) c opts (node σ a)).
  { rewrite E1. unfold node. simpl. by rewrite lookup_total_insert_eq. }
  split; [by rewrite Hn1|]. split; [done|].
  unfold BaseNode.ChildIsDone. rewrite Hn1.
  change (children (started_node (tokens σ) c opts (node σ a)))
    with (children (node σ a)).
  rewrite Hx. cbn zeta.
  set (n' := set_childrenDone _ _).
  assert (Hsz : size (childrenDone n') = size (children n')).
  { rewrite <- !size_dom. subst n'. simpl. rewrite dom_insert_L, Hdom. f_equal.
    apply elem_of_dom_2 in Hx. set_solver. }
  replace (StopWhenNodesAreDone (o n')) with true by (subst n'; simpl; done).
  rewrite (bool_decide_eq_true_2 _ Hsz). cbn [andb].
  unfold BaseNode.IsStopped, BaseNode.Context.
  rewrite Stop_node, node_store_eq.
  replace (done (oStop n')) with false by (subst n'; done).
  change (Err (tokens σ :: c) (BaseNode.Stop a (store a n' σ1)) = true).
  apply Err_true. exists (tokens σ). split; [by left|].
  rewrite Stop_cancelled, node_store_eq.
  replace (done (oStop n')) with false by (subst n'; done).
  replace (cancel n') with (Some (tokens σ)) by (subst n'; done).
  set_solver.
Qed.

Lemma family_done_allocated :
  scope_allocated [] family_done ∧ cancelled_allocated family_done.
Proof.
  split; [intros k Hk; by apply elem_of_nil in Hk|].
  intros k Hk. assert (E : cancelled family_done = {[0]}) by (by vm_compute).
  rewrite E in Hk. apply elem_of_singleton in Hk as ->. vm_compute. lia.
Qed.

Lemma done_marks_outlive_Start_witness :
  let σ1 := BaseNode.Start 0 [] auto_stop TaskFactory (ExecNode 0) family_done in
  BaseNode.IsStopped 0 σ1 = false ∧
  BaseNode.IsStopped 0 (BaseNode.ChildIsDone 0 (meta "A") σ1) = true.
Proof.
  assert (Hk : is_Some (children (node family_done 0) !! Name (meta "A")))
    by (vm_compute; by eexists).
  assert (Hdom : dom (childrenDone (node family_done 0))
                 = dom (children (node family_done 0))) by (by vm_compute).
  destruct (done_marks_outlive_Start 0 family_done [] auto_stop TaskFactory (ExecNode 0)
              (meta "A") eq_refl eq_refl (proj1 family_done_allocated)
              (proj2 family_done_allocated) eq_refl Hdom Hk) as (_ & H1 & H2).
  split; [exact H1|exact H2].
Defined.

(** ** [IndexNodes] as a sequence of registrations *)

Section Walk.
Variable σ : World.

Lemma foldl_None {A B} (F : option A → B → option A) l :
  (∀ x, F None x = None) → foldl F None l = None.
Proof. intros HF. induction l as [|x l IH]; [done|]. cbn [foldl]. by rewrite HF. Qed.

Lemma indexNodesFunc_walk fuel l w :
  Workflow.indexNodesFunc fuel σ l w
  = (λ ws, Workflow.set_ns (file_nodes σ (Workflow.ns w) ws) w) <$> walk fuel σ l.
Proof.
  revert l w. induction fuel as [|fuel IH]; intros l w; [done|].
  cbn [Workflow.indexNodesFunc walk].
  assert (H : ∀ ws0,
    foldl (λ acc n, w ← acc;
             Workflow.indexNodesFunc fuel σ (BaseNode.Children n σ)
               (Workflow.set_ns (<[Name (BaseNode.Metadata n σ) := n]> (Workflow.ns w)) w))
          (Some (Workflow.set_ns (file_nodes σ (Workflow.ns w) ws0) w)) l
    = (λ ws, Workflow.set_ns (file_nodes σ (Workflow.ns w) ws) w)
      <$> foldl (λ acc n, ws ← acc; ws' ← walk fuel σ (BaseNode.Children n σ);
                          Some (ws ++ n :: ws')) (Some ws0) l).
  { induction l as [|n l IHl]; intros ws0; cbn [foldl]; [done|].
    cbn [mbind option_bind]. rewrite IH.
    destruct (walk fuel σ (BaseNode.Children n σ)) as [ws'|]; cbn [fmap option_fmap option_map mbind option_bind].
    - rewrite <- (IHl (ws0 ++ n :: ws')). f_equal. f_equal.
      unfold file_nodes, Workflow.set_ns, BaseNode.Metadata. simpl.
      by rewrite foldl_app.
    - rewrite !foldl_None; [done| |]; by intros. }
  specialize (H []). unfold file_nodes at 1 in H. simpl in H.
  rewrite <- H. by destruct w.
Qed.

Lemma walk_loop_elem (g : addr → option (list addr)) (P : addr → addr → Prop) l :
  (∀ n ws', g n = Some ws' → ∀ a, a ∈ ws' ↔ P n a) →
  ∀ ws0 ws,
    foldl (λ acc n, ws ← acc; ws' ← g n; Some (ws ++ n :: ws')) (Some ws0) l = Some ws →
    ∀ a, a ∈ ws ↔ a ∈ ws0 ∨ ∃ n, n ∈ l ∧ (a = n ∨ P n a).
Proof.
  intros Hg. induction l as [|n l IH]; intros ws0 ws H a; cbn [foldl] in H.
  - injection H as <-. split; [by left|]. intros [?|(n & Hn & _)]; [done|].
    by apply elem_of_nil in Hn.
  - cbn [mbind option_bind] in H. destruct (g n) as [ws'|] eqn:E.
    + cbn [mbind option_bind] in H. rewrite (IH _ _ H a).
      rewrite elem_of_app, elem_of_cons, (Hg n ws' E a). split.
      * intros [[?|[->|?]]|(x & Hx & Hax)]; eauto.
        -- right. exists n. split; [by left|by left].
        -- right. exists n. split; [by left|by right].
        -- right. exists x. split; [by right|done].
      * intros [?|(x & Hx & Hax)]; [by left; left|].
        apply elem_of_cons in Hx as [->|Hx]; [|right; eauto].
        left. right. destruct Hax; [by left|by right].
    + cbn [mbind option_bind] in H. rewrite foldl_None in H; [done|by intros].
Qed.

Lemma walk_elem fuel l ws :
  walk fuel σ l = Some ws → ∀ a, a ∈ ws ↔ walked σ l a.
Proof.
  revert l ws. induction fuel as [|fuel IH]; intros l ws H; [done|].
  cbn [walk] in H. intros a.
  rewrite (walk_loop_elem (λ n, walk fuel σ (BaseNode.Children n σ)) (reach σ)
             l ltac:(intros n ws' E b; rewrite (IH _ _ E b); apply walked_children)
             [] ws H a).
  unfold walked. split; [intros [?|?]; [by apply elem_of_nil in H0|done]|by right].
Qed.

(** What a registry holds under [k] once the nodes [ws] are filed: the
    last node of [ws] that has this name, or else what it held. *)
Lemma file_nodes_lookup r ws k :
  file_nodes σ r ws !! k
  = match list_find (λ n, Name (md (node σ n)) = k) (reverse ws) with
    | Some (_, n) => Some n
    | None => r !! k
    end.
Proof.
  unfold file_nodes. induction ws as [|n ws IH] using rev_ind; [done|].
  rewrite foldl_snoc, reverse_snoc. cbn [list_find].
  destruct (decide (Name (md (node σ n)) = k)) as [<-|Hne].
  - by rewrite lookup_insert_eq.
  - rewrite lookup_insert_ne by done. rewrite IH.
    by destruct (list_find _ (reverse ws)) as [[i x]|].
Qed.

Lemma file_nodes_twice r ws :
  file_nodes σ (file_nodes σ r ws) ws = file_nodes σ r ws.
Proof.
  apply map_eq. intros k. rewrite (file_nodes_lookup (file_nodes σ r ws)).
  rewrite (file_nodes_lookup r ws k).
  by destruct (list_find _ (reverse ws)) as [[i x]|].
Qed.

Lemma cyclic_from_child a :
  cyclic_from σ a → ∃ b, b ∈ BaseNode.Children a σ ∧ cyclic_from σ b.
Proof.
  intros (n & [->|Hr] & Hn).
  - inversion Hn as [? ? Hc|? b ? Hb Hba]; subst.
    + exists a. split; [done|]. exists a. auto.
    + exists b. split; [done|]. exists a. auto.
  - inversion Hr as [? ? Hc|? b ? Hb Hbn]; subst.
    + exists n. split; [done|]. exists n. auto.
    + exists b. split; [done|]. exists n. auto.
Qed.

Lemma walk_cycle fuel l :
  (∃ a, a ∈ l ∧ cyclic_from σ a) → walk fuel σ l = None.
Proof.
  revert l. induction fuel as [|fuel IH]; intros l (a & Ha & Hc); [done|].
  cbn [walk]. generalize (Some (@nil addr)). intros acc.
  revert acc. induction l as [|n l IHl]; intros acc; [by apply elem_of_nil in Ha|].
  cbn [foldl]. apply elem_of_cons in Ha as [<-|Ha]; [|by apply IHl].
  rewrite (IH (BaseNode.Children a σ)) by (by apply cyclic_from_child).
  destruct acc; cbn [mbind option_bind]; (rewrite foldl_None; [done|by intros]).
Qed.

End Walk.

(** [IndexNodes] files the nodes reached from the root in the registry it
    has, one after the other in the order of the walk, each under its name:
    the nodes filed are the nodes reached, and where two of them have the
    same name, the one that the walk comes to last has the entry. *)
Theorem IndexNodes_files_walk (fuel : nat) (w w' : Workflow.Workflow) (σ : World) :
  Workflow.IndexNodes fuel w σ = Some w' →
  ∃ ws, walk fuel σ (BaseNode.Children (Workflow.bn w) σ) = Some ws ∧
        w' = Workflow.set_ns (file_nodes σ (Workflow.ns w) ws) w ∧
        (∀ a, a ∈ ws ↔ reach σ (Workflow.bn w) a) ∧
        ∀ k, Workflow.ns w' !! k
             = match list_find (λ n, Name (md (node σ n)) = k) (reverse ws) with
               | Some (_, n) => Some n
               | None => Workflow.ns w !! k
               end.
Proof.
  unfold Workflow.IndexNodes. rewrite indexNodesFunc_walk.
  destruct (walk fuel σ _) as [ws|] eqn:E; [|done]. simpl. intros [= <-].
  exists ws. split; [done|]. split; [done|]. split.
  - intros a. rewrite (walk_elem σ _ _ _ E a). apply walked_children.
  - intros k. apply file_nodes_lookup.
Qed.

Lemma IndexNodes_files_walk_witness :
  ∃ ws, walk 2 wf_built (BaseNode.Children (Workflow.bn wf) wf_built) = Some ws ∧
        wf_indexed = Workflow.set_ns (file_nodes wf_built (Workflow.ns wf) ws) wf ∧
        (∀ a, a ∈ ws ↔ reach wf_built (Workflow.bn wf) a) ∧
        ∀ k, Workflow.ns wf_indexed !! k
             = match list_find (λ n, Name (md (node wf_built n)) = k) (reverse ws) with
               | Some (_, n) => Some n
               | None => Workflow.ns wf !! k
               end.
Proof.
  apply (IndexNodes_files_walk 2 wf wf_indexed wf_built). reflexivity.
Defined.

(** A second [IndexNodes] on the same graph changes nothing. *)
Theorem IndexNodes_idempotent (fuel : nat) (w w' : Workflow.Workflow) (σ : World) :
  Workflow.IndexNodes fuel w σ = Some w' →
  Workflow.IndexNodes fuel w' σ = Some w'.
Proof.
  unfold Workflow.IndexNodes. rewrite !indexNodesFunc_walk.
  destruct (walk fuel σ (BaseNode.Children (Workflow.bn w) σ)) as [ws|] eqn:E; [|done].
  simpl. intros [= <-]. simpl. rewrite E. simpl.
  by rewrite file_nodes_twice.
Qed.

Lemma IndexNodes_idempotent_witness :
  Workflow.IndexNodes 2 wf_indexed wf_built = Some wf_indexed.
Proof. apply (IndexNodes_idempotent 2 wf wf_indexed wf_built). reflexivity. Defined.

(** [IndexNodes] has no guard against cycles: when a cycle can be reached
    from the root, the walk does not return, however deep the stack. *)
Theorem IndexNodes_cycle (w : Workflow.Workflow) (σ : World) (n : addr) :
  reach σ (Workflow.bn w) n → reach σ n n →
  ∀ fuel, Workflow.IndexNodes fuel w σ = None.
Proof.
  intros Hr Hn fuel. unfold Workflow.IndexNodes. rewrite indexNodesFunc_walk.
  rewrite walk_cycle; [done|].
  destruct (cyclic_from_child σ (Workflow.bn w)) as (b & Hb & Hc); [|eauto].
  exists n. auto.
Qed.

Lemma IndexNodes_cycle_witness :
  Workflow.IndexNodes 1000 wf wf_cycle = None.
Proof.
  apply (IndexNodes_cycle wf wf_cycle 0).
  - apply reach_child. vm_compute. by left.
  - eapply reach_step; [|apply reach_child]; vm_compute; by left.
Defined.

(** ** The edges stay filed under the names *)

Lemma same_graph_keyed σ σ' : same_graph σ σ' → edges_keyed σ → edges_keyed σ'.
Proof.
  intros Hg Hk a. destruct (Hk a) as [Hc Hp]. destruct (Hg a) as (_ & Hca & Hpa).
  split; intros k x Hx.
  - rewrite Hca in Hx. destruct (Hg x) as (-> & _). by apply Hc.
  - rewrite Hpa in Hx. destruct (Hg x) as (-> & _). by apply Hp.
Qed.

Lemma same_edges_graph σ σ' : same_edges σ σ' → same_graph σ σ'.
Proof. by intros (_ & _ & H). Qed.

Lemma same_graph_trans σ1 σ2 σ3 :
  same_graph σ1 σ2 → same_graph σ2 σ3 → same_graph σ1 σ3.
Proof.
  intros H1 H2 b. destruct (H1 b) as (? & ? & ?), (H2 b) as (? & ? & ?).
  repeat split; congruence.
Qed.

Lemma Start_same_graph a c opts tc f σ :
  same_graph σ (BaseNode.Start a c opts tc f σ).
Proof.
  intros b. destruct (done (oStart (node σ a))) eqn:Hd; [by rewrite Start_started|].
  destruct (Err c σ) eqn:He.
  - rewrite Start_cancelled by done.
    destruct (decide (a = b)) as [->|Hne];
      [by rewrite node_store_eq|by rewrite node_store_ne].
  - rewrite Start_live by done. unfold node. simpl.
    destruct (decide (a = b)) as [->|Hne].
    + by rewrite lookup_total_insert_eq.
    + by rewrite lookup_total_insert_ne.
Qed.

Lemma notify_same_graph a σ : same_graph σ (BaseNode.notify a σ).
Proof.
  unfold BaseNode.notify.
  destruct (notify_loop CallParentIsDone BaseNode.ParentIsDone a
              (BaseNode.Children a σ) σ ParentIsDone_same_edges) as (_ & _ & Hn).
  set (σ1 := foldl _ σ (BaseNode.Children a σ)) in *.
  destruct (notify_loop CallChildIsDone BaseNode.ChildIsDone a
              (BaseNode.Parents a σ1) σ1 ChildIsDone_same_edges) as (_ & _ & Hn').
  by apply (same_graph_trans σ σ1).
Qed.

Lemma completion_same_graph a t out σ :
  same_graph σ (BaseNode.completion a t out σ).
Proof.
  unfold BaseNode.completion. cbn zeta.
  set (σn := match out with Returned => _ | Panicked => _ end).
  assert (Hn : same_graph σ σn).
  { subst σn. destruct out; [apply notify_same_graph|by intros b]. }
  eapply same_graph_trans; [exact Hn|].
  intros b. destruct (Stop_same_edges a (log (CallStop a) σn)) as (_ & _ & H).
  exact (H b).
Qed.

Lemma AddChild_keyed a i σ : edges_keyed σ → edges_keyed (BaseNode.AddChild a i σ).
Proof.
  intros Hk b. destruct (Hk b) as [Hc Hp]. split; intros k x Hx.
  - rewrite AddChild_md. destruct (decide (a = b)) as [->|Hne].
    + rewrite AddChild_children in Hx.
      destruct (children (node σ b) !! Name (md (node σ i))) eqn:E; [by apply Hc|].
      apply lookup_insert_Some in Hx as [[<- <-]|[_ Hx]]; [done|by apply Hc].
    + rewrite AddChild_children_other in Hx by done. by apply Hc.
  - rewrite AddChild_md. rewrite AddChild_parents in Hx. by apply Hp.
Qed.

Lemma AddParent_parents_other a i σ b :
  a ≠ b → parents (node (BaseNode.AddParent a i σ) b) = parents (node σ b).
Proof.
  intros Hne. unfold BaseNode.AddParent. destruct (parents (node σ a) !! _); [done|].
  by rewrite node_store_ne.
Qed.

Lemma AddParent_keyed a i σ : edges_keyed σ → edges_keyed (BaseNode.AddParent a i σ).
Proof.
  intros Hk b. destruct (Hk b) as [Hc Hp]. split; intros k x Hx.
  - rewrite AddParent_md. rewrite AddParent_children in Hx. by apply Hc.
  - rewrite AddParent_md. destruct (decide (a = b)) as [->|Hne].
    + rewrite AddParent_parents in Hx.
      destruct (parents (node σ b) !! Name (md (node σ i))) eqn:E; [by apply Hp|].
      apply lookup_insert_Some in Hx as [[<- <-]|[_ Hx]]; [done|by apply Hp].
    + rewrite AddParent_parents_other in Hx by done. by apply Hp.
Qed.

(** The methods of [BaseNode] keep every edge filed under the name of the
    node it leads to: [AddChild], [AddParent] and [ConnectNodes] file the new
    edge under the name of the node, and no other method touches the edges
    or the metadata. *)
Theorem edges_keyed_invariant (σ : World) :
  edges_keyed σ →
  (∀ a i, edges_keyed (BaseNode.AddChild a i σ)) ∧
  (∀ a i, edges_keyed (BaseNode.AddParent a i σ)) ∧
  (∀ p c, edges_keyed (ConnectNodes p c σ)) ∧
  (∀ a c opts tc f, edges_keyed (BaseNode.Start a c opts tc f σ)) ∧
  (∀ a, edges_keyed (BaseNode.Stop a σ)) ∧
  (∀ a m, edges_keyed (BaseNode.ChildIsDone a m σ)) ∧
  (∀ a m, edges_keyed (BaseNode.ParentIsDone a m σ)) ∧
  (∀ a t out, edges_keyed (BaseNode.completion a t out σ)).
Proof.
  intros Hk. split_and!.
  - intros. by apply AddChild_keyed.
  - intros. by apply AddParent_keyed.
  - intros. by apply AddParent_keyed, AddChild_keyed.
  - intros. eapply same_graph_keyed; [apply Start_same_graph|done].
  - intros. eapply same_graph_keyed; [apply same_edges_graph, Stop_same_edges|done].
  - intros. eapply same_graph_keyed; [apply same_edges_graph, ChildIsDone_same_edges|done].
  - intros. eapply same_graph_keyed; [apply same_edges_graph, ParentIsDone_same_edges|done].
  - intros. eapply same_graph_keyed; [apply completion_same_graph|done].
Qed.

Lemma three_nodes_keyed : edges_keyed three_nodes.
Proof.
  assert (H : ∀ a, children (node three_nodes a) = ∅ ∧ parents (node three_nodes a) = ∅).
  { intros a. unfold node. rewrite lookup_total_alt.
    destruct (heap three_nodes !! a) as [n|] eqn:E; [|done].
    unfold three_nodes in E. simpl in E.
    repeat (apply lookup_insert_Some in E as [[<- <-]|[? E]]; [done|]).
    by apply lookup_singleton_Some in E as [<- <-]. }
  intros a. destruct (H a) as [Hc Hp]. split; intros k x Hx.
  - by rewrite Hc in Hx.
  - by rewrite Hp in Hx.
Qed.

Lemma edges_keyed_invariant_witness :
  edges_keyed (ConnectNodes 0 1 three_nodes) ∧
  edges_keyed (BaseNode.Start 1 [] no_options TaskFactory (ExecNode 1) three_nodes).
Proof.
  destruct (edges_keyed_invariant three_nodes three_nodes_keyed)
    as (_ & _ & H3 & H4 & _).
  split; [apply H3|apply H4].
Defined.

(** ** The order of registration does not matter *)

Lemma AddChild_unfold a i σ :
  BaseNode.AddChild a i σ
  = match children (node σ a) !! Name (md (node σ i)) with
    | Some _ => σ
    | None => store a (set_children (<[Name (md (node σ i)) := i]> (children (node σ a)))
                         (node σ a)) σ
    end.
Proof. done. Qed.

(** Two children with different names can be added in either order: the
    node, and so the snapshot that [Children] returns, is the same. *)
Theorem AddChild_commute (a i j : addr) (σ : World) :
  Name (md (node σ i)) ≠ Name (md (node σ j)) →
  BaseNode.AddChild a i (BaseNode.AddChild a j σ)
  = BaseNode.AddChild a j (BaseNode.AddChild a i σ) ∧
  BaseNode.Children a (BaseNode.AddChild a i (BaseNode.AddChild a j σ))
  = BaseNode.Children a (BaseNode.AddChild a j (BaseNode.AddChild a i σ)).
Proof.
  intros Hne.
  assert (E : BaseNode.AddChild a i (BaseNode.AddChild a j σ)
              = BaseNode.AddChild a j (BaseNode.AddChild a i σ)); [|by rewrite E].
  rewrite (AddChild_unfold a i (BaseNode.AddChild a j σ)).
  rewrite (AddChild_unfold a j (BaseNode.AddChild a i σ)).
  rewrite !AddChild_md, !AddChild_children.
  rewrite !AddChild_unfold.
  destruct (children (node σ a) !! Name (md (node σ i))) as [x|] eqn:Ei;
    destruct (children (node σ a) !! Name (md (node σ j))) as [y|] eqn:Ej.
  - rewrite ?Ei, ?Ej. done.
  - rewrite ?lookup_insert_ne by done. rewrite ?Ei, ?Ej. done.
  - rewrite ?lookup_insert_ne by done. rewrite ?Ei, ?Ej. done.
  - rewrite ?lookup_insert_ne by done. rewrite ?Ei, ?Ej.
    rewrite !node_store_eq, !store_store. unfold set_children. simpl.
    f_equal. f_equal. by apply insert_insert_ne.
Qed.

Lemma AddChild_commute_witness :
  BaseNode.Children 0 (BaseNode.AddChild 0 1 (BaseNode.AddChild 0 2 three_nodes))
  = BaseNode.Children 0 (BaseNode.AddChild 0 2 (BaseNode.AddChild 0 1 three_nodes)).
Proof.
  apply (AddChild_commute 0 1 2 three_nodes). vm_compute. discriminate.
Defined.

(** ** [StartNodes] and [StartNodesInSubTask] on nodes that have not been
    started *)

Section Launch.
Variable w : Workflow.Workflow.
Variables (cx : Ctx) (tc : CreateTaskFunc).

Lemma launch_loop (step : addr → World → option World) l σ :
  (∀ n σ, BaseNode.Context (Workflow.bn w) σ = Some cx →
          step n σ = Some (Workflow.Node_Start n cx tc σ)) →
  BaseNode.Context (Workflow.bn w) σ = Some cx → Err cx σ = false →
  NoDup l → Workflow.bn w ∉ l →
  (∀ n, n ∈ l → done (oStart (node σ n)) = false) →
  ∃ σ',
    foldl (λ acc n, σ ← acc; step n σ) (Some σ) l = Some σ' ∧
    tasks σ' = tasks σ ++ replicate (length l) (new_task tc) ∧
    goroutines σ' = goroutines σ ++ launched (length (tasks σ)) l ∧
    trace σ' = trace σ ++ launch_calls cx tc (length (tasks σ)) l ∧
    cancelled σ' = cancelled σ ∧
    BaseNode.Context (Workflow.bn w) σ' = Some cx ∧
    (∀ n, n ∈ l → done (oStart (node σ' n)) = true) ∧
    (∀ b, b ∉ l → node σ' b = node σ b).
Proof.
  intros Hstep. unfold launched, launch_calls. revert σ.
  induction l as [|n l IH]; intros σ Hcx He Hnd Hroot Hfresh.
  - exists σ. rewrite !app_nil_r. split_and!; try done.
    intros n Hn. by apply elem_of_nil in Hn.
  - apply NoDup_cons in Hnd as [Hn Hnd].
    apply not_elem_of_cons in Hroot as [Hrn Hroot].
    cbn [foldl]. cbn [mbind option_bind]. rewrite (Hstep n σ Hcx).
    set (σl := log (CallStart n cx tc) σ).
    assert (Hfn : done (oStart (node σl n)) = false) by (apply Hfresh; by left).
    pose proof (Start_live n σl cx (o (node σ n)) tc (ExecNode n) Hfn He) as E1.
    change (BaseNode.Start n cx (o (node σ n)) tc (ExecNode n) σl)
      with (Workflow.Node_Start n cx tc σ) in E1.
    set (σ1 := Workflow.Node_Start n cx tc σ) in *. clearbody σ1.
    assert (Hother : ∀ b, b ≠ n → node σ1 b = node σ b).
    { intros b Hb. rewrite E1. unfold node. simpl. by rewrite lookup_total_insert_ne. }
    destruct (IH σ1) as (σ' & E & Ht & Hg & Htr & Hcan & Hcx' & Hdone & Hframe);
      try done.
    + unfold BaseNode.Context. rewrite Hother by done. exact Hcx.
    + rewrite <- He. apply Err_cancelled. by rewrite E1.
    + intros m Hm. rewrite Hother; [apply Hfresh; by right|]. intros ->. done.
    + exists σ'. split; [exact E|].
      assert (Hlen : length (tasks σ1) = S (length (tasks σ))).
      { rewrite E1. simpl. rewrite length_app. simpl. lia. }
      split_and!.
      * rewrite Ht, E1. simpl. by rewrite <- app_assoc.
      * rewrite Hg, Hlen, E1. simpl. rewrite <- app_assoc. f_equal.
        simpl. rewrite Nat.add_0_r. f_equal. apply imap_ext.
        intros i x _. simpl. f_equal. lia.
      * rewrite Htr, Hlen, E1. simpl. rewrite <- !app_assoc. f_equal.
        simpl. rewrite Nat.add_0_r. f_equal. f_equal. f_equal. apply imap_ext.
        intros i x _. simpl. repeat f_equal. lia.
      * rewrite Hcan. by rewrite E1.
      * done.
      * intros m Hm. apply elem_of_cons in Hm as [->|Hm]; [|by apply Hdone].
        rewrite Hframe by done. rewrite E1. unfold node. simpl.
        by rewrite lookup_total_insert_eq.
      * intros b Hb. apply not_elem_of_cons in Hb as [Hbn Hb].
        rewrite Hframe by done. by apply Hother.
Qed.

End Launch.

(** [StartNodes] on nodes that have not been started, under a live context
    of the root: every node is launched, each with a task of its own that is
    a direct sub-task of the task of the workflow. *)
Theorem StartNodes_launches (w : Workflow.Workflow) (l : list addr) (σ : World)
    (t0 : task) (cx : Ctx) :
  Workflow.t w = Some t0 →
  BaseNode.Context (Workflow.bn w) σ = Some cx → Err cx σ = false →
  NoDup l → Workflow.bn w ∉ l →
  (∀ n, n ∈ l → done (oStart (node σ n)) = false) →
  ∃ σ',
    Workflow.StartNodes w l σ = Some σ' ∧
    tasks σ' = tasks σ ++ replicate (length l) (new_task (NewSubTask t0)) ∧
    goroutines σ' = goroutines σ ++ launched (length (tasks σ)) l ∧
    trace σ' = trace σ ++ launch_calls cx (NewSubTask t0) (length (tasks σ)) l ∧
    (∀ n, n ∈ l → done (oStart (node σ' n)) = true) ∧
    (∀ b, b ∉ l → node σ' b = node σ b).
Proof.
  intros Ht Hcx He Hnd Hroot Hfresh.
  destruct (launch_loop w cx (NewSubTask t0)
              (λ n σ, cx ← BaseNode.Context (Workflow.bn w) σ;
                      t0 ← Workflow.t w;
                      Some (Workflow.Node_Start n cx (NewSubTask t0) σ))
              l σ) as (σ' & E & H1 & H2 & H3 & _ & _ & H4 & H5); try done.
  { intros n σ0 H0. rewrite H0, Ht. done. }
  exists σ'. split; [exact E|]. by split_and!.
Qed.

Lemma StartNodes_launches_witness :
  ∃ σ',
    Workflow.StartNodes (Workflow.set_t (Some 0) wf_indexed) [0; 1] wf_launched = Some σ' ∧
    tasks σ' = tasks wf_launched ++ replicate 2 (new_task (NewSubTask 0)) ∧
    goroutines σ' = goroutines wf_launched ++ launched 1 [0; 1] ∧
    trace σ' = trace wf_launched ++ launch_calls [0] (NewSubTask 0) 1 [0; 1] ∧
    (∀ n, n ∈ [0; 1] → done (oStart (node σ' n)) = true) ∧
    (∀ b, b ∉ [0; 1] → node σ' b = node wf_launched b).
Proof.
  apply (StartNodes_launches (Workflow.set_t (Some 0) wf_indexed) [0; 1]
           wf_launched 0 [0]); try reflexivity.
  - repeat constructor; intros H; repeat (apply elem_of_cons in H as [H|H]; [done|]);
      by apply elem_of_nil in H.
  - intros H; repeat (apply elem_of_cons in H as [H|H]; [done|]);
      by apply elem_of_nil in H.
  - intros n H. repeat (apply elem_of_cons in H as [->|H]; [reflexivity|]).
    by apply elem_of_nil in H.
Defined.

(** [StartNodesInSubTask] on nodes that have not been started, under a live
    context of the root: the task it returns is a new sub-task of the task of
    the workflow, and every node is launched with a task of its own that is a
    direct sub-task of the returned task. *)
Theorem StartNodesInSubTask_launches (w : Workflow.Workflow) (l : list addr)
    (σ : World) (t0 : task) (cx : Ctx) :
  Workflow.t w = Some t0 →
  BaseNode.Context (Workflow.bn w) σ = Some cx → Err cx σ = false →
  NoDup l → Workflow.bn w ∉ l →
  (∀ n, n ∈ l → done (oStart (node σ n)) = false) →
  let t1 := length (tasks σ) in
  ∃ σ',
    Workflow.StartNodesInSubTask w l σ = Some (t1, σ') ∧
    tasks σ' = tasks σ ++ new_task (NewSubTask t0)
                          :: replicate (length l) (new_task (NewSubTask t1)) ∧
    goroutines σ' = goroutines σ ++ launched (S t1) l ∧
    trace σ' = trace σ ++ CallCreateTask (NewSubTask t0) t1
                          :: launch_calls cx (NewSubTask t1) (S t1) l ∧
    (∀ n, n ∈ l → done (oStart (node σ' n)) = true) ∧
    (∀ b, b ∉ l → node σ' b = node σ b).
Proof.
  intros Ht Hcx He Hnd Hroot Hfresh t1. subst t1.
  unfold Workflow.StartNodesInSubTask. rewrite Ht. cbn [mbind option_bind].
  unfold create_task. set (σ1 := log _ _).
  assert (Hstep : ∀ n σ0, BaseNode.Context (Workflow.bn w) σ0 = Some cx →
            (cx ← BaseNode.Context (Workflow.bn w) σ0;
             Some (Workflow.Node_Start n cx (NewSubTask (length (tasks σ))) σ0))
            = Some (Workflow.Node_Start n cx (NewSubTask (length (tasks σ))) σ0)).
  { intros n σ0 H0. by rewrite H0. }
  destruct (launch_loop w cx (NewSubTask (length (tasks σ)))
              (λ n σ0, cx ← BaseNode.Context (Workflow.bn w) σ0;
                       Some (Workflow.Node_Start n cx (NewSubTask (length (tasks σ))) σ0))
              l σ1 Hstep Hcx He Hnd Hroot Hfresh)
    as (σ' & E & H1 & H2 & H3 & _ & _ & H4 & H5).
  exists σ'. cbn beta in E. rewrite E. cbn [mbind option_bind]. split; [done|].
  assert (Hlen : length (tasks σ1) = S (length (tasks σ))).
  { subst σ1. simpl. rewrite length_app. simpl. lia. }
  rewrite Hlen in H2, H3. split_and!; try done.
  - rewrite H1. subst σ1. simpl. by rewrite <- app_assoc.
  - rewrite H3. subst σ1. simpl. by rewrite <- app_assoc.
Qed.

Lemma StartNodesInSubTask_launches_witness :
  ∃ σ',
    Workflow.StartNodesInSubTask (Workflow.set_t (Some 0) wf_indexed) [0; 1] wf_launched
    = Some (1, σ') ∧
    tasks σ' = tasks wf_launched ++ new_task (NewSubTask 0)
                                    :: replicate 2 (new_task (NewSubTask 1)) ∧
    goroutines σ' = goroutines wf_launched ++ launched 2 [0; 1] ∧
    trace σ' = trace wf_launched ++ CallCreateTask (NewSubTask 0) 1
                                    :: launch_calls [0] (NewSubTask 1) 2 [0; 1] ∧
    (∀ n, n ∈ [0; 1] → done (oStart (node σ' n)) = true) ∧
    (∀ b, b ∉ [0; 1] → node σ' b = node wf_launched b).
Proof.
  apply (StartNodesInSubTask_launches (Workflow.set_t (Some 0) wf_indexed) [0; 1]
           wf_launched 0 [0]); try reflexivity.
  - repeat constructor; intros H; repeat (apply elem_of_cons in H as [H|H]; [done|]);
      by apply elem_of_nil in H.
  - intros H; repeat (apply elem_of_cons in H as [H|H]; [done|]);
      by apply elem_of_nil in H.
  - intros n H. repeat (apply elem_of_cons in H as [->|H]; [reflexivity|]).
    by apply elem_of_nil in H.
Defined.

(** ** Pause, then continue *)

(** On a running workflow, [Pause] then [Continue] gives back the nodes as
    they were and the status [StatusRunning]; the emitter has received the
    paused event and then the started event, and nothing else has changed
    but the trace.  A second [Pause] in between changes nothing. *)
Theorem Pause_Continue_round_trip (order : RangeOrder) (w : Workflow.Workflow)
    (σ : World) :
  Workflow.Status w σ = StatusRunning →
  let σ1 := Workflow.Pause order w σ in
  let σ2 := Workflow.Continue order w σ1 in
  Workflow.Pause order w σ1 = σ1 ∧
  Workflow.Status w σ2 = StatusRunning ∧
  (∀ b, node σ2 b = node σ b) ∧
  emitted σ2 = emitted σ ++ [paused_event w; started_event w] ∧
  cancelled σ2 = cancelled σ ∧ tasks σ2 = tasks σ ∧ goroutines σ2 = goroutines σ.
Proof.
  intros Hs σ1 σ2.
  destruct (Pause_running order w σ Hs) as [Hs1 Ht1]. fold σ1 in Hs1, Ht1.
  destruct (Continue_paused order w σ1 Hs1) as [Hs2 Ht2]. fold σ2 in Hs2, Ht2.
  split; [apply Pause_not_running; by rewrite Hs1|]. split; [done|].
  assert (Hn1 : ∀ b, node σ1 b = if decide (Workflow.bn w = b)
                                  then set_status StatusPaused (node σ b)
                                  else node σ b).
  { intros b. subst σ1. unfold Workflow.Pause.
    rewrite decide_False by (intros E; by apply E). rewrite foldl_log.
    unfold Workflow.Emit, log, node, store. simpl.
    rewrite lookup_total_insert. by destruct (decide (Workflow.bn w = b)) as [->|]. }
  assert (Hrest1 : cancelled σ1 = cancelled σ ∧ tasks σ1 = tasks σ
                   ∧ goroutines σ1 = goroutines σ).
  { subst σ1. unfold Workflow.Pause.
    rewrite decide_False by (intros E; by apply E). by rewrite foldl_log. }
  assert (Hn2 : ∀ b, node σ2 b = if decide (Workflow.bn w = b)
                                  then set_status StatusRunning (node σ1 b)
                                  else node σ1 b).
  { intros b. subst σ2. unfold Workflow.Continue.
    rewrite decide_False by (intros E; by apply E). rewrite foldl_log.
    unfold Workflow.Emit, log, node, store. simpl.
    rewrite lookup_total_insert. by destruct (decide (Workflow.bn w = b)) as [->|]. }
  assert (Hrest2 : cancelled σ2 = cancelled σ1 ∧ tasks σ2 = tasks σ1
                   ∧ goroutines σ2 = goroutines σ1).
  { subst σ2. unfold Workflow.Continue.
    rewrite decide_False by (intros E; by apply E). by rewrite foldl_log. }
  split; [|split].
  - intros b. rewrite Hn2, Hn1. destruct (decide (Workflow.bn w = b)) as [<-|]; [|done].
    unfold Workflow.Status, BaseNode.Status in Hs.
    destruct (node σ (Workflow.bn w)). simpl in *. by rewrite Hs.
  - unfold emitted. rewrite Ht2, Ht1.
    rewrite (emitted_calls CallContinue) by done.
    rewrite (emitted_calls CallPause) by done.
    by rewrite <- app_assoc.
  - destruct Hrest1 as (? & ? & ?), Hrest2 as (? & ? & ?). split_and!; congruence.
Qed.

Lemma Pause_Continue_round_trip_witness :
  let σ := wf_in_status StatusRunning in
  let σ2 := Workflow.Continue map_to_list_order wf_indexed
              (Workflow.Pause map_to_list_order wf_indexed σ) in
  Workflow.Status wf_indexed σ2 = StatusRunning ∧
  emitted σ2 = emitted σ ++ [paused_event wf_indexed; started_event wf_indexed].
Proof.
  destruct (Pause_Continue_round_trip map_to_list_order wf_indexed
              (wf_in_status StatusRunning) eq_refl) as (_ & H1 & _ & H2 & _).
  split; [exact H1|exact H2].
Defined.

(** ** The done notifications reach the neighbours *)

Lemma marks_grow_refl σ : marks_grow σ σ.
Proof. by intros b. Qed.

Lemma marks_grow_trans σ1 σ2 σ3 :
  marks_grow σ1 σ2 → marks_grow σ2 σ3 → marks_grow σ1 σ3.
Proof.
  intros H1 H2 b. destruct (H1 b), (H2 b). split; set_solver.
Qed.

Lemma Stop_marks a σ : marks_grow σ (BaseNode.Stop a σ).
Proof.
  intros b. destruct (decide (a = b)) as [->|Hne].
  - rewrite Stop_node. by destruct (done (oStop (node σ b))).
  - by rewrite Stop_node_other.
Qed.

Lemma store_marks a n σ :
  dom (parentsDone (node σ a)) ⊆ dom (parentsDone n) →
  dom (childrenDone (node σ a)) ⊆ dom (childrenDone n) →
  marks_grow σ (store a n σ).
Proof.
  intros Hp Hc b. destruct (decide (a = b)) as [->|Hne].
  - by rewrite node_store_eq.
  - by rewrite node_store_ne.
Qed.

Lemma ParentIsDone_marks c m σ :
  marks_grow σ (BaseNode.ParentIsDone c m σ) ∧
  (is_Some (parents (node σ c) !! Name m) →
   Name m ∈ dom (parentsDone (node (BaseNode.ParentIsDone c m σ) c))).
Proof.
  unfold BaseNode.ParentIsDone.
  destruct (parents (node σ c) !! Name m) as [x|];
    [|split; [apply marks_grow_refl|by intros [? ?]]].
  cbn zeta. set (n' := set_parentsDone _ _).
  assert (H1 : marks_grow σ (store c n' σ)).
  { apply store_marks; subst n'; simpl; [|done]. rewrite dom_insert_L. set_solver. }
  assert (H2 : Name m ∈ dom (parentsDone (node (store c n' σ) c))).
  { rewrite node_store_eq. subst n'. simpl. rewrite dom_insert_L. set_solver. }
  destruct (_ && _); [|done]. split.
  - eapply marks_grow_trans; [exact H1|apply Stop_marks].
  - intros _. by apply (Stop_marks c (store c n' σ) c).
Qed.

Lemma ChildIsDone_marks p m σ :
  marks_grow σ (BaseNode.ChildIsDone p m σ) ∧
  (is_Some (children (node σ p) !! Name m) →
   Name m ∈ dom (childrenDone (node (BaseNode.ChildIsDone p m σ) p))).
Proof.
  unfold BaseNode.ChildIsDone.
  destruct (children (node σ p) !! Name m) as [x|];
    [|split; [apply marks_grow_refl|by intros [? ?]]].
  cbn zeta. set (n' := set_childrenDone _ _).
  assert (H1 : marks_grow σ (store p n' σ)).
  { apply store_marks; subst n'; simpl; [done|]. rewrite dom_insert_L. set_solver. }
  assert (H2 : Name m ∈ dom (childrenDone (node (store p n' σ) p))).
  { rewrite node_store_eq. subst n'. simpl. rewrite dom_insert_L. set_solver. }
  destruct (_ && _); [|done]. split.
  - eapply marks_grow_trans; [exact H1|apply Stop_marks].
  - intros _. by apply (Stop_marks p (store p n' σ) p).
Qed.

(** A loop of notifications: the marks grow, and every node of the list
    that knows the edge has the mark. *)
Lemma marks_loop (call : addr → NodeMetadata → Call)
    (method : addr → NodeMetadata → World → World)
    (known marked : World → addr → NodeMetadata → Prop) a l σ :
  (∀ c m σ, same_edges σ (method c m σ)) →
  (∀ c m σ, marks_grow σ (method c m σ)) →
  (∀ c m σ, known σ c m → marked (method c m σ) c m) →
  (∀ σ σ' c m, same_graph σ σ' → known σ c m → known σ' c m) →
  (∀ σ σ' c m, marks_grow σ σ' → marked σ c m → marked σ' c m) →
  let σ' := foldl (λ σ c, method c (md (node σ a)) (log (call c (md (node σ a))) σ))
                  σ l in
  marks_grow σ σ' ∧ same_graph σ σ' ∧
  ∀ c, c ∈ l → known σ c (md (node σ a)) → marked σ' c (md (node σ a)).
Proof.
  intros Hedge Hgrow Hmark Hknown Hmarked. revert σ.
  induction l as [|c l IH]; intros σ; cbn [foldl].
  - split; [apply marks_grow_refl|]. split; [by intros b|].
    intros c Hc. by apply elem_of_nil in Hc.
  - set (σl := log (call c (md (node σ a))) σ).
    set (σ1 := method c (md (node σ a)) σl).
    assert (Hg1 : same_graph σ σ1).
    { intros b. destruct (Hedge c (md (node σ a)) σl) as (_ & _ & Hn). exact (Hn b). }
    assert (Hm1 : marks_grow σ σ1) by exact (Hgrow c (md (node σ a)) σl).
    destruct (IH σ1) as (Hm & Hg & Hall).
    assert (Hmd : md (node σ1 a) = md (node σ a)) by apply Hg1.
    rewrite Hmd in Hall. split; [by eapply marks_grow_trans|].
    split; [by eapply same_graph_trans|].
    intros x Hx Hk. apply elem_of_cons in Hx as [->|Hx].
    + apply (Hmarked σ1); [done|]. apply Hmark, (Hknown σ); [by intros b|exact Hk].
    + apply Hall; [done|]. by apply (Hknown σ).
Qed.

Lemma task_Done_node t σ b : node (task_Done t σ) b = node σ b.
Proof. done. Qed.

(** When the exec function of a node has returned, the completion leaves
    its mark on the neighbours that know the node: every child that has the
    node among its parents has the name of the node in its parents-done
    marks, every parent that has it among its children has the name in its
    children-done marks; and no mark is lost. *)
Theorem completion_marks (a : addr) (t : task) (σ : World) :
  let σ' := BaseNode.completion a t Returned σ in
  let nm := Name (md (node σ a)) in
  (∀ c, c ∈ BaseNode.Children a σ → is_Some (parents (node σ c) !! nm) →
        nm ∈ dom (parentsDone (node σ' c))) ∧
  (∀ p, p ∈ BaseNode.Parents a σ → is_Some (children (node σ p) !! nm) →
        nm ∈ dom (childrenDone (node σ' p))) ∧
  marks_grow σ σ'.
Proof.
  intros σ' nm. subst σ' nm. unfold BaseNode.completion. cbn zeta.
  unfold BaseNode.notify.
  destruct (marks_loop CallParentIsDone BaseNode.ParentIsDone
              (λ σ c m, is_Some (parents (node σ c) !! Name m))
              (λ σ c m, Name m ∈ dom (parentsDone (node σ c)))
              a (BaseNode.Children a σ) σ) as (Hm1 & Hg1 & Hall1).
  { apply ParentIsDone_same_edges. }
  { intros. apply ParentIsDone_marks. }
  { intros. by apply ParentIsDone_marks. }
  { intros σ1 σ2 c m Hg Hk. by destruct (Hg c) as (_ & _ & ->). }
  { intros σ1 σ2 c m Hg Hk. by apply (Hg c). }
  set (σ1 := foldl _ σ (BaseNode.Children a σ)) in *.
  destruct (marks_loop CallChildIsDone BaseNode.ChildIsDone
              (λ σ p m, is_Some (children (node σ p) !! Name m))
              (λ σ p m, Name m ∈ dom (childrenDone (node σ p)))
              a (BaseNode.Parents a σ1) σ1) as (Hm2 & Hg2 & Hall2).
  { apply ChildIsDone_same_edges. }
  { intros. apply ChildIsDone_marks. }
  { intros. by apply ChildIsDone_marks. }
  { intros σ2 σ3 c m Hg Hk. by destruct (Hg c) as (_ & -> & _). }
  { intros σ2 σ3 c m Hg Hk. by apply (Hg c). }
  set (σ2 := foldl _ σ1 (BaseNode.Parents a σ1)) in *.
  assert (Hp : BaseNode.Parents a σ1 = BaseNode.Parents a σ).
  { unfold BaseNode.Parents. by destruct (Hg1 a) as (_ & _ & ->). }
  assert (Hmd : md (node σ1 a) = md (node σ a)) by apply Hg1.
  rewrite Hp, Hmd in Hall2.
  assert (Hm3 : marks_grow σ2 (task_Done t (BaseNode.Stop a (log (CallStop a) σ2)))).
  { intros b. rewrite task_Done_node. apply (Stop_marks a (log (CallStop a) σ2)). }
  split; [|split].
  - intros c Hc Hk. apply (Hm3 c), (Hm2 c). by apply Hall1.
  - intros p Hpin Hk. apply (Hm3 p). apply Hall2; [done|].
    by destruct (Hg1 p) as (_ & -> & _).
  - eapply marks_grow_trans; [exact Hm1|]. by eapply marks_grow_trans.
Qed.

Lemma completion_marks_witness :
  let σ' := BaseNode.completion 1 0 Returned chain_running in
  "A" ∈ dom (parentsDone (node σ' 2)) ∧ "A" ∈ dom (childrenDone (node σ' 0)).
Proof.
  destruct (completion_marks 1 0 chain_running) as (H1 & H2 & _).
  split.
  - apply (H1 2); [vm_compute; by left|]. vm_compute. by eexists.
  - apply (H2 0); [vm_compute; by left|]. vm_compute. by eexists.
Defined.

(** ** A run of the workflow, from [start] to the end of its goroutine *)

Lemma completion_calls a t σ :
  ∃ notes,
    trace (BaseNode.completion a t Returned σ)
    = trace σ ++ notes ++ [CallStop a; CallDone t] ∧
    Forall is_notification notes.
Proof.
  exists (map (λ c, CallParentIsDone c (md (node σ a))) (BaseNode.Children a σ)
          ++ map (λ p, CallChildIsDone p (md (node σ a))) (BaseNode.Parents a σ)).
  split.
  - unfold BaseNode.completion, task_Done. cbn zeta.
    destruct (Stop_same_edges a (log (CallStop a) (BaseNode.notify a σ))) as (Ht & _).
    unfold log at 1. simpl. rewrite Ht. simpl.
    destruct (notify_trace a σ) as [-> _]. by rewrite <- !app_assoc.
  - apply Forall_app. split; apply Forall_forall; intros c Hc;
      apply list_elem_of_fmap in Hc as (x & -> & _); done.
Qed.

(** [start] on a workflow whose root has not been started, under a live
    context: the root gets one task from the factory of the workflow and one
    goroutine; until the root is stopped every further [start] is a no-op;
    and the goroutine runs to its end: it stores the task in the workflow,
    runs the closure up to [Wait] and the calls of the closing, notifies the
    neighbours of the root, and ends with the [Stop] of the root and [Done]
    on the task. *)
Theorem workflow_run (w : Workflow.Workflow) (l : list addr)
    (opts : WorkflowStartOptions) (σ : World) :
  done (oStart (node σ (Workflow.bn w))) = false → Err (Workflow.ctx w) σ = false →
  let t0 := length (tasks σ) in
  let σ1 := Workflow.start w l opts σ in
  let g := {| g_node := Workflow.bn w; g_task := t0; g_exec := ExecWorkflow l opts |} in
  goroutines σ1 = goroutines σ ++ [g] ∧
  trace σ1 = trace σ ++ [CallCreateTask (Workflow.tf w) t0] ∧
  (∀ l' opts', Workflow.start w l' opts' σ1 = σ1) ∧
  ∃ σ2 body notes,
    Workflow.goroutine w g σ1 = Some (Workflow.set_t (Some t0) w, σ2) ∧
    trace σ2 = trace σ1 ++ CallExec (ExecWorkflow l opts) t0 :: body
               ++ CallWait t0 :: closing_calls w
               ++ notes ++ [CallStop (Workflow.bn w); CallDone t0] ∧
    Forall is_notification notes.
Proof.
  intros Hd He t0 σ1 g.
  pose proof (Start_live (Workflow.bn w) σ (Workflow.ctx w)
                (o (node σ (Workflow.bn w))) (Workflow.tf w) (ExecWorkflow l opts)
                Hd He) as E1.
  change (BaseNode.Start _ _ _ _ _ σ) with σ1 in E1. clearbody σ1.
  assert (Hn1 : node σ1 (Workflow.bn w)
                = started_node (tokens σ) (Workflow.ctx w)
                    (o (node σ (Workflow.bn w))) (node σ (Workflow.bn w))).
  { rewrite E1. unfold node. simpl. by rewrite lookup_total_insert_eq. }
  split; [by rewrite E1|]. split; [by rewrite E1|]. split.
  - intros l' opts'. unfold Workflow.start. apply Start_started. by rewrite Hn1.
  - set (σl := log (CallExec (ExecWorkflow l opts) t0) σ1).
    assert (Hr : is_Some (BaseNode.Context (Workflow.bn w) σl)).
    { unfold BaseNode.Context. change (node σl (Workflow.bn w))
        with (node σ1 (Workflow.bn w)). rewrite Hn1. by eexists. }
    destruct (start_exec_trace w l opts t0 σl Hr)
      as (σx & U & ts & Ss & Ex & Htx & _).
    destruct (completion_calls (Workflow.bn w) t0 σx) as (notes & Hc & Hnotes).
    exists (BaseNode.completion (Workflow.bn w) t0 Returned σx),
      (U ++ group_calls t0 ts Ss ++ [CallEmit (started_event w)]
         ++ callback_calls (Groups opts) ts), notes.
    split; [|split; [|done]].
    + unfold Workflow.goroutine. subst g. cbn [g_exec g_task g_node].
      fold σl. rewrite Ex. done.
    + rewrite Hc, Htx. subst σl. cbn [log set_trace trace].
      repeat (rewrite <- ?app_assoc; rewrite <- ?app_comm_cons). reflexivity.
Qed.

Lemma workflow_run_witness :
  ∃ σ2 body notes,
    Workflow.goroutine wf_indexed
      {| g_node := 2; g_task := 0; g_exec := ExecWorkflow [0; 1] grouped |}
      (Workflow.start wf_indexed [0; 1] grouped wf_built)
    = Some (Workflow.set_t (Some 0) wf_indexed, σ2) ∧
    trace σ2 = trace (Workflow.start wf_indexed [0; 1] grouped wf_built)
               ++ CallExec (ExecWorkflow [0; 1] grouped) 0 :: body
               ++ CallWait 0 :: closing_calls wf_indexed
               ++ notes ++ [CallStop 2; CallDone 0] ∧
    Forall is_notification notes.
Proof.
  destruct (workflow_run wf_indexed [0; 1] grouped wf_built eq_refl eq_refl)
    as (_ & _ & _ & H).
  exact H.
Defined.
